(** * TabBrain: URL normalisation, duplicate clustering, token batching, retry

    A shallow embedding of the pure core of the TabBrain browser extension
    (lib/algorithms/url-normalizer, lib/algorithms/duplicates,
    lib/algorithms/similarity.ts, lib/llm/token-estimator, lib/utils/retry.ts
    and the pure helpers of lib/chrome/bookmarks and lib/llm/prompts)
    together with the properties its specification states about it and
    further properties of the code.

    Conventions of the embedding.
    - A JavaScript [number] that holds an identifier, a timestamp, a length
      or a token count is a [Z]; the similarity threshold and the ratio it is
      compared with are exact rationals ([Q]).
    - A JavaScript string is a [string]: a sequence of 8-bit code units.  The
      model agrees with the platform on ASCII text.
    - A [Map<string, X[]>] is an association list in insertion order, since
      the order of [Map.prototype.entries] is observable in the results.
    - An array that is assigned to by index ([levenshteinDistance]) is a list
      of optional elements: a hole and an index past the end read as
      [undefined].
    - [new URL(u)] is a primitive of the platform, not code of this
      repository.  The development is parametric in it (class [JS.Platform]);
      a small concrete parser for plain [scheme://host/path?query#fragment]
      addresses is supplied to run the functions on concrete inputs. *)

From Stdlib Require Import List String Ascii ZArith QArith Bool Lia.
From Stdlib Require Import Sorting.Sorted Sorting.Permutation.
From Stdlib Require OrderedTypeEx.
Import ListNotations.

Local Open Scope string_scope.
Local Open Scope Z_scope.

(* ================================================================== *)
(** * Platform primitives *)
(* ================================================================== *)

Module JS.

(** ** Strings *)

(** [s.length] *)
Definition length (s : string) : Z := Z.of_nat (String.length s).

(** Truthiness of a string: the empty string is falsy. *)
Definition truthy (s : string) : bool :=
  match s with EmptyString => false | String _ _ => true end.

Definition lower_ascii (c : ascii) : ascii :=
  let n := nat_of_ascii c in
  if (Nat.leb 65 n && Nat.leb n 90)%bool then ascii_of_nat (n + 32) else c.

(** [s.toLowerCase()] on ASCII letters. *)
Fixpoint toLowerCase (s : string) : string :=
  match s with
  | EmptyString => EmptyString
  | String c r => String (lower_ascii c) (toLowerCase r)
  end.

(** [s.startsWith(p)] *)
Fixpoint startsWith (s p : string) {struct p} : bool :=
  match p, s with
  | EmptyString, _ => true
  | String a p', String b s' => (Ascii.eqb a b && startsWith s' p')%bool
  | String _ _, EmptyString => false
  end.

(** [s.replace(/^www\./, '')] *)
Definition stripWwwPrefix (s : string) : string :=
  if startsWith s "www." then String.substring 4 (String.length s - 4) s else s.

(** [s.endsWith(c)] for a one-character [c]. *)
Fixpoint endsWith (s : string) (c : ascii) : bool :=
  match s with
  | EmptyString => false
  | String a EmptyString => Ascii.eqb a c
  | String _ r => endsWith r c
  end.

(** [s.slice(0, -1)] *)
Fixpoint dropLast (s : string) : string :=
  match s with
  | EmptyString => EmptyString
  | String _ EmptyString => EmptyString
  | String a r => String a (dropLast r)
  end.

(** [s.split(sep)] for a one-character separator.  The accumulator holds the
    current piece, reversed. *)
Fixpoint split_aux (sep : ascii) (s : string) (acc : list ascii) : list string :=
  match s with
  | EmptyString => [string_of_list_ascii (rev acc)]
  | String c r =>
      if Ascii.eqb c sep
      then string_of_list_ascii (rev acc) :: split_aux sep r []
      else split_aux sep r (c :: acc)
  end.

Definition split (sep : ascii) (s : string) : list string := split_aux sep s [].

(** [arr.filter(Boolean)] on an array of strings. *)
Definition filterBoolean (l : list string) : list string := filter truthy l.

(** ASCII white space, as matched by [\s]. *)
Definition isSpace (c : ascii) : bool :=
  let n := nat_of_ascii c in
  (Nat.eqb n 32 || (Nat.leb 9 n && Nat.leb n 13))%bool.

(** [s.split(/\s+/).filter(Boolean).length]: the number of maximal runs of
    non-space characters.  [inWord] tells whether the previous character
    belonged to a word. *)
Fixpoint countWords (s : string) (inWord : bool) : Z :=
  match s with
  | EmptyString => 0
  | String c r =>
      if isSpace c then countWords r false
      else (if inWord then 0 else 1) + countWords r true
  end.

(** ** Arrays *)

Section Sort.
Context {A : Type}.
Variable cmp : A -> A -> Z.

(** [Array.prototype.sort(cmp)] is a stable sort: an element is placed
    in front of the first element it does not exceed. *)
Fixpoint insert (x : A) (l : list A) : list A :=
  match l with
  | [] => [x]
  | y :: r => if cmp x y <=? 0 then x :: y :: r else y :: insert x r
  end.

Fixpoint sort (l : list A) : list A :=
  match l with
  | [] => []
  | x :: r => insert x (sort r)
  end.
End Sort.

(** ** Map<string, V>, in insertion order *)

Section MapOps.
Context {V : Type}.

Definition Map := list (string * V).

Fixpoint get (m : Map) (k : string) : option V :=
  match m with
  | [] => None
  | (k', v) :: r => if String.eqb k' k then Some v else get r k
  end.

(** [m.set(k, v)]: an existing key keeps its position. *)
Fixpoint set (m : Map) (k : string) (v : V) : Map :=
  match m with
  | [] => [(k, v)]
  | (k', v') :: r =>
      if String.eqb k' k then (k', v) :: r else (k', v') :: set r k v
  end.
End MapOps.
Arguments Map : clear implicits.

(** ** URLSearchParams *)

Definition Params := list (string * string).

Definition removeName (k : string) (l : Params) : Params :=
  filter (fun kv => negb (String.eqb (fst kv) k)) l.

(** [params.set(k, v)]: the first pair named [k] takes the value [v] and
    the other pairs named [k] are removed; without such a pair, [(k, v)] is
    appended. *)
Fixpoint paramsSet (l : Params) (k v : string) : Params :=
  match l with
  | [] => [(k, v)]
  | (k', v') :: r =>
      if String.eqb k' k then (k', v) :: removeName k r
      else (k', v') :: paramsSet r k v
  end.

Definition hexDigit (n : nat) : ascii :=
  ascii_of_nat (if Nat.ltb n 10 then 48 + n else 55 + n).

Definition isUrlencodedSafe (c : ascii) : bool :=
  let n := nat_of_ascii c in
  ((Nat.leb 48 n && Nat.leb n 57) || (Nat.leb 65 n && Nat.leb n 90)
   || (Nat.leb 97 n && Nat.leb n 122)
   || Nat.eqb n 42 || Nat.eqb n 45 || Nat.eqb n 46 || Nat.eqb n 95)%bool.

(** The application/x-www-form-urlencoded byte serializer. *)
Fixpoint urlencode (s : string) : string :=
  match s with
  | EmptyString => EmptyString
  | String c r =>
      if isUrlencodedSafe c then String c (urlencode r)
      else if Ascii.eqb c " " then String "+" (urlencode r)
      else let n := nat_of_ascii c in
           String "%" (String (hexDigit (n / 16)) (String (hexDigit (n mod 16)) (urlencode r)))
  end.

(** [params.toString()] *)
Fixpoint paramsToString (l : Params) : string :=
  match l with
  | [] => ""
  | [(k, v)] => urlencode k ++ "=" ++ urlencode v
  | (k, v) :: r => urlencode k ++ "=" ++ urlencode v ++ "&" ++ paramsToString r
  end.

(** ** URL objects *)

(** The getters of a parsed [URL] that the program reads. *)
Record URL : Type := mkURL {
  protocol : string;
  hostname : string;
  pathname : string;
  search : string;
  searchParams : Params;
  hash : string
}.

(** The [search] setter followed by the [search] getter, on the output of
    [paramsToString]: one leading [?] is dropped from the value; an empty
    query reads back as the empty string, any other as [?] followed by it.
    (The setter's percent-encoding leaves the serializer's output
    unchanged.) *)
Definition setSearch (v : string) : string :=
  let q := match v with
           | String c r => if Ascii.eqb c "?" then r else v
           | EmptyString => v
           end in
  if truthy q then String "?" q else "".

(** [arr.join(sep)] on an array of strings. *)
Definition join (sep : string) (l : list string) : string := String.concat sep l.

(** [arr.slice(-n)] for [n > 0]: the last [n] elements, or the whole array
    when it has fewer. *)
Definition lastN {A : Type} (n : nat) (l : list A) : list A :=
  skipn (List.length l - n) l.

(** [s.slice(0, stop)]: a negative [stop] counts from the end of [s]. *)
Definition sliceTo (s : string) (stop : Z) : string :=
  let n := JS.length s in
  let stop := if stop <? 0 then Z.max (n + stop) 0 else Z.min stop n in
  String.substring 0 (Z.to_nat stop) s.

(** [new Set(arr)] as the list of its elements in insertion order: the
    first occurrence of every string. *)
Fixpoint setAdd (s : list string) (x : string) : list string :=
  match s with
  | [] => [x]
  | y :: r => if String.eqb y x then s else y :: setAdd r x
  end.

Definition newSet (arr : list string) : list string := fold_left setAdd arr [].

(** [set.has(x)] *)
Definition has (s : list string) (x : string) : bool := existsb (String.eqb x) s.

(** The platform functions the program calls and this development does not
    define: [new URL(u)], which throws on an unparseable address ([None]),
    and [a.localeCompare(b)]. *)
Class Platform : Type := {
  URL_parse : string -> option URL;
  localeCompare : string -> string -> Z
}.

End JS.

(* ================================================================== *)
(** * lib/algorithms/url-normalizer *)
(* ================================================================== *)

Module UrlNormalizer.
Import JS.

Definition TRACKING_PARAMS : list string :=
  [ "utm_source"; "utm_medium"; "utm_campaign"; "utm_term"; "utm_content";
    "utm_id"; "utm_source_platform"; "utm_creative_format"; "utm_marketing_tactic";
    "fbclid"; "fb_action_ids"; "fb_action_types"; "fb_source"; "fb_ref";
    "twclid";
    "msclkid";
    "gclid"; "gclsrc"; "dclid";
    "mc_cid"; "mc_eid";
    "hsa_acc"; "hsa_cam"; "hsa_grp"; "hsa_ad"; "hsa_src"; "hsa_tgt";
    "hsa_kw"; "hsa_mt"; "hsa_net"; "hsa_ver";
    "ref"; "ref_src"; "ref_url"; "source"; "referrer";
    "affiliate"; "aff_id"; "campaign_id";
    "sessionid"; "session_id"; "clickid"; "click_id";
    "trk"; "trkid"; "share"; "si"; "s"; "feature" ].

(** [arr.includes(x)] and [set.has(x)] on strings. *)
Definition includes (l : list string) (x : string) : bool :=
  existsb (String.eqb x) l.

(** [NormalizeOptions]: every field is optional. *)
Record NormalizeOptions : Type := mkOptions {
  stripTracking : option bool;
  stripWww : option bool;
  stripProtocol : option bool;
  stripTrailingSlash : option bool;
  stripHash : option bool;
  lowercase : option bool;
  sortParams : option bool
}.

Definition DEFAULT_OPTIONS : NormalizeOptions :=
  mkOptions (Some true) (Some true) (Some true) (Some true)
            (Some true) (Some true) (Some true).

(** [options = {}], the default of the parameter: [normalizeUrl(url)] is
    [normalizeUrl url noOptions]. *)
Definition noOptions : NormalizeOptions :=
  mkOptions None None None None None None None.

Definition orElse (a b : option bool) : option bool :=
  match a with Some _ => a | None => b end.

(** [{ ...d, ...o }] *)
Definition spread (d o : NormalizeOptions) : NormalizeOptions :=
  mkOptions (orElse (stripTracking o) (stripTracking d))
            (orElse (stripWww o) (stripWww d))
            (orElse (stripProtocol o) (stripProtocol d))
            (orElse (stripTrailingSlash o) (stripTrailingSlash d))
            (orElse (stripHash o) (stripHash d))
            (orElse (lowercase o) (lowercase d))
            (orElse (sortParams o) (sortParams d)).

(** Truthiness of an optional boolean. *)
Definition on (b : option bool) : bool :=
  match b with Some true => true | _ => false end.

Definition isHttp (p : URL) : bool := includes ["http:"; "https:"] (protocol p).

Section WithPlatform.
Context `{Platform}.

(** The body of the [for (const [key, value] of entries)] loop. *)
Definition keepParam (opts : NormalizeOptions) (params : Params)
           (kv : string * string) : Params :=
  let (key, value) := kv in
  if (on (stripTracking opts) && includes TRACKING_PARAMS (toLowerCase key))%bool
  then params
  else paramsSet params key value.

(** The entries in the order the loop visits them. *)
Definition sortedEntries (opts : NormalizeOptions) (entries : Params) : Params :=
  if on (sortParams opts)
  then sort (fun a b => localeCompare (fst a) (fst b)) entries
  else entries.

(** The content of [params] when the loop ends. *)
Definition processParams (opts : NormalizeOptions) (entries : Params) : Params :=
  fold_left (keepParam opts) (sortedEntries opts entries) [].

(** [parsed.search] after the "Process search params" block. *)
Definition processSearch (opts : NormalizeOptions) (parsed : URL) : string :=
  if (on (stripTracking opts) || on (sortParams opts))%bool
  then setSearch (paramsToString (processParams opts (searchParams parsed)))
  else search parsed.

(** [hostname] after the "Strip www" and "Lowercase hostname" blocks. *)
Definition processHostname (opts : NormalizeOptions) (parsed : URL) : string :=
  let hostname := hostname parsed in
  let hostname := if on (stripWww opts) then stripWwwPrefix hostname else hostname in
  if on (lowercase opts) then toLowerCase hostname else hostname.

(** [normalized] after the "Handle trailing slash" block. *)
Definition processPath (opts : NormalizeOptions) (parsed : URL) : string :=
  let normalized := "" in
  let normalized :=
    if negb (on (stripProtocol opts)) then normalized ++ "https://" else normalized in
  let normalized := normalized ++ processHostname opts parsed in
  let normalized := normalized ++ pathname parsed in
  if (on (stripTrailingSlash opts) && endsWith normalized "/"
      && (JS.length normalized >? 1))%bool
  then dropLast normalized
  else normalized.

Definition normalizeUrl (url : string) (options : NormalizeOptions) : string :=
  let opts := spread DEFAULT_OPTIONS options in
  match URL_parse url with
  | None => url
  | Some parsed =>
      if negb (isHttp parsed) then url
      else
        let search := processSearch opts parsed in
        let normalized := processPath opts parsed in
        let normalized :=
          if truthy search then normalized ++ search else normalized in
        let normalized :=
          if (negb (on (stripHash opts)) && truthy (hash parsed))%bool
          then normalized ++ hash parsed else normalized in
        normalized
  end.

Definition getDomain (url : string) : string :=
  match URL_parse url with
  | Some parsed => toLowerCase (stripWwwPrefix (hostname parsed))
  | None => url
  end.

Definition isInternalUrl (url : string) : bool :=
  match URL_parse url with
  | Some parsed =>
      includes ["chrome:"; "chrome-extension:"; "edge:"; "about:"; "file:"]
               (protocol parsed)
  | None => false
  end.

Definition getBaseDomain (url : string) : string :=
  let domain := getDomain url in
  let parts := split "." domain in
  if Z.of_nat (List.length parts) <=? 2 then domain
  else
    let commonTlds := ["co"; "com"; "org"; "net"; "gov"; "edu"] in
    if ((Z.of_nat (List.length parts) >=? 3)
        && includes commonTlds
             (match nth_error parts (List.length parts - 2) with
              | Some part => part
              | None => ""
              end))%bool
    then join "." (lastN 3 parts)
    else join "." (lastN 2 parts).

Definition getPath (url : string) : string :=
  match URL_parse url with
  | Some parsed => pathname parsed
  | None => ""
  end.

Definition isSameDomain (url1 url2 : string) : bool :=
  String.eqb (getDomain url1) (getDomain url2).

Definition isSameBaseDomain (url1 url2 : string) : bool :=
  String.eqb (getBaseDomain url1) (getBaseDomain url2).

Definition isValidHttpUrl (url : string) : bool :=
  match URL_parse url with
  | Some parsed => isHttp parsed
  | None => false
  end.
End WithPlatform.

End UrlNormalizer.

(* ================================================================== *)
(** * types/domain *)
(* ================================================================== *)

Module TabInfo.
Record t : Type := mk {
  id : Z;
  windowId : Z;
  index : Z;
  url : string;
  title : string;
  favIconUrl : option string;
  pinned : bool;
  groupId : Z;
  active : bool;
  discarded : bool
}.
End TabInfo.

Module BookmarkNode.
#[local] Set Warnings "-register-all".
Inductive t : Type :=
  mk (id : string) (parentId : option string) (index : option Z)
     (title : string) (url : option string) (dateAdded : option Z)
     (children : option (list t)).

Definition id (b : t) : string := let (x, _, _, _, _, _, _) := b in x.
Definition title (b : t) : string := let (_, _, _, x, _, _, _) := b in x.
Definition url (b : t) : option string := let (_, _, _, _, x, _, _) := b in x.
Definition dateAdded (b : t) : option Z := let (_, _, _, _, _, x, _) := b in x.
Definition children (b : t) : option (list t) := let (_, _, _, _, _, _, x) := b in x.
End BookmarkNode.

Module DuplicateGroup.
Record t : Type := mk { normalizedUrl : string; tabs : list TabInfo.t }.
End DuplicateGroup.

Module BookmarkDuplicateGroup.
Record t : Type := mk { normalizedUrl : string; bookmarks : list BookmarkNode.t }.
End BookmarkDuplicateGroup.

(* ================================================================== *)
(** * lib/chrome/bookmarks: the pure helpers *)
(* ================================================================== *)

Module Bookmarks.
Local Open Scope list_scope.

(** [function traverse(node)] inside [flattenBookmarks]; the array [result]
    it pushes to is passed through.  An array of children is truthy even
    when it is empty. *)
Fixpoint traverse (result : list BookmarkNode.t) (node : BookmarkNode.t) {struct node}
  : list BookmarkNode.t :=
  match node with
  | BookmarkNode.mk _ _ _ _ _ _ children =>
      let result := result ++ [node] in
      match children with
      | Some children => fold_left traverse children result
      | None => result
      end
  end.

Definition flattenBookmarks (nodes : list BookmarkNode.t) : list BookmarkNode.t :=
  fold_left traverse nodes [].

(** [node.url !== undefined] *)
Definition hasUrl (node : BookmarkNode.t) : bool :=
  match BookmarkNode.url node with Some _ => true | None => false end.

(** [node.url === undefined] *)
Definition isFolder (node : BookmarkNode.t) : bool :=
  match BookmarkNode.url node with Some _ => false | None => true end.

Definition getAllBookmarkUrls (nodes : list BookmarkNode.t) : list BookmarkNode.t :=
  filter hasUrl (flattenBookmarks nodes).

Definition getAllFolders (nodes : list BookmarkNode.t) : list BookmarkNode.t :=
  filter isFolder (flattenBookmarks nodes).

End Bookmarks.

(* ================================================================== *)
(** * lib/algorithms/duplicates *)
(* ================================================================== *)

Module Duplicates.
Import JS UrlNormalizer.
Local Open Scope list_scope.

(** [a ?? 0] *)
Definition orZero (a : option Z) : Z := match a with Some x => x | None => 0 end.

(** The grouping idiom of the module:
    [const existing = groups.get(key);
     if (existing) existing.push(x) else groups.set(key, [x])].
    The array stored under [key] is extended in place, so the entry keeps
    its position in the map. *)
Definition pushTo {A : Type} (groups : Map (list A)) (key : string) (x : A)
  : Map (list A) :=
  match get groups key with
  | Some existing => set groups key (existing ++ [x])
  | None => set groups key [x]
  end.

(** [a === b] on array reads, which may be [undefined]. *)
Definition sameSegment (a b : option string) : bool :=
  match a, b with
  | Some x, Some y => String.eqb x y
  | None, None => true
  | _, _ => false
  end.

(** [matches] after the loop [for (let i = 0; i < maxLen; i++)]. *)
Definition countMatches (path1 path2 : list string) (maxLen : Z) : Z :=
  fold_left
    (fun matches i =>
       if sameSegment (nth_error path1 i) (nth_error path2 i)
       then matches + 1 else matches)
    (seq 0 (Z.to_nat maxLen)) 0.

(** [pathname.split('/').filter(Boolean)] *)
Definition segments (pathname : string) : list string :=
  filterBoolean (split "/" pathname).

Definition len {A : Type} (l : list A) : Z := Z.of_nat (List.length l).

(** [getDuplicateTabsToRemove]: the inner loop reads [group.tabs[i]] for
    [i = 1 .. length - 1]. *)
Definition getDuplicateTabsToRemove (groups : list DuplicateGroup.t) : list Z :=
  fold_left
    (fun toRemove group =>
       fold_left
         (fun toRemove i =>
            match nth_error (DuplicateGroup.tabs group) i with
            | Some tab =>
                if negb (TabInfo.pinned tab) then toRemove ++ [TabInfo.id tab]
                else toRemove
            | None => toRemove
            end)
         (seq 1 (List.length (DuplicateGroup.tabs group) - 1)) toRemove)
    groups [].

Section WithPlatform.
Context `{Platform}.

Definition findDuplicateTabs (tabs : list TabInfo.t) : list DuplicateGroup.t :=
  let groups :=
    fold_left
      (fun groups tab =>
         if isInternalUrl (TabInfo.url tab) then groups
         else pushTo groups (normalizeUrl (TabInfo.url tab) noOptions) tab)
      tabs [] in
  map (fun '(normalizedUrl, tabs) =>
         DuplicateGroup.mk normalizedUrl
           (sort (fun a b => TabInfo.id a - TabInfo.id b) tabs))
      (filter (fun '(_, tabs) => len tabs >? 1) groups).

Definition findDuplicateBookmarks (bookmarks : list BookmarkNode.t)
  : list BookmarkDuplicateGroup.t :=
  let groups :=
    fold_left
      (fun groups bookmark =>
         match BookmarkNode.url bookmark with
         | None => groups
         | Some url =>
             if negb (truthy url) then groups
             else pushTo groups (normalizeUrl url noOptions) bookmark
         end)
      bookmarks [] in
  map (fun '(normalizedUrl, bookmarks) =>
         BookmarkDuplicateGroup.mk normalizedUrl
           (sort (fun a b => orZero (BookmarkNode.dateAdded a)
                             - orZero (BookmarkNode.dateAdded b)) bookmarks))
      (filter (fun '(_, bookmarks) => len bookmarks >? 1) groups).

Definition areSimilarUrls (url1 url2 : string) (threshold : Q) : bool :=
  match URL_parse url1, URL_parse url2 with
  | Some parsed1, Some parsed2 =>
      if negb (String.eqb (hostname parsed1) (hostname parsed2)) then false
      else
        let path1 := segments (pathname parsed1) in
        let path2 := segments (pathname parsed2) in
        if Z.abs (len path1 - len path2) >? 1 then false
        else
          let maxLen := Z.max (len path1) (len path2) in
          if maxLen =? 0 then true
          else
            let matches := countMatches path1 path2 maxLen in
            Qle_bool threshold (inject_Z matches / inject_Z maxLen)
  | _, _ => false
  end.

(** The search [for (const cluster of clusters)] for a cluster whose
    representative [cluster[0]] is similar to [tab]; [None] when the loop
    ends with [addedToCluster] still false. *)
Fixpoint joinCluster (threshold : Q) (tab : TabInfo.t)
         (clusters : list (list TabInfo.t)) : option (list (list TabInfo.t)) :=
  match clusters with
  | [] => None
  | cluster :: rest =>
      if match cluster with
         | representative :: _ =>
             areSimilarUrls (TabInfo.url tab) (TabInfo.url representative) threshold
         | [] => false
         end
      then Some ((cluster ++ [tab]) :: rest)
      else option_map (cons cluster) (joinCluster threshold tab rest)
  end.

Definition clusterTab (threshold : Q) (clusters : list (list TabInfo.t))
           (tab : TabInfo.t) : list (list TabInfo.t) :=
  match joinCluster threshold tab clusters with
  | Some clusters' => clusters'
  | None => clusters ++ [[tab]]
  end.

(** [clusters] for one domain partition. *)
Definition clustersOf (threshold : Q) (domainTabs : list TabInfo.t)
  : list (list TabInfo.t) :=
  fold_left (clusterTab threshold) domainTabs [].

(** [cluster[0]?.url ?? ''] *)
Definition firstUrl (cluster : list TabInfo.t) : string :=
  match cluster with t :: _ => TabInfo.url t | [] => "" end.

Definition groupTabsByDomain (tabs : list TabInfo.t) : Map (list TabInfo.t) :=
  fold_left
    (fun groups tab =>
       if isInternalUrl (TabInfo.url tab) then groups
       else pushTo groups (getDomain (TabInfo.url tab)) tab)
    tabs [].

Definition groupBookmarksByDomain (bookmarks : list BookmarkNode.t)
  : Map (list BookmarkNode.t) :=
  fold_left
    (fun groups bookmark =>
       match BookmarkNode.url bookmark with
       | None => groups
       | Some url =>
           if negb (truthy url) then groups
           else pushTo groups (getDomain url) bookmark
       end)
    bookmarks [].

Definition findNearDuplicateTabs (tabs : list TabInfo.t) (similarityThreshold : Q)
  : list DuplicateGroup.t :=
  let domainGroups := groupTabsByDomain tabs in
  flat_map
    (fun '(_, domainTabs) =>
       if len domainTabs <? 2 then []
       else
         map (fun cluster =>
                DuplicateGroup.mk (normalizeUrl (firstUrl cluster) noOptions) cluster)
             (filter (fun cluster => len cluster >? 1)
                     (clustersOf similarityThreshold domainTabs)))
    domainGroups.
End WithPlatform.

(** [getDuplicateBookmarksToRemove]: as for tabs, without the test of
    [pinned]. *)
Definition getDuplicateBookmarksToRemove (groups : list BookmarkDuplicateGroup.t)
  : list string :=
  fold_left
    (fun toRemove group =>
       fold_left
         (fun toRemove i =>
            match nth_error (BookmarkDuplicateGroup.bookmarks group) i with
            | Some bookmark => toRemove ++ [BookmarkNode.id bookmark]
            | None => toRemove
            end)
         (seq 1 (List.length (BookmarkDuplicateGroup.bookmarks group) - 1)) toRemove)
    groups [].

(** The default of [similarityThreshold]. *)
Definition defaultThreshold : Q := 8 # 10.

End Duplicates.

(* ================================================================== *)
(** * lib/llm/token-estimator *)
(* ================================================================== *)

Module TokenEstimator.
Import JS.
Local Open Scope list_scope.

(** [Math.ceil(a / b)] for [b > 0]. *)
Definition ceilDiv (a b : Z) : Z := - ((- a) / b).

(** [Math.ceil(words * 1.3)] is computed as [ceil(13 * words / 10)]: the
    double nearest to [1.3] exceeds it by less than one part in [2^54], so
    the rounded product is the integer [13 * words / 10] whenever that is an
    integer, and has the same ceiling otherwise. *)
Definition estimateTokens (text : string) : Z :=
  if negb (truthy text) then 0
  else
    let words := countWords text false in
    let chars := JS.length text in
    let byWords := ceilDiv (13 * words) 10 in
    let byChars := ceilDiv chars 4 in
    Z.max byWords byChars.

Definition estimateTabTokens (url title : string) : Z :=
  estimateTokens url + estimateTokens title + 10.

(** [T extends { url: string; title: string }] *)
Class Item (T : Type) : Type := { url : T -> string; title : T -> string }.

Section Batching.
Context {T : Type} `{Item T}.

Definition estimateBatchTokens (items : list T) (overheadPerItem : Z) : Z :=
  fold_left
    (fun total item => total + (estimateTabTokens (url item) (title item) + overheadPerItem))
    items 0.

(** The variables of [splitIntoBatches] that the loop updates. *)
Record Acc : Type := mkAcc {
  batches : list (list T);
  currentBatch : list T;
  currentTokens : Z
}.

(** The body of [for (const item of items)]. *)
Definition step (availableTokens : Z) (a : Acc) (item : T) : Acc :=
  let itemTokens := estimateTabTokens (url item) (title item) + 10 in
  let a :=
    if ((currentTokens a + itemTokens >? availableTokens)
        && (Z.of_nat (List.length (currentBatch a)) >? 0))%bool
    then mkAcc (batches a ++ [currentBatch a]) [] 0
    else a in
  mkAcc (batches a) (currentBatch a ++ [item]) (currentTokens a + itemTokens).

Definition splitIntoBatches (items : list T) (maxContextTokens reservedTokens : Z)
  : list (list T) :=
  let availableTokens := maxContextTokens - reservedTokens in
  let a := fold_left (step availableTokens) items (mkAcc [] [] 0) in
  if Z.of_nat (List.length (currentBatch a)) >? 0
  then batches a ++ [currentBatch a]
  else batches a.
End Batching.

(** The default of [reservedTokens] and of [overheadPerItem]. *)
Definition defaultReservedTokens : Z := 2500.
Definition defaultOverheadPerItem : Z := 10.

End TokenEstimator.

(* ================================================================== *)
(** * lib/llm/prompts: the helper functions *)
(* ================================================================== *)

Module Prompts.
Import JS.

Definition truncate (text : string) (maxLength : Z) : string :=
  if JS.length text <=? maxLength then text
  else (sliceTo text (maxLength - 3) ++ "...")%string.

Definition truncateDomain `{Platform} (url : string) : string :=
  match URL_parse url with
  | Some parsed =>
      let domain := stripWwwPrefix (hostname parsed) in
      let path := pathname parsed in
      let truncatedPath :=
        if JS.length path >? 30 then (sliceTo path 27 ++ "...")%string else path in
      (domain ++ truncatedPath)%string
  | None => truncate url 50
  end.

End Prompts.

(* ================================================================== *)
(** * lib/algorithms/similarity.ts *)
(* ================================================================== *)

Module Similarity.
Import JS.
Local Open Scope list_scope.

(** ** Arrays with holes *)

(** [arr[i]]: [undefined] ([None]) at a hole and past the end. *)
Definition arrGet {A : Type} (arr : list (option A)) (i : nat) : option A :=
  match nth_error arr i with
  | Some (Some x) => Some x
  | _ => None
  end.

(** [arr[i] = x]: an assignment past the end extends the array, leaving
    holes in between. *)
Fixpoint arrSet {A : Type} (arr : list (option A)) (i : nat) (x : A)
  : list (option A) :=
  match i, arr with
  | O, [] => [Some x]
  | O, _ :: rest => Some x :: rest
  | S i, [] => None :: arrSet [] i x
  | S i, y :: rest => y :: arrSet rest i x
  end.

(** [matrix[i]?.[j]] *)
Definition cell (matrix : list (option (list (option Z)))) (i j : nat) : option Z :=
  match arrGet matrix i with
  | Some row => arrGet row j
  | None => None
  end.

(** [s.charAt(i)]: the empty string when [i] is out of range. *)
Definition charAt (s : string) (i : nat) : string := String.substring i 1 s.

(** [a ?? 0] *)
Definition orZero (a : option Z) : Z := match a with Some x => x | None => 0 end.

(** The body of the inner loop of [levenshteinDistance]. *)
Definition fillCell (a b : string) (i : nat) (matrix : list (option (list (option Z))))
           (j : nat) : list (option (list (option Z))) :=
  match arrGet matrix i, arrGet matrix (i - 1) with
  | Some row, Some prevRow =>
      let cost := if String.eqb (charAt b (i - 1)) (charAt a (j - 1)) then 0 else 1 in
      arrSet matrix i
        (arrSet row j
           (Z.min (Z.min (orZero (arrGet prevRow j) + 1)
                         (orZero (arrGet row (j - 1)) + 1))
                  (orZero (arrGet prevRow (j - 1)) + cost)))
  | _, _ => matrix
  end.

Definition levenshteinDistance (a b : string) : Z :=
  if JS.length a =? 0 then JS.length b
  else if JS.length b =? 0 then JS.length a
  else
    let matrix :=
      fold_left (fun matrix i => arrSet matrix i [Some (Z.of_nat i)])
                (seq 0 (S (String.length b))) [] in
    let matrix :=
      fold_left
        (fun matrix j =>
           match arrGet matrix 0 with
           | Some row => arrSet matrix 0 (arrSet row j (Z.of_nat j))
           | None => matrix
           end)
        (seq 0 (S (String.length a))) matrix in
    let matrix :=
      fold_left
        (fun matrix i => fold_left (fillCell a b i) (seq 1 (String.length a)) matrix)
        (seq 1 (String.length b)) matrix in
    match cell matrix (String.length b) (String.length a) with
    | Some distance => distance
    | None => Z.max (JS.length a) (JS.length b)
    end.

Definition levenshteinSimilarity (a b : string) : Q :=
  let maxLen := Z.max (JS.length a) (JS.length b) in
  if maxLen =? 0 then 1%Q
  else (1 - inject_Z (levenshteinDistance a b) / inject_Z maxLen)%Q.

(** [a.size] *)
Definition size (s : list string) : Z := Z.of_nat (List.length s).

(** A [Set<string>] is the list of its elements in insertion order. *)
Definition jaccardSimilarity (a b : list string) : Q :=
  if ((size a =? 0) && (size b =? 0))%bool then 1%Q
  else if ((size a =? 0) || (size b =? 0))%bool then 0%Q
  else
    let intersection :=
      fold_left (fun intersection item =>
                   if has b item then intersection + 1 else intersection) a 0 in
    let union := size a + size b - intersection in
    (inject_Z intersection / inject_Z union)%Q.

(** [\w] *)
Definition isWordChar (c : ascii) : bool :=
  let n := nat_of_ascii c in
  ((Nat.leb 48 n && Nat.leb n 57) || (Nat.leb 65 n && Nat.leb n 90)
   || (Nat.leb 97 n && Nat.leb n 122) || Nat.eqb n 95)%bool.

(** [s.replace(/[^\w\s]/g, ' ')] *)
Fixpoint blankPunctuation (s : string) : string :=
  match s with
  | EmptyString => EmptyString
  | String c r =>
      String (if (isWordChar c || isSpace c)%bool then c else " "%char)
             (blankPunctuation r)
  end.

(** [s.split(/\s+/)], with [\s] as in [countWords]: the pieces between the
    maximal runs of white space;
    [piece] is the piece being read, [inRun] tells whether the previous
    character was white space. *)
Fixpoint splitWhiteSpace_aux (s : string) (piece : string) (inRun : bool) : list string :=
  match s with
  | EmptyString => [piece]
  | String c r =>
      if isSpace c
      then (if inRun then splitWhiteSpace_aux r piece true
            else piece :: splitWhiteSpace_aux r EmptyString true)
      else splitWhiteSpace_aux r (piece ++ String c EmptyString)%string false
  end.

Definition splitWhiteSpace (s : string) : list string :=
  splitWhiteSpace_aux s EmptyString false.

Definition tokenize (text : string) : list string :=
  filter (fun token => JS.length token >? 0)
         (splitWhiteSpace (blankPunctuation (toLowerCase text))).

Definition jaccardStringSimilarity (a b : string) : Q :=
  let tokensA := newSet (tokenize a) in
  let tokensB := newSet (tokenize b) in
  jaccardSimilarity tokensA tokensB.

Definition getFrequency (tokens : list string) : Map Z :=
  fold_left (fun freq token => set freq token (orZero (get freq token) + 1)) tokens [].

Section WithPlatform.
Context `{Platform}.

(** The [getDomain] local to [domainOverlap]. *)
Definition domainOf (url : string) : string :=
  match URL_parse url with
  | Some parsed => toLowerCase (stripWwwPrefix (hostname parsed))
  | None => url
  end.

Definition domainOverlap (urls1 urls2 : list string) : Q :=
  let domains1 := newSet (map domainOf urls1) in
  let domains2 := newSet (map domainOf urls2) in
  jaccardSimilarity domains1 domains2.
End WithPlatform.

Record Match : Type := mkMatch { match_ : string; similarity : Q }.

Definition findBestMatch (query : string) (candidates : list string) (minSimilarity : Q)
  : option Match :=
  let '(bestMatch, bestSimilarity) :=
    fold_left
      (fun '(bestMatch, bestSimilarity) candidate =>
         let similarity := jaccardStringSimilarity query candidate in
         if negb (Qle_bool similarity bestSimilarity)
         then (Some candidate, similarity)
         else (bestMatch, bestSimilarity))
      candidates (None, minSimilarity) in
  match bestMatch with
  | None => None
  | Some bestMatch => Some (mkMatch bestMatch bestSimilarity)
  end.

Definition defaultMinSimilarity : Q := 5 # 10.

End Similarity.

(* ================================================================== *)
(** * lib/utils/retry.ts *)
(* ================================================================== *)

Module Retry.
Local Open Scope list_scope.

Section Retry.
(** [W]: the state of the world the operation acts on; [E]: the values it
    throws; [T]: the values it resolves to. *)
Variables W E T : Type.

Record RetryOptions : Type := mkOptions {
  maxRetries : option Z;
  initialDelay : option Z;
  maxDelay : option Z;
  backoffMultiplier : option Z;
  shouldRetry : option (E -> bool);
  onRetry : option (E -> Z -> W -> W)
}.

Definition noOptions : RetryOptions := mkOptions None None None None None None.

Definition orDefault (a : option Z) (d : Z) : Z :=
  match a with Some x => x | None => d end.

(** [{ ...DEFAULT_OPTIONS, ...options }] *)
Definition optMaxRetries (o : RetryOptions) : Z := orDefault (maxRetries o) 3.
Definition optInitialDelay (o : RetryOptions) : Z := orDefault (initialDelay o) 1000.
Definition optMaxDelay (o : RetryOptions) : Z := orDefault (maxDelay o) 8000.
Definition optBackoffMultiplier (o : RetryOptions) : Z :=
  orDefault (backoffMultiplier o) 2.

(** What a run of [retry] does, in order: an invocation of the operation
    with what it threw or returned, a call of [onRetry], a sleep. *)
Inductive Event : Type :=
| Invoked : E + T -> Event
| Notified : E -> Z -> Event
| Slept : Z -> Event.

(** A settled promise; [lastError] is [undefined] ([None]) before the first
    failure. *)
Inductive Outcome : Type :=
| Resolved : T -> Outcome
| Rejected : option E -> Outcome.

Record Run : Type := mkRun {
  outcome : Outcome;
  world : W;
  events : list Event
}.

Variable fn : W -> (E + T) * W.
Variable opts : RetryOptions.

(** The loop [for (let attempt = 0; attempt <= opts.maxRetries; attempt++)].
    [left] is the number of iterations the loop condition still admits,
    [maxRetries - attempt + 1]; at [0] control reaches [throw lastError]. *)
Fixpoint loop (left : nat) (attempt : Z) (lastError : option E)
         (w : W) (log : list Event) : Run :=
  match left with
  | O => mkRun (Rejected lastError) w log
  | S left' =>
      let log := log ++ [Invoked (fst (fn w))] in
      match fn w with
      | (inr v, w) => mkRun (Resolved v) w log
      | (inl error, w) =>
          let lastError := Some error in
          if match shouldRetry opts with
             | Some p => negb (p error)
             | None => false
             end
          then mkRun (Rejected (Some error)) w log
          else if attempt >=? optMaxRetries opts
          then mkRun (Rejected lastError) w log
          else
            let delay :=
              Z.min (optInitialDelay opts * optBackoffMultiplier opts ^ attempt)
                    (optMaxDelay opts) in
            let '(w, log) :=
              match onRetry opts with
              | Some notify =>
                  (notify error (attempt + 1) w, log ++ [Notified error (attempt + 1)])
              | None => (w, log)
              end in
            loop left' (attempt + 1) lastError w (log ++ [Slept delay])
      end
  end.

Definition retry (w : W) : Run :=
  loop (Z.to_nat (optMaxRetries opts + 1)) 0 None w [].

Definition isInvoked (e : Event) : bool :=
  match e with Invoked _ => true | _ => false end.

(** How many times the operation was invoked. *)
Definition invocations (r : Run) : nat :=
  List.length (filter isInvoked (events r)).
End Retry.

Arguments mkOptions {W E}.
Arguments noOptions {W E}.
Arguments Resolved {E T}.
Arguments Rejected {E T}.
Arguments retry {W E T}.
Arguments invocations {W E T}.
Arguments outcome {W E T}.
Arguments world {W E T}.
Arguments events {W E T}.

End Retry.

(* ================================================================== *)
(** * A concrete platform for plain addresses *)
(* ================================================================== *)

(** [Plain.parse] reads addresses of the shape
    [scheme://host/path?query#fragment] whose host is made of non-empty
    dot-separated labels of letters and digits, the last one starting with
    a letter, whose path has no [.] or [..] segment and whose path, query and
    fragment use unreserved characters only; outside [http] and [https] the
    host is in lower case or empty and the path is not empty.  On these the standard URL
    parser succeeds and needs no percent-coding, number parsing or path
    resolution, and returns the record computed here.  Any other input is
    answered [None].  [Plain.compare] orders strings by code unit, as
    [localeCompare] orders strings of lower-case letters. *)
Module Plain.
Import JS.
Local Open Scope list_scope.

Definition between (lo hi : nat) (c : ascii) : bool :=
  let n := nat_of_ascii c in (Nat.leb lo n && Nat.leb n hi)%bool.

Definition isAlpha (c : ascii) : bool := (between 65 90 c || between 97 122 c)%bool.
Definition isDigit (c : ascii) : bool := between 48 57 c.
Definition isOneOf (l : list ascii) (c : ascii) : bool := existsb (Ascii.eqb c) l.

Definition isSchemeChar (c : ascii) : bool :=
  (isAlpha c || isDigit c || isOneOf ["+"; "-"; "."]%char c)%bool.
Definition isHostChar (c : ascii) : bool :=
  (isAlpha c || isDigit c || isOneOf ["."]%char c)%bool.
Definition isUnreserved (c : ascii) : bool :=
  (isAlpha c || isDigit c || isOneOf ["-"; "."; "_"; "~"]%char c)%bool.
Definition isPathChar (c : ascii) : bool := (isUnreserved c || isOneOf ["/"]%char c)%bool.
Definition isQueryChar (c : ascii) : bool :=
  (isUnreserved c || isOneOf ["="; "&"]%char c)%bool.

Fixpoint all (p : ascii -> bool) (s : string) : bool :=
  match s with
  | EmptyString => true
  | String c r => (p c && all p r)%bool
  end.

(** [breakAt p s] cuts [s] in front of its first character satisfying [p]. *)
Fixpoint breakAt (p : ascii -> bool) (s : string) : string * string :=
  match s with
  | EmptyString => (EmptyString, EmptyString)
  | String c r =>
      if p c then (EmptyString, s)
      else let (a, b) := breakAt p r in (String c a, b)
  end.

Definition startsWithAlpha (s : string) : bool :=
  match s with String c _ => isAlpha c | EmptyString => false end.

Definition validHost (host : string) : bool :=
  let labels := split "." host in
  (all isHostChar host && forallb truthy labels && startsWithAlpha (last labels ""))%bool.

Definition isDotSegment (s : string) : bool := (String.eqb s "." || String.eqb s "..")%bool.

Definition validPath (path : string) : bool :=
  (all isPathChar path && negb (existsb isDotSegment (split "/" path)))%bool.

(** One [name=value] piece of a query. *)
Definition parsePair (piece : string) : string * string :=
  let (name, rest) := breakAt (Ascii.eqb "=") piece in
  (name, match rest with String _ value => value | EmptyString => EmptyString end).

Definition parseQuery (query : string) : Params :=
  map parsePair (filterBoolean (split "&" query)).

Definition parse (input : string) : option URL :=
  let (scheme, rest) := breakAt (fun c => negb (isSchemeChar c)) input in
  match rest with
  | String ":" (String "/" (String "/" rest)) =>
      let (host, rest) := breakAt (isOneOf ["/"; "?"; "#"]%char) rest in
      let (path, rest) := breakAt (isOneOf ["?"; "#"]%char) rest in
      let (query, fragment) :=
        match rest with
        | String "?" q => breakAt (isOneOf ["#"]%char) q
        | _ => (EmptyString, rest)
        end in
      let fragment := match fragment with String _ f => f | EmptyString => EmptyString end in
      let protocol := (toLowerCase scheme ++ ":")%string in
      let http := UrlNormalizer.includes ["http:"; "https:"] protocol in
      if (startsWithAlpha scheme
          && (if http then validHost host
              else ((negb (truthy host) || validHost host)
                    && String.eqb (toLowerCase host) host && truthy path))
          && validPath path && all isQueryChar query && all isUnreserved fragment)%bool
      then Some (mkURL protocol
                       (toLowerCase host)
                       (if truthy path then path else "/")
                       (if truthy query then String "?" query else "")
                       (parseQuery query)
                       (if truthy fragment then String "#" fragment else ""))
      else None
  | _ => None
  end.

(** Comparison by code unit, as [-1], [0] or [1]. *)
Definition compare (a b : string) : Z :=
  match String.compare a b with
  | Lt => -1
  | Eq => 0
  | Gt => 1
  end.

Definition platform : Platform := Build_Platform parse compare.

End Plain.

(* ================================================================== *)
(** * Vocabulary of the properties *)
(* ================================================================== *)

(** [a] does not come after [b] under the comparator [cmp]. *)
Definition cmpLe {A : Type} (cmp : A -> A -> Z) (a b : A) : Prop := cmp a b <= 0.

(** A list is in ascending order of [key] when every element's key is at
    most the key of every later element. *)
Definition ascendingBy {A : Type} (key : A -> Z) (l : list A) : Prop :=
  StronglySorted (fun a b => key a <= key b) l.

(** Every array stored in the map satisfies [P] under its key. *)
Definition keyed {A : Type} (P : string -> A -> Prop) (m : JS.Map (list A)) : Prop :=
  Forall (fun e => Forall (P (fst e)) (snd e)) m.

(** The removal candidates as the specification words them: for every group,
    the ids of the members after the first that are not pinned. *)
Definition removalCandidates (groups : list DuplicateGroup.t) : list Z :=
  flat_map
    (fun g => map TabInfo.id
                  (filter (fun t => negb (TabInfo.pinned t)) (tl (DuplicateGroup.tabs g))))
    groups.

(** All members of all groups, in order. *)
Definition allMembers (groups : list DuplicateGroup.t) : list TabInfo.t :=
  flat_map DuplicateGroup.tabs groups.

(** The number of index-aligned identical segments of two paths, as the
    specification words it. *)
Definition alignedMatches (path1 path2 : list string) : Z :=
  Z.of_nat (List.length
              (filter (fun ab => String.eqb (fst ab) (snd ab)) (combine path1 path2))).

(** The path-similarity predicate as the specification words it, for two
    parsed addresses. *)
Definition pathSimilar (parsed1 parsed2 : JS.URL) (threshold : Q) : Prop :=
  let path1 := Duplicates.segments (JS.pathname parsed1) in
  let path2 := Duplicates.segments (JS.pathname parsed2) in
  JS.hostname parsed1 = JS.hostname parsed2
  /\ Z.abs (Duplicates.len path1 - Duplicates.len path2) <= 1
  /\ ((Duplicates.len path1 = 0 /\ Duplicates.len path2 = 0)
      \/ (threshold
           <= inject_Z (alignedMatches path1 path2)
              / inject_Z (Z.max (Duplicates.len path1) (Duplicates.len path2)))%Q).

(** Every member of a cluster after its first is similar to the first, the
    cluster's representative. *)
Definition ledByFirst (similar : string -> string -> bool)
           (cluster : list TabInfo.t) : Prop :=
  match cluster with
  | [] => True
  | representative :: rest =>
      Forall (fun t => similar (TabInfo.url t) (TabInfo.url representative) = true) rest
  end.

(** [schemeColon s]: a [:] occurs in [s] with none of [/ ? # [] in front of
    it.  The standard parser, given no base, accepts only inputs that start
    with a scheme and its colon, so every input it accepts satisfies this. *)
Fixpoint schemeColon (s : string) : bool :=
  match s with
  | EmptyString => false
  | String c r =>
      if Ascii.eqb c ":" then true
      else if existsb (Ascii.eqb c) ["/"; "?"; "#"; "["]%char then false
      else schemeColon r
  end.

Fixpoint noColon (s : string) : bool :=
  match s with
  | EmptyString => true
  | String c r => (negb (Ascii.eqb c ":") && noColon r)%bool
  end.

(** The hosts of http(s) addresses: a bracketed IPv6 literal, or a domain
    or IPv4 address, in which no colon occurs. *)
Definition hostShape (h : string) : bool :=
  (JS.startsWith h "[" || noColon h)%bool.

(** What the properties of the normalizer assume of [new URL]. *)
Record StandardParser (P : JS.Platform) : Prop := {
  scheme_required :
    forall input parsed, JS.URL_parse input = Some parsed -> schemeColon input = true;
  http_shape :
    forall input parsed,
      JS.URL_parse input = Some parsed -> UrlNormalizer.isHttp parsed = true ->
      hostShape (JS.hostname parsed) = true
      /\ JS.startsWith (JS.pathname parsed) "/" = true
}.

(** The value of the last pair named [k]. *)
Definition lastValue (l : JS.Params) (k : string) : option string :=
  JS.get (rev l) k.

(** The test that makes the loop of [normalizeUrl] skip a pair. *)
Definition isTracking (opts : UrlNormalizer.NormalizeOptions) (kv : string * string)
  : bool :=
  (UrlNormalizer.on (UrlNormalizer.stripTracking opts)
   && UrlNormalizer.includes UrlNormalizer.TRACKING_PARAMS (JS.toLowerCase (fst kv)))%bool.

(** The pairs of the query that are not skipped, in the order of the query. *)
Definition survivors (opts : UrlNormalizer.NormalizeOptions) (entries : JS.Params)
  : JS.Params :=
  filter (fun kv => negb (isTracking opts kv)) entries.

(** [localeCompare] is a consistent comparator: any two strings are
    comparable and the order is transitive. *)
Record ConsistentCompare (P : JS.Platform) : Prop := {
  compare_total : forall a b, JS.localeCompare a b <= 0 \/ JS.localeCompare b a <= 0;
  compare_trans :
    forall a b c,
      JS.localeCompare a b <= 0 -> JS.localeCompare b c <= 0 -> JS.localeCompare a c <= 0
}.

(** Tabs are items of the batcher: they have a [url] and a [title]. *)
Definition tabItem : TokenEstimator.Item TabInfo.t :=
  TokenEstimator.Build_Item TabInfo.t TabInfo.url TabInfo.title.

(** A tab with the given id, address and pinned flag. *)
Definition tab (id : Z) (url : string) (pinned : bool) : TabInfo.t :=
  TabInfo.mk id 1 0 url "" None pinned (-1) false false.

(** A bookmark with the given id, address and creation time. *)
Definition bookmark (id url : string) (dateAdded : Z) : BookmarkNode.t :=
  BookmarkNode.mk id None None "" (Some url) (Some dateAdded) None.

(** Inputs on which the functions are run below. *)
Definition sampleItems : list TabInfo.t :=
  [tab 1 "https://example.com/a" false;
   tab 2 "https://example.com/b" false;
   tab 3 "https://example.com/c" false].

Definition sampleGroup : DuplicateGroup.t :=
  DuplicateGroup.mk "example.com/a"
    [tab 3 "https://example.com/a" false;
     tab 5 "https://example.com/a" true;
     tab 7 "https://example.com/a" false].

(** An operation on a counter: it throws the counter and increments it. *)
Definition throwCounter (w : Z) : (Z + unit) * Z := (inl w, w + 1).

(** Options whose [shouldRetry] rejects every error. *)
Definition vetoAll : Retry.RetryOptions Z Z :=
  Retry.mkOptions None None None None (Some (fun _ : Z => false)) None.


(** The elements of [l] that a grouping loop files under the key [k]: those
    it does not skip and whose key is [k], in the order of [l]. *)
Definition filedUnder {A : Type} (skip : A -> bool) (key : A -> string)
           (l : list A) (k : string) : list A :=
  filter (fun x => (negb (skip x) && String.eqb (key x) k)%bool) l.

(** The tabs that [findDuplicateTabs] files under the normalized address [k]. *)
Definition tabsAt `{JS.Platform} (tabs : list TabInfo.t) (k : string) : list TabInfo.t :=
  filedUnder (fun t => UrlNormalizer.isInternalUrl (TabInfo.url t))
             (fun t => UrlNormalizer.normalizeUrl (TabInfo.url t) UrlNormalizer.noOptions)
             tabs k.

(** A bookmark that the bookmark loops skip: no address, or an empty one. *)
Definition noUrl (b : BookmarkNode.t) : bool :=
  match BookmarkNode.url b with
  | None => true
  | Some url => negb (JS.truthy url)
  end.

(** The address of a bookmark that has one. *)
Definition urlOf (b : BookmarkNode.t) : string :=
  match BookmarkNode.url b with Some url => url | None => "" end.

(** The bookmarks that [findDuplicateBookmarks] files under [k]. *)
Definition bookmarksAt `{JS.Platform} (bookmarks : list BookmarkNode.t) (k : string)
  : list BookmarkNode.t :=
  filedUnder noUrl (fun b => UrlNormalizer.normalizeUrl (urlOf b) UrlNormalizer.noOptions)
             bookmarks k.

(** Three tabs, two of them on the same page. *)
Definition sampleTabs : list TabInfo.t :=
  [tab 7 "https://www.example.com/a/" false;
   tab 3 "http://example.com/a?utm_source=x" true;
   tab 5 "https://other.org/" false].

(** [l] is part of [l'] as a multiset: every element occurs in [l'] at least
    as often as in [l]. *)
Definition partOf {A : Type} (l l' : list A) : Prop :=
  exists rest, Permutation (l ++ rest) l'.

(** Two bookmarks of one page, the second one older. *)
Definition sampleBookmarks : list BookmarkNode.t :=
  [bookmark "10" "https://example.com/a" 200; bookmark "11" "https://example.com/a/" 100].

(** [sep] does not occur in [s]: splitting [s] at [sep] gives [s] alone. *)
Definition noSep (sep : ascii) (s : string) : Prop := JS.split sep s = [s].

(** Every batch after the first starts with an item that did not fit into
    the batch before it: the cost of that batch plus the cost the loop charges
    for the item exceeds the budget. *)
Fixpoint closedWhenFull {T : Type} `{TokenEstimator.Item T}
         (budget : Z) (batches : list (list T)) : Prop :=
  match batches with
  | batch :: (next :: _) as rest =>
      match next with
      | item :: _ =>
          budget < TokenEstimator.estimateBatchTokens batch 10
                   + (TokenEstimator.estimateTabTokens
                        (TokenEstimator.url item) (TokenEstimator.title item) + 10)
      | [] => False
      end
      /\ closedWhenFull budget rest
  | _ => True
  end.

(** The delays of the sleeps of a run, in order. *)
Definition sleeps {E T : Type} (l : list (Retry.Event E T)) : list Z :=
  flat_map (fun e => match e with Retry.Slept _ _ d => [d] | _ => [] end) l.

(** The attempt numbers [onRetry] was called with, in order. *)
Definition notices {E T : Type} (l : list (Retry.Event E T)) : list Z :=
  flat_map (fun e => match e with Retry.Notified _ _ _ n => [n] | _ => [] end) l.

(** The delay after the failed attempt number [attempt] (counted from 0). *)
Definition backoff {W E : Type} (opts : Retry.RetryOptions W E) (attempt : Z) : Z :=
  Z.min (Retry.optInitialDelay W E opts * Retry.optBackoffMultiplier W E opts ^ attempt)
        (Retry.optMaxDelay W E opts).

(** No invocation recorded in [l] returned a value. *)
Definition noSuccess {E T : Type} (l : list (Retry.Event E T)) : Prop :=
  forall v, ~ In (Retry.Invoked E T (inr v)) l.

(** The children of a node; a node without the field has none. *)
Definition childrenOf (node : BookmarkNode.t) : list BookmarkNode.t :=
  match BookmarkNode.children node with Some children => children | None => [] end.

(** A folder holding one bookmark and a subfolder with a copy of it and a
    bookmark with an empty address. *)
Definition sampleTree : list BookmarkNode.t :=
  [BookmarkNode.mk "1" None None "Bar" None None
     (Some [BookmarkNode.mk "2" (Some "1") None "a" (Some "https://example.com/a") (Some 5) None;
            BookmarkNode.mk "3" (Some "1") None "Sub" None None
              (Some [BookmarkNode.mk "4" (Some "3") None "a"
                       (Some "http://www.example.com/a/") (Some 2) None;
                     BookmarkNode.mk "5" (Some "3") None "e" (Some "") None None])])].

(** [Edit n x y]: [y] is obtained from [x] by a left-to-right script of [n]
    single-character edits: substitutions, deletions and insertions. *)
Inductive Edit : nat -> list ascii -> list ascii -> Prop :=
| Edit_done : Edit 0 [] []
| Edit_keep (c : ascii) (n : nat) (x y : list ascii) :
    Edit n x y -> Edit n (c :: x) (c :: y)
| Edit_substitute (c d : ascii) (n : nat) (x y : list ascii) :
    Edit n x y -> Edit (S n) (c :: x) (d :: y)
| Edit_delete (c : ascii) (n : nat) (x y : list ascii) :
    Edit n x y -> Edit (S n) (c :: x) y
| Edit_insert (d : ascii) (n : nat) (x y : list ascii) :
    Edit n x y -> Edit (S n) x (d :: y).

(** The recurrence of the edit distance, on lists of characters. *)
Fixpoint lev (x y : list ascii) {struct x} : nat :=
  match x with
  | [] => List.length y
  | c :: x' =>
      (fix against (y : list ascii) : nat :=
         match y with
         | [] => S (List.length x')
         | d :: y' =>
             Nat.min (Nat.min (lev x' y + 1) (against y' + 1))
                     (lev x' y' + (if Ascii.eqb c d then 0 else 1))
         end) y
  end.

(** The characters a token is made of: digits, small letters, underscore. *)
Definition isTokenChar (c : ascii) : bool :=
  let n := nat_of_ascii c in
  ((Nat.leb 48 n && Nat.leb n 57) || (Nat.leb 97 n && Nat.leb n 122) || Nat.eqb n 95)%bool.

(** The words of a text, read from left to right; [piece] is the word being
    read. *)
Fixpoint wordsFrom (s : string) (piece : string) : list string :=
  match s with
  | EmptyString => if JS.truthy piece then [piece] else []
  | String c r =>
      if Similarity.isWordChar (JS.lower_ascii c)
      then wordsFrom r (piece ++ String (JS.lower_ascii c) EmptyString)
      else (if JS.truthy piece then [piece] else []) ++ wordsFrom r EmptyString
  end.

(* ================================================================== *)
(** * Properties *)
(* ================================================================== *)

(** ** Generic facts: folds, the stable sort, the insertion-ordered map *)

Section Generic.
Local Open Scope list_scope.
Context {A : Type}.

Lemma fold_left_inv {B : Type} (I : B -> Prop) (f : B -> A -> B) (l : list A) :
  (forall b a, I b -> I (f b a)) -> forall b, I b -> I (fold_left f l b).
Proof.
  intros step. induction l as [|a l IH]; intros b Hb; simpl; auto.
Qed.

Variable cmp : A -> A -> Z.

Lemma insert_perm (x : A) (l : list A) : Permutation (JS.insert cmp x l) (x :: l).
Proof.
  induction l as [|y r IH]; simpl; [reflexivity|].
  destruct (cmp x y <=? 0); [reflexivity|].
  rewrite IH. apply perm_swap.
Qed.

Lemma sort_perm (l : list A) : Permutation (JS.sort cmp l) l.
Proof.
  induction l as [|x r IH]; simpl; [reflexivity|].
  rewrite insert_perm. now constructor.
Qed.

Lemma sort_length (l : list A) : List.length (JS.sort cmp l) = List.length l.
Proof. apply Permutation_length, sort_perm. Qed.

Lemma sort_Forall (P : A -> Prop) (l : list A) : Forall P l -> Forall P (JS.sort cmp l).
Proof.
  intros HP. eapply Permutation_Forall; [|exact HP].
  symmetry. apply sort_perm.
Qed.

Hypothesis cmp_total : forall a b, cmp a b <= 0 \/ cmp b a <= 0.

Lemma insert_sorted (x : A) (l : list A) :
  Sorted (cmpLe cmp) l -> Sorted (cmpLe cmp) (JS.insert cmp x l).
Proof.
  induction l as [|y r IH]; simpl; intros Hs.
  - repeat constructor.
  - destruct (Z.leb_spec (cmp x y) 0) as [Hxy|Hxy].
    + constructor; [exact Hs|]. constructor. exact Hxy.
    + apply Sorted_inv in Hs. destruct Hs as [Hr Hhd].
      constructor; [apply IH, Hr|].
      assert (Hyx : cmpLe cmp y x) by (destruct (cmp_total y x); [assumption|lia]).
      destruct r as [|z r']; simpl.
      * constructor; exact Hyx.
      * destruct (cmp x z <=? 0); constructor; [exact Hyx|].
        now inversion Hhd.
Qed.

Lemma sort_sorted (l : list A) : Sorted (cmpLe cmp) (JS.sort cmp l).
Proof.
  induction l as [|x r IH]; simpl; [constructor|].
  now apply insert_sorted.
Qed.
End Generic.

Lemma Sorted_weaken {A : Type} (R R' : A -> A -> Prop) (l : list A) :
  (forall a b, R a b -> R' a b) -> Sorted R l -> Sorted R' l.
Proof.
  intros HR Hs. induction Hs as [|a l Hs IH Hhd]; constructor; [exact IH|].
  destruct Hhd; constructor; auto.
Qed.

Lemma sort_by_key_ascending {A : Type} (key : A -> Z) (l : list A) :
  ascendingBy key (JS.sort (fun a b => key a - key b) l).
Proof.
  apply Sorted_StronglySorted.
  - intros a b c Hab Hbc. lia.
  - apply Sorted_weaken with (R := cmpLe (fun a b => key a - key b)).
    + unfold cmpLe. intros a b Hab. lia.
    + apply sort_sorted. intros a b. lia.
Qed.

Section MapFacts.
Local Open Scope list_scope.
Context {A : Type}.

Lemma get_In (m : JS.Map (list A)) (k : string) (v : list A) :
  JS.get m k = Some v -> In (k, v) m.
Proof.
  induction m as [|[k' v'] r IH]; simpl; [discriminate|].
  destruct (String.eqb_spec k' k) as [->|_].
  - intros [= ->]. now left.
  - intros Hg. right. auto.
Qed.

Lemma set_keyed (P : string -> A -> Prop) (m : JS.Map (list A)) k v :
  keyed P m -> Forall (P k) v -> keyed P (JS.set m k v).
Proof.
  unfold keyed. induction m as [|[k' v'] r IH]; simpl; intros Hm Hv.
  - repeat constructor. exact Hv.
  - inversion Hm; subst. destruct (String.eqb_spec k' k) as [->|_].
    + constructor; assumption.
    + constructor; [assumption|]. now apply IH.
Qed.

Lemma pushTo_keyed (P : string -> A -> Prop) (m : JS.Map (list A)) k x :
  keyed P m -> P k x -> keyed P (Duplicates.pushTo m k x).
Proof.
  intros Hm Hx. unfold Duplicates.pushTo.
  destruct (JS.get m k) as [existing|] eqn:Hg.
  - apply set_keyed; [exact Hm|].
    apply get_In in Hg. unfold keyed in Hm. rewrite Forall_forall in Hm.
    specialize (Hm _ Hg). simpl in Hm.
    apply Forall_app. split; [exact Hm|]. now constructor.
  - apply set_keyed; [exact Hm|]. now constructor.
Qed.
End MapFacts.

(** ** Exact duplicates *)

Section ExactDuplicates.
Import JS UrlNormalizer Duplicates.
Local Open Scope list_scope.
Context `{Platform}.

Lemma tab_groups_keyed (tabs : list TabInfo.t) :
  keyed (fun k t => normalizeUrl (TabInfo.url t) noOptions = k)
    (fold_left
       (fun groups tab =>
          if isInternalUrl (TabInfo.url tab) then groups
          else pushTo groups (normalizeUrl (TabInfo.url tab) noOptions) tab)
       tabs []).
Proof.
  apply fold_left_inv; [|constructor].
  intros groups tab Hg. destruct (isInternalUrl _); [exact Hg|].
  now apply pushTo_keyed.
Qed.

Lemma bookmark_groups_keyed (bookmarks : list BookmarkNode.t) :
  keyed (fun k b => exists u, BookmarkNode.url b = Some u
                              /\ normalizeUrl u noOptions = k)
    (fold_left
       (fun groups bookmark =>
          match BookmarkNode.url bookmark with
          | None => groups
          | Some url =>
              if negb (truthy url) then groups
              else pushTo groups (normalizeUrl url noOptions) bookmark
          end)
       bookmarks []).
Proof.
  apply fold_left_inv; [|constructor].
  intros groups b Hg. destruct (BookmarkNode.url b) as [u|] eqn:Hu; [|exact Hg].
  destruct (negb (truthy u)); [exact Hg|].
  apply pushTo_keyed; [exact Hg|]. now exists u.
Qed.

(** C1. Every group returned by [findDuplicateTabs] has at least two
    members, lists them in ascending order of [id], and each member's URL
    normalizes (default options) to the group's [normalizedUrl]; every group
    returned by [findDuplicateBookmarks] has at least two members, lists
    them in ascending order of [dateAdded] (a missing date counting as 0, as
    the comparator reads it), and each member's URL normalizes to the
    group's [normalizedUrl]. *)
Theorem exact_duplicate_groups_invariant
        (tabs : list TabInfo.t) (bookmarks : list BookmarkNode.t) :
  Forall (fun g =>
            (2 <= List.length (DuplicateGroup.tabs g))%nat
            /\ ascendingBy TabInfo.id (DuplicateGroup.tabs g)
            /\ Forall (fun t => normalizeUrl (TabInfo.url t) noOptions
                                = DuplicateGroup.normalizedUrl g)
                      (DuplicateGroup.tabs g))
         (findDuplicateTabs tabs)
  /\ Forall (fun g =>
               (2 <= List.length (BookmarkDuplicateGroup.bookmarks g))%nat
               /\ ascendingBy (fun b => orZero (BookmarkNode.dateAdded b))
                              (BookmarkDuplicateGroup.bookmarks g)
               /\ Forall (fun b => exists u, BookmarkNode.url b = Some u
                                             /\ normalizeUrl u noOptions
                                                = BookmarkDuplicateGroup.normalizedUrl g)
                         (BookmarkDuplicateGroup.bookmarks g))
            (findDuplicateBookmarks bookmarks).
Proof.
  split.
  - unfold findDuplicateTabs. pose proof (tab_groups_keyed tabs) as Hk.
    unfold keyed in Hk. rewrite Forall_forall in Hk.
    apply Forall_forall. intros g Hg.
    apply in_map_iff in Hg. destruct Hg as [[k l] [<- Hin]].
    apply filter_In in Hin. destruct Hin as [Hin Hlen]. simpl.
    repeat split.
    + rewrite sort_length. unfold len in Hlen. lia.
    + apply sort_by_key_ascending.
    + apply sort_Forall. exact (Hk _ Hin).
  - unfold findDuplicateBookmarks. pose proof (bookmark_groups_keyed bookmarks) as Hk.
    unfold keyed in Hk. rewrite Forall_forall in Hk.
    apply Forall_forall. intros g Hg.
    apply in_map_iff in Hg. destruct Hg as [[k l] [<- Hin]].
    apply filter_In in Hin. destruct Hin as [Hin Hlen]. simpl.
    repeat split.
    + rewrite sort_length. unfold len in Hlen. lia.
    + apply (sort_by_key_ascending (fun b => orZero (BookmarkNode.dateAdded b))).
    + apply sort_Forall. exact (Hk _ Hin).
Qed.
End ExactDuplicates.

(** ** Removal candidates *)

Section RemovalCandidates.
Import Duplicates.
Local Open Scope list_scope.

(** The index loop over [tabs[i]], [i = k .. length - 1], visits the
    elements after the first [k]. *)
Lemma index_loop_suffix (pre suf : list TabInfo.t) (acc : list Z) :
  fold_left
    (fun toRemove i =>
       match nth_error (pre ++ suf) i with
       | Some tab =>
           if negb (TabInfo.pinned tab) then toRemove ++ [TabInfo.id tab]
           else toRemove
       | None => toRemove
       end)
    (seq (List.length pre) (List.length suf)) acc
  = acc ++ map TabInfo.id (filter (fun t => negb (TabInfo.pinned t)) suf).
Proof.
  revert pre acc. induction suf as [|x suf IH]; intros pre acc; simpl.
  - now rewrite app_nil_r.
  - rewrite nth_error_app2 by lia. rewrite Nat.sub_diag. simpl.
    replace (pre ++ x :: suf) with ((pre ++ [x]) ++ suf)
      by now rewrite <- app_assoc.
    replace (S (List.length pre)) with (List.length (pre ++ [x]))
      by (rewrite length_app; simpl; lia).
    rewrite IH. destruct (negb (TabInfo.pinned x)); simpl.
    + now rewrite <- app_assoc.
    + reflexivity.
Qed.

Lemma group_loop (tabs : list TabInfo.t) (acc : list Z) :
  fold_left
    (fun toRemove i =>
       match nth_error tabs i with
       | Some tab =>
           if negb (TabInfo.pinned tab) then toRemove ++ [TabInfo.id tab]
           else toRemove
       | None => toRemove
       end)
    (seq 1 (List.length tabs - 1)) acc
  = acc ++ map TabInfo.id (filter (fun t => negb (TabInfo.pinned t)) (tl tabs)).
Proof.
  destruct tabs as [|x suf]; simpl.
  - now rewrite app_nil_r.
  - rewrite Nat.sub_0_r. exact (index_loop_suffix [x] suf acc).
Qed.

Lemma groups_loop (groups : list DuplicateGroup.t) (acc : list Z) :
  fold_left
    (fun toRemove group =>
       fold_left
         (fun toRemove i =>
            match nth_error (DuplicateGroup.tabs group) i with
            | Some tab =>
                if negb (TabInfo.pinned tab) then toRemove ++ [TabInfo.id tab]
                else toRemove
            | None => toRemove
            end)
         (seq 1 (List.length (DuplicateGroup.tabs group) - 1)) toRemove)
    groups acc
  = acc ++ removalCandidates groups.
Proof.
  unfold removalCandidates. revert acc.
  induction groups as [|g groups IH]; intros acc; cbn [fold_left flat_map].
  - now rewrite app_nil_r.
  - rewrite group_loop, IH. now rewrite <- app_assoc.
Qed.

Lemma getDuplicateTabsToRemove_eq (groups : list DuplicateGroup.t) :
  getDuplicateTabsToRemove groups = removalCandidates groups.
Proof. exact (groups_loop groups []). Qed.

Lemma NoDup_app_disjoint {A : Type} (l1 l2 : list A) (a : A) :
  NoDup (l1 ++ l2) -> In a l1 -> In a l2 -> False.
Proof.
  induction l1 as [|x l1 IH]; simpl; intros Hnd H1 H2; [assumption|].
  inversion Hnd as [|? ? Hx Hnd']; subst.
  destruct H1 as [->|H1].
  - apply Hx, in_or_app. now right.
  - now apply IH.
Qed.

Lemma NoDup_map_eq {A B : Type} (f : A -> B) (l : list A) (x y : A) :
  NoDup (map f l) -> In x l -> In y l -> f x = f y -> x = y.
Proof.
  induction l as [|z l IH]; simpl; intros Hnd Hx Hy Hf; [contradiction|].
  inversion Hnd as [|? ? Hz Hnd']; subst.
  destruct Hx as [->|Hx], Hy as [->|Hy]; auto.
  - exfalso. apply Hz. rewrite Hf. now apply in_map.
  - exfalso. apply Hz. rewrite <- Hf. now apply in_map.
Qed.

Lemma in_tl {A : Type} (x : A) (l : list A) : In x (tl l) -> In x l.
Proof. destruct l; simpl; auto. Qed.

Lemma first_member_not_later (groups : list DuplicateGroup.t) :
  NoDup (map TabInfo.id (allMembers groups)) ->
  forall g t, In g groups -> hd_error (DuplicateGroup.tabs g) = Some t ->
  ~ In (TabInfo.id t)
       (map TabInfo.id (flat_map (fun g => tl (DuplicateGroup.tabs g)) groups)).
Proof.
  unfold allMembers.
  induction groups as [|g0 gs IH]; simpl; intros Hnd g t Hg Hhd Hin; [assumption|].
  rewrite map_app in Hnd, Hin. apply in_app_or in Hin.
  destruct Hg as [->|Hg].
  - destruct (DuplicateGroup.tabs g) as [|t0 rest]; [discriminate|].
    injection Hhd as ->. simpl in *.
    inversion Hnd as [|? ? Ht _]; subst. apply Ht, in_or_app.
    destruct Hin as [Hin|Hin]; [now left|right].
    apply in_map_iff in Hin. destruct Hin as [t' [Hid Hin]].
    rewrite <- Hid. apply in_map.
    apply in_flat_map in Hin. destruct Hin as [g' [Hg' Hin]].
    apply in_flat_map. exists g'. split; [assumption|]. now apply in_tl.
  - destruct Hin as [Hin|Hin].
    + apply (NoDup_app_disjoint _ _ (TabInfo.id t) Hnd).
      * apply in_map_iff in Hin. destruct Hin as [t' [Hid Hin]].
        rewrite <- Hid. apply in_map. now apply in_tl.
      * apply in_map, in_flat_map. exists g. split; [assumption|].
        destruct (DuplicateGroup.tabs g); [discriminate|].
        injection Hhd as ->. now left.
    + apply (IH (NoDup_app_remove_l _ _ Hnd) g t); assumption.
Qed.

(** C3. [getDuplicateTabsToRemove] returns exactly the ids of each group's
    members after the first that are not pinned.  Hence, the tabs of the
    groups having pairwise distinct ids, the id of the first member of a
    group and the id of a pinned member never appear in the result. *)
Theorem getDuplicateTabsToRemove_spec (groups : list DuplicateGroup.t) :
  getDuplicateTabsToRemove groups = removalCandidates groups
  /\ (NoDup (map TabInfo.id (allMembers groups)) ->
      forall g t,
        In g groups -> In t (DuplicateGroup.tabs g) ->
        hd_error (DuplicateGroup.tabs g) = Some t \/ TabInfo.pinned t = true ->
        ~ In (TabInfo.id t) (getDuplicateTabsToRemove groups)).
Proof.
  split; [apply getDuplicateTabsToRemove_eq|].
  intros Hnd g t Hg Ht Hcase Hin.
  rewrite getDuplicateTabsToRemove_eq in Hin. unfold removalCandidates in Hin.
  destruct Hcase as [Hhd|Hpin].
  - apply (first_member_not_later groups Hnd g t Hg Hhd).
    apply in_flat_map in Hin. destruct Hin as [g' [Hg' Hin]].
    apply in_map_iff in Hin. destruct Hin as [t' [Hid Hin]].
    apply filter_In in Hin. destruct Hin as [Hin _].
    rewrite <- Hid. apply in_map, in_flat_map. now exists g'.
  - apply in_flat_map in Hin. destruct Hin as [g' [Hg' Hin]].
    apply in_map_iff in Hin. destruct Hin as [t' [Hid Hin]].
    apply filter_In in Hin. destruct Hin as [Hin Hunpinned].
    assert (t' = t) as ->.
    { apply (NoDup_map_eq TabInfo.id (allMembers groups)); auto.
      - apply in_flat_map. exists g'. split; [assumption|]. now apply in_tl.
      - apply in_flat_map. now exists g. }
    rewrite Hpin in Hunpinned. discriminate.
Qed.
End RemovalCandidates.

(** ** Token-budget batching *)

Section BatchingFacts.
Import TokenEstimator.
Local Open Scope list_scope.
Context {T : Type} `{Item T}.

Lemma ceilDiv_nonneg (a b : Z) : 0 <= a -> 0 < b -> 0 <= ceilDiv a b.
Proof.
  intros Ha Hb. unfold ceilDiv.
  assert (- a / b <= 0) by (apply Z.div_le_upper_bound; lia). lia.
Qed.

Lemma estimateTokens_nonneg (text : string) : 0 <= estimateTokens text.
Proof.
  unfold estimateTokens. destruct (negb (JS.truthy text)); [lia|].
  assert (0 <= ceilDiv (JS.length text) 4)
    by (apply ceilDiv_nonneg; unfold JS.length; lia).
  lia.
Qed.

(** The cost the loop charges for one item. *)
Lemma itemTokens_pos (item : T) :
  0 < estimateTabTokens (url item) (title item) + 10.
Proof.
  unfold estimateTabTokens.
  pose proof (estimateTokens_nonneg (url item)).
  pose proof (estimateTokens_nonneg (title item)). lia.
Qed.

Lemma batchTokens_from (items : list T) (o a : Z) :
  fold_left
    (fun total item => total + (estimateTabTokens (url item) (title item) + o))
    items a
  = a + estimateBatchTokens items o.
Proof.
  unfold estimateBatchTokens. revert a.
  induction items as [|x items IH]; intros a; simpl; [lia|].
  rewrite (IH (a + _)), (IH (_ + o)). lia.
Qed.

Lemma batchTokens_snoc (b : list T) (x : T) :
  estimateBatchTokens (b ++ [x]) 10
  = estimateBatchTokens b 10 + (estimateTabTokens (url x) (title x) + 10).
Proof. unfold estimateBatchTokens. now rewrite fold_left_app. Qed.

Lemma batchTokens_member (b : list T) (x : T) :
  In x b -> estimateTabTokens (url x) (title x) + 10 <= estimateBatchTokens b 10.
Proof.
  induction b as [|y b IH]; simpl; [contradiction|].
  unfold estimateBatchTokens. simpl. rewrite batchTokens_from.
  assert (0 <= estimateBatchTokens b 10).
  { clear. induction b as [|z b IHb]; [unfold estimateBatchTokens; simpl; lia|].
    unfold estimateBatchTokens. simpl. rewrite batchTokens_from.
    pose proof (itemTokens_pos z). lia. }
  intros [->|Hin].
  - lia.
  - specialize (IH Hin). pose proof (itemTokens_pos y). lia.
Qed.

Variable availableTokens : Z.

(** What the loop maintains for the batch under construction and for
    every closed batch. *)
Let fits (b : list T) : Prop :=
  ((2 <= List.length b)%nat -> estimateBatchTokens b 10 <= availableTokens)
  /\ (forall x, In x b ->
        availableTokens < estimateTabTokens (url x) (title x) + 10 -> b = [x]).

Let inv (a : Acc) : Prop :=
  currentTokens a = estimateBatchTokens (currentBatch a) 10
  /\ Forall fits (batches a) /\ fits (currentBatch a)
  /\ Forall (fun b => b <> []) (batches a).

Lemma fits_single (x : T) : fits [x].
Proof.
  split; simpl; [lia|]. intros y [->|[]] _. reflexivity.
Qed.

Lemma step_inv (a : Acc) (item : T) : inv a -> inv (step availableTokens a item).
Proof.
  intros (Htok & Hclosed & Hcur & Hne). unfold step.
  set (itemTokens := estimateTabTokens (url item) (title item) + 10).
  destruct ((currentTokens a + itemTokens >? availableTokens)
            && (Z.of_nat (List.length (currentBatch a)) >? 0))%bool eqn:Hflush.
  - (* the batch under construction is closed and [item] opens a new one *)
    apply andb_true_iff in Hflush. destruct Hflush as [_ Hlen].
    unfold inv. cbn [batches currentBatch currentTokens].
    refine (conj _ (conj _ (conj (fits_single item) _))).
    + reflexivity.
    + apply Forall_app. split; [assumption|]. now constructor.
    + apply Forall_app. split; [assumption|]. constructor; [|constructor].
      intros Hnil. rewrite Hnil in Hlen. discriminate.
  - (* [item] joins the batch under construction *)
    unfold inv. cbn [batches currentBatch currentTokens].
    refine (conj _ (conj Hclosed (conj _ Hne))).
    + rewrite batchTokens_snoc. fold itemTokens. lia.
    + destruct (currentBatch a) as [|y cb] eqn:Hcb; [apply fits_single|].
      rewrite andb_false_iff in Hflush. destruct Hflush as [Hle|Hlen].
      1: rewrite Z.gtb_ltb, Z.ltb_ge in Hle.
      2:{ rewrite Z.gtb_ltb, Z.ltb_ge in Hlen. cbn [List.length] in Hlen. lia. }
      assert (Hcost : estimateBatchTokens ((y :: cb) ++ [item]) 10 <= availableTokens)
        by (rewrite batchTokens_snoc; fold itemTokens; lia).
      split; [auto|].
      intros x Hx Hbig. exfalso.
      pose proof (batchTokens_member _ x Hx). lia.
Qed.

Lemma fold_step_concat (items : list T) (a : Acc) :
  List.concat (batches (fold_left (step availableTokens) items a))
  ++ currentBatch (fold_left (step availableTokens) items a)
  = List.concat (batches a) ++ currentBatch a ++ items.
Proof.
  revert a. induction items as [|x items IH]; intros a; simpl.
  - now rewrite app_nil_r.
  - rewrite IH. unfold step.
    destruct ((currentTokens a + _ >? availableTokens) && _)%bool; simpl.
    + rewrite concat_app. simpl. now rewrite app_nil_r, <- !app_assoc.
    + now rewrite <- !app_assoc.
Qed.

Lemma fold_step_nonempty (items : list T) (a : Acc) :
  items <> [] -> currentBatch (fold_left (step availableTokens) items a) <> [].
Proof.
  revert a. induction items as [|x items IH]; intros a Hne; [contradiction|].
  simpl. destruct items as [|y items].
  - simpl. unfold step. simpl. now destruct (currentBatch _).
  - apply IH. discriminate.
Qed.

Lemma fold_step_inv (items : list T) :
  inv (fold_left (step availableTokens) items (mkAcc [] [] 0)).
Proof.
  apply fold_left_inv; [exact step_inv|].
  refine (conj eq_refl (conj (Forall_nil _) (conj (conj _ _) (Forall_nil _)))).
  - simpl. lia.
  - intros x [].
Qed.
End BatchingFacts.

Section BatchingSpec.
Import TokenEstimator.
Local Open Scope list_scope.
Context {T : Type} `{Item T}.

(** C2. For a non-empty list of items and any [maxContextTokens] and
    [reservedTokens], [splitIntoBatches] returns at least one batch; the
    batches concatenated in order give back the items; a batch of two or
    more items costs at most the budget [maxContextTokens - reservedTokens];
    and an item that alone costs more than the budget is the only item of
    its batch (by the concatenation, no item is dropped). *)
Theorem splitIntoBatches_spec (items : list T) (maxContextTokens reservedTokens : Z) :
  items <> [] ->
  let budget := maxContextTokens - reservedTokens in
  let result := splitIntoBatches items maxContextTokens reservedTokens in
  result <> []
  /\ List.concat result = items
  /\ Forall (fun batch =>
               (2 <= List.length batch)%nat ->
               estimateBatchTokens batch defaultOverheadPerItem <= budget) result
  /\ Forall (fun batch =>
               forall item, In item batch ->
                 budget < estimateTabTokens (url item) (title item) + 10 ->
                 batch = [item]) result.
Proof.
  intros Hne budget result. subst result. unfold splitIntoBatches.
  fold budget.
  pose proof (fold_step_concat budget items (mkAcc [] [] 0)) as Hcat.
  pose proof (fold_step_nonempty budget items (mkAcc [] [] 0) Hne) as Hcur.
  pose proof (fold_step_inv budget items) as (_ & Hclosed & Hlast & _).
  simpl in Hcat.
  destruct (fold_left (step budget) items (mkAcc [] [] 0)) as [bs cb ct].
  cbn [batches currentBatch] in *.
  destruct cb as [|x cb]; [contradiction|].
  replace (Z.of_nat (List.length (x :: cb)) >? 0) with true
    by (symmetry; rewrite Z.gtb_ltb, Z.ltb_lt; cbn [List.length]; lia).
  assert (Hall : Forall
            (fun b => ((2 <= List.length b)%nat ->
                       estimateBatchTokens b 10 <= budget)
                      /\ (forall y, In y b ->
                            budget < estimateTabTokens (url y) (title y) + 10 ->
                            b = [y]))
            (bs ++ [x :: cb])).
  { apply Forall_app. split; [exact Hclosed|]. now constructor. }
  split; [|split; [|split]].
  - intros Hnil. apply app_eq_nil in Hnil. destruct Hnil as [_ Hnil]. discriminate.
  - rewrite concat_app. simpl. rewrite app_nil_r. exact Hcat.
  - eapply Forall_impl; [|exact Hall]. intros b [Hb _]. exact Hb.
  - eapply Forall_impl; [|exact Hall]. intros b [_ Hb]. exact Hb.
Qed.
End BatchingSpec.

(** ** Retry *)

Section RetryFacts.
Import Retry.
Local Open Scope list_scope.
Context {W E T : Type}.
Variable fn : W -> (E + T) * W.
Variable opts : RetryOptions W E.

Lemma count_invoked_app (l1 l2 : list (Event E T)) :
  List.length (filter (isInvoked E T) (l1 ++ l2))
  = (List.length (filter (isInvoked E T) l1)
     + List.length (filter (isInvoked E T) l2))%nat.
Proof. now rewrite filter_app, length_app. Qed.

(** The operation throws in every state of the world. *)
Hypothesis always_fails : forall w, exists e w', fn w = (inl e, w').
(** A supplied [shouldRetry] accepts every error. *)
Hypothesis retryable : forall p e, shouldRetry W E opts = Some p -> p e = true.

Lemma loop_exhausts (n : nat) :
  forall attempt lastError w log,
    (0 < n)%nat ->
    attempt + Z.of_nat n = optMaxRetries W E opts + 1 ->
    let r := loop W E T fn opts n attempt lastError w log in
    List.length (filter (isInvoked E T) (events r))
    = (List.length (filter (isInvoked E T) log) + n)%nat
    /\ exists log' e,
        events r = log' ++ [Invoked E T (inl e)] /\ outcome r = Rejected (Some e).
Proof.
  induction n as [|n IH]; intros attempt lastError w log Hpos Hleft; [lia|].
  cbn [loop]. destruct (always_fails w) as (e & w' & Hfn). rewrite Hfn.
  replace (match shouldRetry W E opts with
           | Some p => negb (p e) | None => false end) with false.
  2:{ destruct (shouldRetry W E opts) as [p|] eqn:Hp; [|reflexivity].
      now rewrite (retryable p e eq_refl). }
  destruct (Z.geb_spec attempt (optMaxRetries W E opts)) as [Hlast|Hmore].
  - (* the last attempt *)
    assert (n = 0%nat) as -> by lia.
    cbn [events world outcome fst]. split.
    + rewrite count_invoked_app. simpl. lia.
    + now exists log, e.
  - assert (Hn : (0 < n)%nat) by lia.
    destruct (onRetry W E opts) as [notify|]; cbn zeta;
      match goal with
      | |- context [loop _ _ _ _ _ n ?a ?le ?w1 ?lg] =>
          destruct (IH a le w1 lg Hn) as [Hcount Hout]; [lia|]
      end;
      (split; [|exact Hout]);
      rewrite Hcount, !count_invoked_app; simpl; lia.
Qed.
End RetryFacts.

Section RetrySpec.
Import Retry.
Local Open Scope list_scope.
Context {W E T : Type}.

(** C9. With [maxRetries = 3] (the default), an operation that fails on
    every attempt and no [shouldRetry] veto, [retry] invokes the operation
    exactly 4 times and rejects with the error that the last invocation
    threw, as it was thrown.  And when the first attempt fails with an error
    that a supplied [shouldRetry] rejects, the operation is invoked exactly
    once and that error is rethrown at once: nothing is notified or slept. *)
Theorem retry_attempts (fn : W -> (E + T) * W) (opts : RetryOptions W E) (w : W) :
  (optMaxRetries W E opts = 3 ->
   (forall w, exists e w', fn w = (inl e, w')) ->
   (forall p e, shouldRetry W E opts = Some p -> p e = true) ->
   invocations (retry fn opts w) = 4%nat
   /\ exists log e,
       events (retry fn opts w) = log ++ [Invoked E T (inl e)]
       /\ outcome (retry fn opts w) = Rejected (Some e))
  /\ (forall p e w',
        0 <= optMaxRetries W E opts ->
        shouldRetry W E opts = Some p ->
        fn w = (inl e, w') ->
        p e = false ->
        retry fn opts w = mkRun W E T (Rejected (Some e)) w' [Invoked E T (inl e)]
        /\ invocations (retry fn opts w) = 1%nat).
Proof.
  split.
  - intros Hmax Hfails Hretryable. unfold retry, invocations. rewrite Hmax.
    change (Z.to_nat (3 + 1)) with 4%nat.
    destruct (loop_exhausts fn opts Hfails Hretryable 4 0 None w []) as [Hcount Hout].
    + lia.
    + rewrite Hmax. reflexivity.
    + split; [exact Hcount|exact Hout].
  - intros p e w' Hmax Hp Hfn Hveto.
    assert (Hrun : retry fn opts w
                   = mkRun W E T (Rejected (Some e)) w' [Invoked E T (inl e)]).
    { unfold retry.
      destruct (Z.to_nat (optMaxRetries W E opts + 1)) as [|n] eqn:Hn; [lia|].
      cbn [loop]. rewrite Hfn, Hp, Hveto. reflexivity. }
    split; [exact Hrun|]. unfold invocations. rewrite Hrun. reflexivity.
Qed.
End RetrySpec.

(** ** Near duplicates *)

Section PathSimilarity.
Import JS UrlNormalizer Duplicates.
Local Open Scope list_scope.

Lemma count_loop (g : nat -> bool) (l : list nat) (a : Z) :
  fold_left (fun matches i => if g i then matches + 1 else matches) l a
  = a + Z.of_nat (List.length (filter g l)).
Proof.
  revert a. induction l as [|i l IH]; intros a; simpl; [lia|].
  rewrite IH. destruct (g i); simpl List.length; lia.
Qed.

Lemma filter_none {A : Type} (g : A -> bool) (l : list A) :
  (forall x, In x l -> g x = false) -> filter g l = [].
Proof.
  induction l as [|x l IH]; simpl; intros Hg; [reflexivity|].
  rewrite (Hg x) by now left. apply IH. intros y Hy. apply Hg. now right.
Qed.

Lemma nth_error_in_range {A : Type} (l : list A) (i : nat) :
  (i < List.length l)%nat -> exists x, nth_error l i = Some x.
Proof.
  intros Hi. destruct (nth_error l i) as [x|] eqn:Hn; [now exists x|].
  apply nth_error_None in Hn. lia.
Qed.

Lemma aligned_indices (path1 path2 : list string) :
  List.length
    (filter (fun i => sameSegment (nth_error path1 i) (nth_error path2 i))
            (seq 0 (Nat.max (List.length path1) (List.length path2))))
  = List.length
      (filter (fun ab => String.eqb (fst ab) (snd ab)) (combine path1 path2)).
Proof.
  revert path2. induction path1 as [|x path1 IH]; intros [|y path2].
  - reflexivity.
  - rewrite filter_none; [reflexivity|].
    intros i Hi. apply in_seq in Hi.
    destruct (nth_error_in_range (y :: path2) i) as [z ->]; [simpl in *; lia|].
    now destruct i.
  - rewrite filter_none; [reflexivity|].
    intros i Hi. apply in_seq in Hi. rewrite Nat.max_0_r in Hi.
    destruct (nth_error_in_range (x :: path1) i) as [z ->]; [simpl in *; lia|].
    now destruct i.
  - cbn [List.length Nat.max combine]. rewrite <- cons_seq, <- seq_shift.
    cbn [filter nth_error sameSegment fst snd].
    rewrite filter_map_swap. cbn [nth_error].
    destruct (String.eqb x y); cbn [List.length];
      rewrite length_map, IH; reflexivity.
Qed.

Lemma countMatches_aligned (path1 path2 : list string) :
  countMatches path1 path2 (Z.max (len path1) (len path2))
  = alignedMatches path1 path2.
Proof.
  unfold countMatches, alignedMatches, len.
  rewrite count_loop, <- Nat2Z.inj_max, Nat2Z.id, aligned_indices. lia.
Qed.

Lemma alignedMatches_le (path1 path2 : list string) :
  0 <= alignedMatches path1 path2 <= Z.min (len path1) (len path2).
Proof.
  unfold alignedMatches, len. split; [lia|].
  pose proof (filter_length_le (fun ab => String.eqb (fst ab) (snd ab))
                               (combine path1 path2)) as Hle.
  rewrite length_combine in Hle. lia.
Qed.

Lemma alignedMatches_full (path1 path2 : list string) :
  List.length path1 = List.length path2 ->
  alignedMatches path1 path2 = len path1 -> path1 = path2.
Proof.
  unfold alignedMatches, len. revert path2.
  induction path1 as [|x path1 IH]; intros [|y path2]; simpl; try discriminate;
    [reflexivity|].
  intros Hlen Hm. injection Hlen as Hlen.
  pose proof (filter_length_le (fun ab => String.eqb (fst ab) (snd ab))
                               (combine path1 path2)) as Hle.
  rewrite length_combine, <- Hlen, Nat.min_id in Hle.
  destruct (String.eqb_spec x y) as [->|Hne].
  - f_equal. apply IH; [assumption|]. simpl List.length in Hm. lia.
  - lia.
Qed.
End PathSimilarity.

Section NearDuplicates.
Import JS UrlNormalizer Duplicates.
Local Open Scope list_scope.
Context `{Platform}.

Lemma areSimilarUrls_iff (url1 url2 : string) (threshold : Q) (parsed1 parsed2 : URL) :
  URL_parse url1 = Some parsed1 ->
  URL_parse url2 = Some parsed2 ->
  areSimilarUrls url1 url2 threshold = true <-> pathSimilar parsed1 parsed2 threshold.
Proof.
  intros H1 H2. unfold areSimilarUrls, pathSimilar. rewrite H1, H2. cbn zeta.
  set (path1 := segments (pathname parsed1)).
  set (path2 := segments (pathname parsed2)).
  destruct (String.eqb_spec (hostname parsed1) (hostname parsed2)) as [Hh|Hh];
    cbn [negb]; [|split; [discriminate|tauto]].
  destruct (Z.gtb_spec (Z.abs (len path1 - len path2)) 1) as [Hd|Hd];
    [split; [discriminate|lia]|].
  destruct (Z.eqb_spec (Z.max (len path1) (len path2)) 0) as [Hz|Hz].
  - split; [|reflexivity]. intros _. repeat split; auto.
    left. unfold len in *. lia.
  - rewrite countMatches_aligned, Qle_bool_iff. split.
    + intros Hq. repeat split; auto.
    + intros (_ & _ & [[Ha Hb]|Hq]); [lia|exact Hq].
Qed.

Lemma areSimilarUrls_parsed (url1 url2 : string) (threshold : Q) :
  areSimilarUrls url1 url2 threshold = true ->
  exists parsed1 parsed2,
    URL_parse url1 = Some parsed1 /\ URL_parse url2 = Some parsed2
    /\ pathSimilar parsed1 parsed2 threshold.
Proof.
  intros Hs.
  destruct (URL_parse url1) as [parsed1|] eqn:H1;
    [|unfold areSimilarUrls in Hs; rewrite H1 in Hs; discriminate].
  destruct (URL_parse url2) as [parsed2|] eqn:H2;
    [|unfold areSimilarUrls in Hs; rewrite H1, H2 in Hs; discriminate].
  exists parsed1, parsed2. split; [reflexivity|]. split; [reflexivity|].
  now apply (areSimilarUrls_iff url1 url2 threshold).
Qed.

(** *** The greedy clustering keeps every cluster led by its first member *)

Variable threshold : Q.

Let led : list TabInfo.t -> Prop :=
  ledByFirst (fun u1 u2 => areSimilarUrls u1 u2 threshold).

Lemma joinCluster_led (tab : TabInfo.t) (clusters clusters' : list (list TabInfo.t)) :
  joinCluster threshold tab clusters = Some clusters' ->
  Forall led clusters -> Forall led clusters'.
Proof.
  revert clusters'. induction clusters as [|cluster rest IH]; intros clusters' Hj Hall;
    simpl in Hj; [discriminate|].
  inversion Hall as [|? ? Hc Hrest]; subst.
  destruct cluster as [|representative members].
  - destruct (joinCluster threshold tab rest) as [r|]; [|discriminate].
    injection Hj as <-. constructor; [exact Hc|]. now apply IH.
  - destruct (areSimilarUrls (TabInfo.url tab) (TabInfo.url representative) threshold)
      eqn:Hsim.
    + injection Hj as <-. constructor; [|exact Hrest].
      unfold led, ledByFirst. cbn [app]. apply Forall_app. split; [exact Hc|].
      now constructor.
    + destruct (joinCluster threshold tab rest) as [r|]; [|discriminate].
      injection Hj as <-. constructor; [exact Hc|]. now apply IH.
Qed.

Lemma clustersOf_led (domainTabs : list TabInfo.t) :
  Forall led (clustersOf threshold domainTabs).
Proof.
  unfold clustersOf. apply fold_left_inv; [|constructor].
  intros clusters tab Hall. unfold clusterTab.
  destruct (joinCluster threshold tab clusters) as [clusters'|] eqn:Hj.
  - eapply joinCluster_led; eassumption.
  - apply Forall_app. split; [exact Hall|]. repeat constructor.
Qed.

(** Every group reported is a cluster of two or more tabs led by its first. *)
Lemma findNearDuplicateTabs_led (tabs : list TabInfo.t) (g : DuplicateGroup.t) :
  In g (findNearDuplicateTabs tabs threshold) ->
  led (DuplicateGroup.tabs g) /\ (2 <= List.length (DuplicateGroup.tabs g))%nat.
Proof.
  unfold findNearDuplicateTabs. intros Hg.
  apply in_flat_map in Hg. destruct Hg as [[domain domainTabs] [_ Hg]].
  destruct (len domainTabs <? 2); [contradiction|].
  apply in_map_iff in Hg. destruct Hg as [cluster [<- Hc]].
  apply filter_In in Hc. destruct Hc as [Hc Hlen]. cbn [DuplicateGroup.tabs].
  split.
  - pose proof (clustersOf_led domainTabs) as Hall.
    rewrite Forall_forall in Hall. now apply Hall.
  - unfold len in Hlen. lia.
Qed.
End NearDuplicates.

Section NearDuplicateSpec.
Import JS UrlNormalizer Duplicates.
Local Open Scope list_scope.
Context `{Platform}.

(** C10. [findNearDuplicateTabs] never reports two tabs with different raw
    hostnames in one group: the URLs of all members of a reported group
    parse, and their [hostname]s are the same string.  (Tabs are partitioned
    by the www-stripped domain, but joining a cluster requires the
    representative's exact hostname.) *)
Theorem near_duplicate_groups_share_hostname
        (tabs : list TabInfo.t) (similarityThreshold : Q) :
  Forall (fun g =>
            exists h,
              Forall (fun t => exists parsed,
                          URL_parse (TabInfo.url t) = Some parsed
                          /\ hostname parsed = h)
                     (DuplicateGroup.tabs g))
         (findNearDuplicateTabs tabs similarityThreshold).
Proof.
  apply Forall_forall. intros g Hg.
  apply findNearDuplicateTabs_led in Hg. destruct Hg as [Hled Hlen].
  destruct (DuplicateGroup.tabs g) as [|representative [|second rest]];
    simpl in Hlen; try lia.
  unfold ledByFirst in Hled.
  assert (Hrep : exists parsedR, URL_parse (TabInfo.url representative) = Some parsedR).
  { inversion Hled as [|? ? Hsim _]; subst.
    apply areSimilarUrls_parsed in Hsim.
    destruct Hsim as (p1 & p2 & _ & Hp2 & _). now exists p2. }
  destruct Hrep as [parsedR HparsedR].
  exists (hostname parsedR). constructor.
  - now exists parsedR.
  - eapply Forall_impl; [|exact Hled]. intros t Hsim.
    apply areSimilarUrls_parsed in Hsim.
    destruct Hsim as (p1 & p2 & Hp1 & Hp2 & Hhost & _).
    exists p1. split; [exact Hp1|]. rewrite Hhost. congruence.
Qed.

Lemma ratio_at_least (a : Z) (b : positive) (m mx : Z) :
  0 < mx -> (a # b <= inject_Z m / inject_Z mx)%Q -> a * mx <= m * Zpos b.
Proof.
  intros Hmx Hq.
  assert (Hpos : (0 < inject_Z mx)%Q) by (unfold Qlt; simpl; lia).
  apply (Qmult_le_compat_r _ _ (inject_Z mx)) in Hq; [|now apply Qlt_le_weak].
  assert (Hcancel : (inject_Z m / inject_Z mx * inject_Z mx == inject_Z m)%Q).
  { rewrite Qmult_comm. apply Qmult_div_r. intros Hz.
    rewrite Hz in Hpos. now apply Qlt_irrefl in Hpos. }
  rewrite Hcancel in Hq. unfold Qle in Hq. simpl in Hq. lia.
Qed.

(** At threshold 0.8 a path of three segments is similar only to a path
    with the same three segments. *)
Lemma three_segments_exact (parsed1 parsed2 : URL) :
  pathSimilar parsed1 parsed2 defaultThreshold ->
  List.length (segments (pathname parsed1)) = 3%nat
  \/ List.length (segments (pathname parsed2)) = 3%nat ->
  segments (pathname parsed1) = segments (pathname parsed2).
Proof.
  unfold pathSimilar. cbn zeta.
  set (path1 := segments (pathname parsed1)).
  set (path2 := segments (pathname parsed2)).
  intros (_ & Hd & Hr) H3.
  pose proof (alignedMatches_le path1 path2) as Hm.
  assert (Hmx : 0 < Z.max (len path1) (len path2)) by (unfold len; lia).
  destruct Hr as [[Hz1 Hz2]|Hq]; [unfold len in *; lia|].
  apply ratio_at_least in Hq; [|exact Hmx].
  apply alignedMatches_full; unfold len in *; lia.
Qed.

Lemma led_three_segments (representative t : TabInfo.t) (rest : list TabInfo.t)
      (parsed : URL) :
  ledByFirst (fun u1 u2 => areSimilarUrls u1 u2 defaultThreshold)
             (representative :: rest) ->
  In t (representative :: rest) ->
  URL_parse (TabInfo.url t) = Some parsed ->
  List.length (segments (pathname parsed)) = 3%nat ->
  exists parsedR,
    URL_parse (TabInfo.url representative) = Some parsedR
    /\ segments (pathname parsedR) = segments (pathname parsed).
Proof.
  intros Hled [<-|Hin] Hp H3.
  - now exists parsed.
  - unfold ledByFirst in Hled. rewrite Forall_forall in Hled.
    specialize (Hled t Hin). apply areSimilarUrls_parsed in Hled.
    destruct Hled as (p1 & p2 & Hp1 & Hp2 & Hsim).
    assert (p1 = parsed) as -> by congruence.
    exists p2. split; [exact Hp2|]. symmetry.
    apply three_segments_exact; [exact Hsim|now left].
Qed.

End NearDuplicateSpec.

(** ** The normalizer *)

Section StringFacts.
Import JS.

Lemma append_assoc (a b c : string) : ((a ++ b) ++ c = a ++ (b ++ c))%string.
Proof. induction a as [|x a IH]; simpl; [reflexivity|now rewrite IH]. Qed.

Lemma append_nil_r (a : string) : (a ++ "")%string = a.
Proof. induction a as [|x a IH]; simpl; [reflexivity|now rewrite IH]. Qed.

Lemma dropLast_append (a b : string) :
  truthy b = true -> dropLast (a ++ b) = (a ++ dropLast b)%string.
Proof.
  intros Hb. induction a as [|x a IH]; simpl; [reflexivity|].
  rewrite IH. destruct (a ++ b)%string eqn:Hab; [|reflexivity].
  destruct a; [|discriminate]. simpl in Hab. subst b. discriminate.
Qed.

Lemma schemeColon_append (a b : string) :
  noColon a = true -> schemeColon b = false -> schemeColon (a ++ b) = false.
Proof.
  intros Ha Hb. induction a as [|x a IH]; simpl in *; [exact Hb|].
  apply andb_true_iff in Ha. destruct Ha as [Hx Ha].
  apply negb_true_iff in Hx. rewrite Hx.
  destruct (_ || _)%bool; [reflexivity|]. now apply IH.
Qed.

Lemma noColon_substring (n m : nat) (s : string) :
  noColon s = true -> noColon (String.substring n m s) = true.
Proof.
  revert n m. induction s as [|x s IH]; intros n m Hs.
  - now destruct n, m.
  - simpl in Hs. apply andb_true_iff in Hs. destruct Hs as [Hx Hs].
    destruct n, m; simpl; auto. rewrite Hx. simpl. now apply IH.
Qed.

Lemma lower_ascii_colon (c : ascii) :
  Ascii.eqb (lower_ascii c) ":" = Ascii.eqb c ":".
Proof.
  destruct c as [[] [] [] [] [] [] [] []]; reflexivity.
Qed.

Lemma noColon_toLowerCase (s : string) : noColon (toLowerCase s) = noColon s.
Proof.
  induction s as [|x s IH]; simpl; [reflexivity|].
  now rewrite lower_ascii_colon, IH.
Qed.

Lemma setSearch_shape (v : string) :
  setSearch v = "" \/ exists q, setSearch v = String "?" q.
Proof.
  unfold setSearch. destruct (truthy _); [right; eauto|now left].
Qed.

(** The normalized host of an http(s) address, followed by nothing, by a
    path or by a query, is not accepted by the parser. *)
Lemma host_then_rest_unparseable (h rest : string) :
  hostShape h = true ->
  schemeColon rest = false ->
  schemeColon (toLowerCase (stripWwwPrefix h) ++ rest) = false.
Proof.
  unfold hostShape. intros Hh Hrest.
  apply orb_true_iff in Hh. destruct Hh as [Hbr|Hnc].
  - destruct h as [|c h]; [discriminate|]. cbn [startsWith] in Hbr.
    rewrite andb_true_r in Hbr. apply Ascii.eqb_eq in Hbr. subst c. reflexivity.
  - apply schemeColon_append; [|exact Hrest].
    rewrite noColon_toLowerCase. unfold stripWwwPrefix.
    destruct (startsWith h "www."); [|exact Hnc].
    now apply noColon_substring.
Qed.
End StringFacts.

Section NormalizerIdempotence.
Import JS UrlNormalizer.
Context `{P : Platform}.
Hypothesis standard : StandardParser P.

Lemma normalizeUrl_http (url : string) (parsed : URL) :
  URL_parse url = Some parsed -> isHttp parsed = true ->
  normalizeUrl url noOptions
  = (if truthy (processSearch DEFAULT_OPTIONS parsed)
     then processPath DEFAULT_OPTIONS parsed ++ processSearch DEFAULT_OPTIONS parsed
     else processPath DEFAULT_OPTIONS parsed)%string.
Proof.
  intros Hp Hhttp. unfold normalizeUrl. rewrite Hp, Hhttp. reflexivity.
Qed.

Lemma normalizeUrl_unparseable (url : string) :
  URL_parse url = None -> normalizeUrl url noOptions = url.
Proof. intros Hp. unfold normalizeUrl. now rewrite Hp. Qed.

(** With the default options the assembled host and path is the
    normalized host followed by nothing or by a path. *)
Lemma processPath_default (parsed : URL) :
  startsWith (pathname parsed) "/" = true ->
  exists rest,
    processPath DEFAULT_OPTIONS parsed
    = (toLowerCase (stripWwwPrefix (hostname parsed)) ++ rest)%string
    /\ (rest = "" \/ startsWith rest "/" = true).
Proof.
  intros Hpath. unfold processPath, processHostname. cbn [on DEFAULT_OPTIONS
    stripProtocol stripWww lowercase stripTrailingSlash negb String.append andb].
  set (host := toLowerCase (stripWwwPrefix (hostname parsed))).
  destruct (endsWith (host ++ pathname parsed) "/" && _)%bool.
  - destruct (pathname parsed) as [|c rest] eqn:Hpn; [discriminate|].
    rewrite dropLast_append by reflexivity.
    exists (dropLast (String c rest)). split; [reflexivity|].
    cbn [startsWith] in Hpath. rewrite andb_true_r in Hpath.
    apply Ascii.eqb_eq in Hpath. subst c.
    destruct rest; [now left|right; reflexivity].
  - exists (pathname parsed). split; [reflexivity|now right].
Qed.

Lemma schemeColon_path_or_query (rest query : string) :
  rest = "" \/ startsWith rest "/" = true ->
  query = "" \/ (exists q, query = String "?" q) ->
  schemeColon (rest ++ query) = false.
Proof.
  intros [->|Hrest] Hq.
  - destruct Hq as [->|[q ->]]; reflexivity.
  - destruct rest as [|c rest]; [discriminate|].
    cbn [startsWith] in Hrest. rewrite andb_true_r in Hrest.
    apply Ascii.eqb_eq in Hrest. subst c. reflexivity.
Qed.

(** C5. For every valid http or https URL, [normalizeUrl] with the default
    options is idempotent.  (With [stripProtocol] on, the normalized string
    starts with the host and has no scheme: the parser rejects it, and the
    second call returns it unchanged.) *)
Theorem normalizeUrl_idempotent (url : string) :
  isValidHttpUrl url = true ->
  normalizeUrl (normalizeUrl url noOptions) noOptions = normalizeUrl url noOptions.
Proof.
  unfold isValidHttpUrl. intros Hvalid.
  destruct (URL_parse url) as [parsed|] eqn:Hp; [|discriminate].
  destruct (http_shape P standard url parsed Hp Hvalid) as [Hhost Hpath].
  apply normalizeUrl_unparseable.
  destruct (URL_parse (normalizeUrl url noOptions)) as [again|] eqn:Hagain;
    [exfalso|reflexivity].
  apply (scheme_required P standard) in Hagain.
  rewrite (normalizeUrl_http url parsed Hp Hvalid) in Hagain.
  destruct (processPath_default parsed Hpath) as (rest & Hrest & Hshape).
  rewrite Hrest in Hagain.
  assert (Hsearch : processSearch DEFAULT_OPTIONS parsed = ""
                    \/ exists q, processSearch DEFAULT_OPTIONS parsed = String "?" q)
    by apply setSearch_shape.
  assert (Hblocked :
            schemeColon (toLowerCase (stripWwwPrefix (hostname parsed))
                         ++ (rest ++ processSearch DEFAULT_OPTIONS parsed)) = false).
  { apply host_then_rest_unparseable; [exact Hhost|].
    now apply schemeColon_path_or_query. }
  destruct (truthy (processSearch DEFAULT_OPTIONS parsed)) eqn:Ht.
  - rewrite append_assoc in Hagain. congruence.
  - destruct (processSearch DEFAULT_OPTIONS parsed); [|discriminate].
    rewrite append_nil_r in Hblocked. congruence.
Qed.
End NormalizerIdempotence.

(** ** The concrete platform meets the assumptions *)

Section PlainFacts.
Import JS.
Local Open Scope list_scope.

Lemma breakAt_spec (p : ascii -> bool) (s : string) :
  (s = fst (Plain.breakAt p s) ++ snd (Plain.breakAt p s))%string
  /\ Plain.all (fun c => negb (p c)) (fst (Plain.breakAt p s)) = true
  /\ (snd (Plain.breakAt p s) = ""
      \/ exists c r, snd (Plain.breakAt p s) = String c r /\ p c = true).
Proof.
  induction s as [|c s (IH1 & IH2 & IH3)]; simpl.
  - repeat split. now left.
  - destruct (p c) eqn:Hc; simpl.
    + repeat split. right. now exists c, s.
    + destruct (Plain.breakAt p s) as [a b]. simpl in *.
      rewrite Hc. repeat split; auto. now f_equal.
Qed.

Lemma schemeChar_passes (c : ascii) :
  Plain.isSchemeChar c = true ->
  Ascii.eqb c ":" = false
  /\ existsb (Ascii.eqb c) ["/"; "?"; "#"; "["]%char = false.
Proof.
  destruct c as [[] [] [] [] [] [] [] []]; vm_compute; intros Hc;
    try discriminate; now split.
Qed.

Lemma hostChar_noColon (c : ascii) :
  Plain.isHostChar c = true -> Ascii.eqb c ":" = false.
Proof.
  destruct c as [[] [] [] [] [] [] [] []]; vm_compute; intros Hc;
    try discriminate; reflexivity.
Qed.

Lemma scheme_then_colon (scheme rest : string) :
  Plain.all (fun c => negb (negb (Plain.isSchemeChar c))) scheme = true ->
  schemeColon (scheme ++ String ":" rest) = true.
Proof.
  induction scheme as [|c scheme IH]; simpl; intros Hall; [reflexivity|].
  apply andb_true_iff in Hall. destruct Hall as [Hc Hall].
  rewrite negb_involutive in Hc.
  destruct (schemeChar_passes c Hc) as [-> Hd].
  simpl in Hd. rewrite Hd. now apply IH.
Qed.

Lemma hostChars_noColon (host : string) :
  Plain.all Plain.isHostChar host = true -> noColon host = true.
Proof.
  induction host as [|c host IH]; simpl; intros Hall; [reflexivity|].
  apply andb_true_iff in Hall. destruct Hall as [Hc Hall].
  rewrite (hostChar_noColon c Hc). simpl. now apply IH.
Qed.

Lemma plain_scheme_required (input : string) (parsed : URL) :
  Plain.parse input = Some parsed -> schemeColon input = true.
Proof.
  unfold Plain.parse.
  destruct (breakAt_spec (fun c => negb (Plain.isSchemeChar c)) input)
    as (Hsplit & Hscheme & _).
  destruct (Plain.breakAt (fun c => negb (Plain.isSchemeChar c)) input)
    as [scheme rest]. simpl in Hsplit, Hscheme.
  destruct rest as [|c rest]; [discriminate|].
  destruct (Ascii.eqb_spec c ":") as [->|Hc].
  - intros _. rewrite Hsplit. now apply scheme_then_colon.
  - intros Hp. exfalso.
    destruct c as [[] [] [] [] [] [] [] []]; try discriminate Hp.
    now apply Hc.
Qed.

Lemma plain_path_shape (authority : string) :
  let rest := snd (Plain.breakAt (Plain.isOneOf ["/"; "?"; "#"]%char) authority) in
  let path := fst (Plain.breakAt (Plain.isOneOf ["?"; "#"]%char) rest) in
  startsWith (if truthy path then path else "/") "/" = true.
Proof.
  cbn zeta.
  destruct (breakAt_spec (Plain.isOneOf ["/"; "?"; "#"]%char) authority)
    as (_ & _ & Hrest).
  destruct Hrest as [->|(c & r & -> & Hc)]; [reflexivity|].
  cbn [Plain.breakAt].
  destruct (Plain.isOneOf ["?"; "#"]%char c) eqn:Hq; [reflexivity|].
  destruct (Plain.breakAt (Plain.isOneOf ["?"; "#"]%char) r) as [a b].
  cbn [fst truthy startsWith].
  unfold Plain.isOneOf in Hc, Hq. cbn [existsb] in Hc, Hq.
  rewrite Hq, orb_false_r in Hc. apply Ascii.eqb_eq in Hc. subst c. reflexivity.
Qed.

Lemma plain_http_shape (input : string) (parsed : URL) :
  Plain.parse input = Some parsed -> UrlNormalizer.isHttp parsed = true ->
  hostShape (hostname parsed) = true /\ startsWith (pathname parsed) "/" = true.
Proof.
  unfold Plain.parse.
  destruct (Plain.breakAt (fun c => negb (Plain.isSchemeChar c)) input)
    as [scheme rest].
  destruct rest as [|c0 [|c1 [|c2 authority]]]; try discriminate;
    try (destruct c0 as [[] [] [] [] [] [] [] []]; discriminate);
    try (destruct c0 as [[] [] [] [] [] [] [] []];
         destruct c1 as [[] [] [] [] [] [] [] []]; discriminate).
  destruct c0 as [[] [] [] [] [] [] [] []]; try discriminate;
    destruct c1 as [[] [] [] [] [] [] [] []]; try discriminate;
    destruct c2 as [[] [] [] [] [] [] [] []]; try discriminate.
  pose proof (plain_path_shape authority) as Hpath. cbn zeta in Hpath.
  destruct (Plain.breakAt (Plain.isOneOf ["/"; "?"; "#"]%char) authority)
    as [host rest1]. cbn [snd] in Hpath.
  destruct (Plain.breakAt (Plain.isOneOf ["?"; "#"]%char) rest1)
    as [path rest2]. cbn [fst] in Hpath.
  destruct (match rest2 with
            | String "?" q => Plain.breakAt (Plain.isOneOf ["#"]%char) q
            | _ => (EmptyString, rest2)
            end) as [query fragment].
  destruct (Plain.startsWithAlpha scheme && _ && _ && _ && _)%bool eqn:Hok;
    [|discriminate].
  intros [= <-]. unfold UrlNormalizer.isHttp. cbn [protocol hostname pathname].
  intros Hhttp. split; [|exact Hpath].
  rewrite Hhttp in Hok.
  repeat (apply andb_true_iff in Hok; destruct Hok as [Hok ?]).
  unfold Plain.validHost in *.
  match goal with
  | Hv : (Plain.all Plain.isHostChar host && _ && _)%bool = true |- _ =>
      repeat (apply andb_true_iff in Hv; destruct Hv as [Hv ?])
  end.
  unfold hostShape. rewrite noColon_toLowerCase, hostChars_noColon; [|assumption].
  apply orb_true_r.
Qed.

Lemma plain_standard : StandardParser Plain.platform.
Proof.
  split.
  - exact plain_scheme_required.
  - exact plain_http_shape.
Qed.
End PlainFacts.

(** ** Query canonicalization *)

Section ParamsFacts.
Import JS.
Local Open Scope list_scope.

Local Abbreviation keys := (map (@fst string string)).

(** The pairs set one after the other into an empty [URLSearchParams]. *)
Let setAll (l : Params) : Params :=
  fold_left (fun ps kv => paramsSet ps (fst kv) (snd kv)) l [].

Lemma removeName_absent (k : string) (l : Params) :
  ~ In k (keys l) -> removeName k l = l.
Proof.
  induction l as [|[k' v'] l IH]; simpl; intros Hk; [reflexivity|].
  destruct (String.eqb_spec k' k) as [->|_]; [exfalso; auto|].
  simpl. f_equal. apply IH. auto.
Qed.

Lemma keys_paramsSet (ps : Params) (k v : string) :
  NoDup (keys ps) ->
  (In k (keys ps) -> keys (paramsSet ps k v) = keys ps)
  /\ (~ In k (keys ps) -> keys (paramsSet ps k v) = keys ps ++ [k]).
Proof.
  induction ps as [|[k' v'] ps IH]; simpl; intros Hnd.
  - split; [contradiction|reflexivity].
  - inversion Hnd as [|? ? Hk' Hnd']; subst.
    destruct (String.eqb_spec k' k) as [->|Hne]; simpl.
    + rewrite removeName_absent by assumption. split; [reflexivity|].
      intros Hk. exfalso. auto.
    + destruct (IH Hnd') as [IHin IHout]. split.
      * intros [Hk|Hk]; [congruence|]. now rewrite IHin.
      * intros Hk. rewrite IHout; auto.
Qed.

Lemma in_paramsSet (ps : Params) (k0 v0 k v : string) :
  NoDup (keys ps) ->
  In (k, v) (paramsSet ps k0 v0)
  <-> (k = k0 /\ v = v0) \/ (k <> k0 /\ In (k, v) ps).
Proof.
  induction ps as [|[k' v'] ps IH]; simpl; intros Hnd.
  - split.
    + intros [[= <- <-]|[]]. now left.
    + intros [[-> ->]|[_ []]]. now left.
  - inversion Hnd as [|? ? Hk' Hnd']; subst.
    destruct (String.eqb_spec k' k0) as [->|Hne]; simpl.
    + rewrite removeName_absent by assumption. split.
      * intros [[= <- <-]|Hin]; [now left|right].
        split; [|now right]. intros ->. apply Hk'.
        now apply (in_map fst) in Hin.
      * intros [[-> ->]|[Hk [[= -> ->]|Hin]]]; [now left|congruence|now right].
    + rewrite (IH Hnd'). split.
      * intros [[= -> ->]|[Heq|[Hk Hin]]]; [right|now left|right]; split; auto.
      * intros [Heq|[Hk [Hhd|Hin]]]; [right; now left|now left|right; right; auto].
Qed.

Lemma NoDup_snoc {A : Type} (l : list A) (x : A) :
  NoDup l -> ~ In x l -> NoDup (l ++ [x]).
Proof.
  intros Hnd Hx. apply NoDup_app; [assumption|repeat constructor; intros []|].
  intros a Ha [<-|[]]. auto.
Qed.

Lemma StronglySorted_snoc {A : Type} (R : A -> A -> Prop) (l : list A) (x : A) :
  StronglySorted R l -> Forall (fun y => R y x) l -> StronglySorted R (l ++ [x]).
Proof.
  induction 1 as [|a l Hs IH Ha]; simpl; intros Hx.
  - repeat constructor.
  - inversion Hx; subst. constructor; [now apply IH|].
    apply Forall_app. split; [assumption|now constructor].
Qed.

Lemma StronglySorted_unsnoc {A : Type} (R : A -> A -> Prop) (l : list A) (x : A) :
  StronglySorted R (l ++ [x]) -> StronglySorted R l /\ Forall (fun y => R y x) l.
Proof.
  induction l as [|a l IH]; simpl; intros Hs; [split; constructor|].
  apply StronglySorted_inv in Hs. destruct Hs as [Hs Ha].
  destruct (IH Hs) as [Hl Hx]. apply Forall_app in Ha. destruct Ha as [Ha Hax].
  split; constructor; auto. now inversion Hax.
Qed.

Lemma setAll_spec (R : string -> string -> Prop) (l : Params) :
  NoDup (keys (setAll l))
  /\ (forall k v, In (k, v) (setAll l) <-> lastValue l k = Some v)
  /\ incl (keys (setAll l)) (keys l)
  /\ (StronglySorted R (keys l) -> StronglySorted R (keys (setAll l))).
Proof.
  unfold setAll, lastValue.
  induction l as [|[k0 v0] l (Hnd & Hin & Hincl & Hsorted)] using rev_ind.
  - simpl. repeat split; try constructor; try contradiction; try discriminate.
    intros x [].
  - rewrite fold_left_app, rev_app_distr, map_app. cbn [fold_left fst snd rev app map].
    set (ps := fold_left (fun ps kv => paramsSet ps (fst kv) (snd kv)) l []) in *.
    destruct (keys_paramsSet ps k0 v0 Hnd) as [Hold Hnew].
    split; [|split; [|split]].
    + destruct (in_dec string_dec k0 (keys ps)) as [Hk|Hk].
      * now rewrite Hold.
      * rewrite Hnew by assumption. now apply NoDup_snoc.
    + intros k v. rewrite in_paramsSet by assumption. cbn [get].
      destruct (String.eqb_spec k0 k) as [->|Hne].
      * split; [intros [[_ ->]|[Hk _]]; congruence|intros [= ->]; now left].
      * rewrite <- Hin. split; [intros [[Hk _]|[_ Hv]]; congruence|].
        intros Hv. right. split; congruence.
    + destruct (in_dec string_dec k0 (keys ps)) as [Hk|Hk].
      * rewrite Hold by assumption. now apply incl_appl.
      * rewrite Hnew by assumption. apply incl_app_app; [assumption|apply incl_refl].
    + intros Hs. apply StronglySorted_unsnoc in Hs. destruct Hs as [Hs Hlast].
      destruct (in_dec string_dec k0 (keys ps)) as [Hk|Hk].
      * rewrite Hold by assumption. auto.
      * rewrite Hnew by assumption. apply StronglySorted_snoc; [auto|].
        rewrite Forall_forall in *. intros y Hy. apply Hlast, Hincl, Hy.
Qed.
End ParamsFacts.

Section QueryCanonicalization.
Import JS UrlNormalizer.
Local Open Scope list_scope.
Context `{P : Platform}.

Local Abbreviation keys := (map (@fst string string)).
Local Abbreviation byKey := (fun a b : string * string => localeCompare (fst a) (fst b)).
Local Abbreviation named k := (fun kv : string * string => String.eqb (fst kv) k).

Lemma fold_keepParam (opts : NormalizeOptions) (l acc : Params) :
  fold_left (keepParam opts) l acc
  = fold_left (fun ps kv => paramsSet ps (fst kv) (snd kv))
              (filter (fun kv => negb (isTracking opts kv)) l) acc.
Proof.
  revert acc. induction l as [|[k v] l IH]; intros acc; [reflexivity|].
  cbn [fold_left filter]. unfold keepParam at 2, isTracking at 1. cbn [fst snd].
  destruct (on (stripTracking opts) && _)%bool; cbn [negb]; apply IH.
Qed.

Lemma filter_comm {A : Type} (f g : A -> bool) (l : list A) :
  filter f (filter g l) = filter g (filter f l).
Proof.
  induction l as [|x l IH]; simpl; [reflexivity|].
  destruct (f x) eqn:Hf, (g x) eqn:Hg; simpl; rewrite ?Hf, ?Hg, IH; reflexivity.
Qed.

Lemma get_named (l : Params) (k : string) : get l k = get (filter (named k) l) k.
Proof.
  induction l as [|[k' v'] l IH]; simpl; [reflexivity|].
  destruct (String.eqb k' k) eqn:Hk; simpl; [now rewrite Hk|exact IH].
Qed.

Lemma lastValue_named (l : Params) (k : string) :
  lastValue l k = lastValue (filter (named k) l) k.
Proof. unfold lastValue. now rewrite get_named, filter_rev. Qed.

Lemma StronglySorted_filter {A : Type} (R : A -> A -> Prop) (f : A -> bool) (l : list A) :
  StronglySorted R l -> StronglySorted R (filter f l).
Proof.
  induction 1 as [|a l Hs IH Ha]; simpl; [constructor|].
  destruct (f a); [|exact IH]. constructor; [exact IH|].
  rewrite Forall_forall in *. intros x Hx. apply filter_In in Hx. now apply Ha.
Qed.

Lemma StronglySorted_map {A B : Type} (R : B -> B -> Prop) (f : A -> B) (l : list A) :
  StronglySorted (fun a b => R (f a) (f b)) l -> StronglySorted R (map f l).
Proof.
  induction 1 as [|a l Hs IH Ha]; simpl; constructor; [exact IH|].
  now apply Forall_map.
Qed.

Hypothesis consistent : ConsistentCompare P.

(** The sort is stable: pairs with the same name keep their order. *)
Lemma insert_named (k : string) (x : string * string) (l : Params) :
  filter (named k) (insert byKey x l) = filter (named k) (x :: l).
Proof.
  induction l as [|y l IH]; [reflexivity|]. cbn [insert].
  destruct (Z.leb_spec (localeCompare (fst x) (fst y)) 0) as [_|Hgt]; [reflexivity|].
  cbn [filter] in *. rewrite IH.
  destruct (String.eqb_spec (fst x) k) as [Hx|_],
           (String.eqb_spec (fst y) k) as [Hy|_]; try reflexivity.
  exfalso. rewrite Hx, Hy in Hgt.
  destruct (compare_total P consistent k k); lia.
Qed.

Lemma sort_named (k : string) (l : Params) :
  filter (named k) (sort byKey l) = filter (named k) l.
Proof.
  induction l as [|x l IH]; [reflexivity|]. cbn [sort].
  rewrite insert_named. cbn [filter]. now rewrite IH.
Qed.

Lemma lastValue_sorted (opts : NormalizeOptions) (entries : Params) (k : string) :
  lastValue (survivors opts (sortedEntries opts entries)) k
  = lastValue (survivors opts entries) k.
Proof.
  unfold sortedEntries. destruct (on (sortParams opts)); [|reflexivity].
  rewrite lastValue_named, (lastValue_named (survivors opts entries)).
  unfold survivors. now rewrite !(filter_comm (named k)), sort_named.
Qed.

Lemma sort_keys_sorted (entries : Params) :
  StronglySorted (fun a b => localeCompare (fst a) (fst b) <= 0) (sort byKey entries).
Proof.
  apply Sorted_StronglySorted.
  - intros a b c. apply (compare_trans P consistent).
  - apply (sort_sorted byKey). intros a b. apply (compare_total P consistent).
Qed.

Lemma processParams_spec (opts : NormalizeOptions) (entries : Params) :
  NoDup (keys (processParams opts entries))
  /\ (forall k v, In (k, v) (processParams opts entries)
                  <-> lastValue (survivors opts entries) k = Some v)
  /\ (on (sortParams opts) = true ->
      StronglySorted (fun a b => localeCompare a b <= 0)
                     (keys (processParams opts entries))).
Proof.
  unfold processParams. rewrite fold_keepParam.
  fold (survivors opts (sortedEntries opts entries)).
  destruct (setAll_spec (fun a b => localeCompare a b <= 0)
                        (survivors opts (sortedEntries opts entries)))
    as (Hnd & Hin & _ & Hsorted).
  split; [exact Hnd|]. split.
  - intros k v. rewrite Hin. now rewrite lastValue_sorted.
  - intros Hsort. apply Hsorted. unfold sortedEntries. rewrite Hsort.
    apply StronglySorted_map. unfold survivors.
    apply StronglySorted_filter, sort_keys_sorted.
Qed.
End QueryCanonicalization.

Section QuerySpec.
Import JS UrlNormalizer.
Local Open Scope list_scope.
Context `{P : Platform}.
Hypothesis consistent : ConsistentCompare P.

End QuerySpec.

(** ** The trailing slash *)

Section TrailingSlash.
Import JS UrlNormalizer.
Context `{P : Platform}.

Lemma endsWith_slash (a : string) : endsWith (a ++ "/") "/" = true.
Proof.
  induction a as [|c a IH]; [reflexivity|]. cbn [String.append endsWith].
  destruct (a ++ "/")%string eqn:Ha; [destruct a; discriminate|exact IH].
Qed.

Lemma dropLast_slash (a : string) : dropLast (a ++ "/") = a.
Proof. rewrite dropLast_append by reflexivity. apply append_nil_r. Qed.

Lemma length_slash (a : string) : (JS.length (a ++ "/") >? 1) = truthy a.
Proof.
  unfold JS.length. destruct a as [|c a]; [reflexivity|].
  cbn [String.append String.length truthy].
  assert (String.length (a ++ "/") = S (String.length a)) as ->.
  { clear. induction a as [|x a IH]; simpl; [reflexivity|now rewrite IH]. }
  apply Z.gtb_lt. lia.
Qed.

(** C7, amended. For every http(s) URL, [normalizeUrl] with
    [stripTrailingSlash] on removes exactly one trailing [/] from the string
    assembled so far (the scheme unless stripped, the host, the path) unless
    that string is exactly [/]; a string without a trailing [/] is left as it
    is.  The [/] of a root path is therefore removed whenever scheme and
    host are not both empty. *)
Theorem trailing_slash_rule (url : string) (parsed : URL) (options : NormalizeOptions) :
  URL_parse url = Some parsed ->
  isHttp parsed = true ->
  let opts := spread DEFAULT_OPTIONS options in
  on (stripTrailingSlash opts) = true ->
  let assembled :=
    (((if negb (on (stripProtocol opts)) then "https://" else "")
      ++ processHostname opts parsed) ++ pathname parsed)%string in
  normalizeUrl url options
  = (let normalized := processPath opts parsed in
     let normalized :=
       if truthy (processSearch opts parsed)
       then normalized ++ processSearch opts parsed else normalized in
     if (negb (on (stripHash opts)) && truthy (hash parsed))%bool
     then normalized ++ hash parsed else normalized)%string
  /\ (forall body, assembled = (body ++ "/")%string -> body <> "" ->
                   processPath opts parsed = body)
  /\ (assembled = "/" -> processPath opts parsed = "/")
  /\ (endsWith assembled "/" = false -> processPath opts parsed = assembled).
Proof.
  intros Hp Hhttp opts Hon assembled.
  assert (Hpath : processPath opts parsed
                  = if (endsWith assembled "/" && (JS.length assembled >? 1))%bool
                    then dropLast assembled else assembled).
  { unfold processPath, assembled. rewrite Hon.
    destruct (negb (on (stripProtocol opts))); reflexivity. }
  split; [|split; [|split]].
  - unfold normalizeUrl. rewrite Hp, Hhttp. reflexivity.
  - intros body Hbody Hne. rewrite Hpath, Hbody.
    rewrite endsWith_slash, length_slash, dropLast_slash.
    destruct body; [contradiction|reflexivity].
  - intros Hroot. rewrite Hpath, Hroot. reflexivity.
  - intros Hends. rewrite Hpath, Hends. reflexivity.
Qed.
End TrailingSlash.

(** ** The code on concrete inputs *)

Section PlainCompare.

Lemma plain_compare_le (a b : string) :
  Plain.compare a b <= 0 <-> String.compare a b <> Gt.
Proof.
  unfold Plain.compare. destruct (String.compare a b); split; intros; try lia; congruence.
Qed.

Lemma plain_consistent : ConsistentCompare Plain.platform.
Proof.
  split; cbn [JS.localeCompare Plain.platform].
  - intros a b. rewrite !plain_compare_le, (String.compare_antisym b a).
    destruct (String.compare a b); simpl; [left|left|right]; discriminate.
  - intros a b c. rewrite !plain_compare_le. intros Hab Hbc.
    destruct (String.compare a b) eqn:Eab; [|clear Hab|congruence].
    + apply String.compare_eq_iff in Eab. now subst.
    + destruct (String.compare b c) eqn:Ebc; [|clear Hbc|congruence].
      * apply String.compare_eq_iff in Ebc. subst. rewrite Eab. discriminate.
      * apply OrderedTypeEx.String_as_OT.cmp_lt in Eab, Ebc.
        pose proof (OrderedTypeEx.String_as_OT.lt_trans _ _ _ Eab Ebc) as Hac.
        apply OrderedTypeEx.String_as_OT.cmp_lt in Hac.
        unfold OrderedTypeEx.String_as_OT.cmp in Hac. rewrite Hac. discriminate.
Qed.
End PlainCompare.

Section ConcreteRuns.
Import JS UrlNormalizer Duplicates.
Local Open Scope list_scope.

(** The example of the specification. *)
Example normalizeUrl_spec_example :
  @normalizeUrl Plain.platform
    "http://www.Example.com/foo/?b=2&utm_source=x&a=1#frag" noOptions
  = "example.com/foo?a=1&b=2".
Proof. vm_compute. reflexivity. Qed.


(** C7, counterexample. The address [https://example.com/] has the path
    [/]; [normalizeUrl] with [stripTrailingSlash] on (the default) returns
    [example.com], which does not end with the slash of the root path.  With
    the scheme kept the result is [https://example.com]. *)
Lemma root_path_slash_is_stripped :
  option_map pathname (@URL_parse Plain.platform "https://example.com/") = Some "/"
  /\ @normalizeUrl Plain.platform "https://example.com/" noOptions = "example.com"
  /\ endsWith (@normalizeUrl Plain.platform "https://example.com/" noOptions) "/" = false
  /\ @normalizeUrl Plain.platform "https://example.com/"
       (mkOptions None None (Some false) None None None None)
     = "https://example.com".
Proof. repeat split; vm_compute; reflexivity. Qed.

(** C8. Two bookmarks of the internal page [chrome://settings/] are
    reported as a duplicate group by [findDuplicateBookmarks], which never
    consults [isInternalUrl]; [findDuplicateTabs] drops two tabs with the
    same address. *)
Theorem internal_bookmarks_are_grouped :
  @isInternalUrl Plain.platform "chrome://settings/" = true
  /\ @findDuplicateBookmarks Plain.platform
       [bookmark "1" "chrome://settings/" 100; bookmark "2" "chrome://settings/" 200]
     = [BookmarkDuplicateGroup.mk "chrome://settings/"
          [bookmark "1" "chrome://settings/" 100; bookmark "2" "chrome://settings/" 200]]
  /\ @findDuplicateTabs Plain.platform
       [tab 1 "chrome://settings/" false; tab 2 "chrome://settings/" false]
     = [].
Proof. repeat split; vm_compute; reflexivity. Qed.

(** Exact duplicates on a concrete list: the group is keyed by the
    normalized address and ordered by id. *)
Example findDuplicateTabs_example :
  @findDuplicateTabs Plain.platform
    [tab 7 "https://www.example.com/a/" false; tab 3 "http://example.com/a?utm_source=x" true;
     tab 5 "https://other.org/" false]
  = [DuplicateGroup.mk "example.com/a"
       [tab 3 "http://example.com/a?utm_source=x" true;
        tab 7 "https://www.example.com/a/" false]].
Proof. vm_compute. reflexivity. Qed.

(** A www address and its bare counterpart fall in the same domain
    partition and are not clustered; two addresses of one host are. *)
Example findNearDuplicateTabs_www_example :
  @findNearDuplicateTabs Plain.platform
    [tab 1 "https://www.example.com/a" false; tab 2 "https://example.com/a" false]
    defaultThreshold
  = []
  /\ @findNearDuplicateTabs Plain.platform
       [tab 1 "https://example.com/a/b/c/d/e" false;
        tab 2 "https://example.com/a/b/c/d/f" false;
        tab 3 "https://example.com/a/b/c" false;
        tab 4 "https://example.com/a/b/d" false]
       defaultThreshold
     = [DuplicateGroup.mk "example.com/a/b/c/d/e"
          [tab 1 "https://example.com/a/b/c/d/e" false;
           tab 2 "https://example.com/a/b/c/d/f" false]].
Proof. split; vm_compute; reflexivity. Qed.
End ConcreteRuns.

(** ** The theorems at concrete inputs *)

Section Witnesses.
Import JS UrlNormalizer Duplicates.
Local Open Scope list_scope.

(** C2 at three tabs and a budget of 60 tokens. *)
Lemma splitIntoBatches_spec_witness :
  sampleItems <> []
  /\ @TokenEstimator.splitIntoBatches _ tabItem sampleItems 2560 2500 <> []
  /\ List.concat (@TokenEstimator.splitIntoBatches _ tabItem sampleItems 2560 2500)
     = sampleItems.
Proof.
  assert (Hne : sampleItems <> []) by discriminate.
  split; [exact Hne|].
  pose proof (@splitIntoBatches_spec _ tabItem sampleItems 2560 2500 Hne) as Hspec.
  cbv zeta in Hspec. destruct Hspec as (Hsome & Hcat & _).
  split; [exact Hsome|exact Hcat].
Defined.

(** C3 at one group of three tabs, the second of them pinned. *)
Lemma getDuplicateTabsToRemove_spec_witness :
  NoDup (map TabInfo.id (allMembers [sampleGroup]))
  /\ getDuplicateTabsToRemove [sampleGroup] = removalCandidates [sampleGroup]
  /\ ~ In 3 (getDuplicateTabsToRemove [sampleGroup])
  /\ ~ In 5 (getDuplicateTabsToRemove [sampleGroup]).
Proof.
  assert (Hnd : NoDup (map TabInfo.id (allMembers [sampleGroup]))).
  { cbv. repeat constructor; intros Hin;
      repeat (destruct Hin as [Hin|Hin]; [discriminate Hin|]); exact Hin. }
  destruct (getDuplicateTabsToRemove_spec [sampleGroup]) as [Heq Hnever].
  split; [exact Hnd|]. split; [exact Heq|]. split.
  - apply (Hnever Hnd sampleGroup (tab 3 "https://example.com/a" false)).
    + left. reflexivity.
    + left. reflexivity.
    + left. reflexivity.
  - apply (Hnever Hnd sampleGroup (tab 5 "https://example.com/a" true)).
    + left. reflexivity.
    + right. left. reflexivity.
    + right. reflexivity.
Defined.


(** C5 at the example of the specification. *)
Lemma normalizeUrl_idempotent_witness :
  @isValidHttpUrl Plain.platform
    "http://www.Example.com/foo/?b=2&utm_source=x&a=1#frag" = true
  /\ @normalizeUrl Plain.platform
       (@normalizeUrl Plain.platform
          "http://www.Example.com/foo/?b=2&utm_source=x&a=1#frag" noOptions)
       noOptions
     = @normalizeUrl Plain.platform
         "http://www.Example.com/foo/?b=2&utm_source=x&a=1#frag" noOptions.
Proof.
  assert (Hvalid : @isValidHttpUrl Plain.platform
                     "http://www.Example.com/foo/?b=2&utm_source=x&a=1#frag" = true)
    by (vm_compute; reflexivity).
  split; [exact Hvalid|].
  exact (@normalizeUrl_idempotent Plain.platform plain_standard _ Hvalid).
Defined.


(** C7, amended, at the root of a site. *)
Lemma trailing_slash_rule_witness :
  @URL_parse Plain.platform "https://example.com/"
  = Some (mkURL "https:" "example.com" "/" "" [] "")
  /\ @processPath DEFAULT_OPTIONS (mkURL "https:" "example.com" "/" "" [] "")
     = "example.com".
Proof.
  assert (Hp : @URL_parse Plain.platform "https://example.com/"
               = Some (mkURL "https:" "example.com" "/" "" [] ""))
    by (vm_compute; reflexivity).
  split; [exact Hp|].
  destruct (@trailing_slash_rule Plain.platform "https://example.com/" _ noOptions
              Hp eq_refl eq_refl) as (_ & Hstrip & _).
  apply (Hstrip "example.com"); [reflexivity|discriminate].
Defined.

(** C9 at an operation that throws the number of the attempt. *)
Lemma retry_attempts_witness :
  (Retry.invocations (Retry.retry throwCounter Retry.noOptions 0) = 4%nat
   /\ exists log e,
       Retry.events (Retry.retry throwCounter Retry.noOptions 0)
       = log ++ [Retry.Invoked Z unit (inl e)]
       /\ Retry.outcome (Retry.retry throwCounter Retry.noOptions 0)
          = Retry.Rejected (Some e))
  /\ (Retry.retry throwCounter vetoAll 0
      = Retry.mkRun Z Z unit (Retry.Rejected (Some 0)) 1 [Retry.Invoked Z unit (inl 0)]
      /\ Retry.invocations (Retry.retry throwCounter vetoAll 0) = 1%nat).
Proof.
  split.
  - apply (proj1 (retry_attempts throwCounter Retry.noOptions 0)).
    + reflexivity.
    + intros w. exists w, (w + 1). reflexivity.
    + intros p e Hp. discriminate Hp.
  - apply (proj2 (retry_attempts throwCounter vetoAll 0) (fun _ => false) 0 1).
    + cbv. discriminate.
    + reflexivity.
    + reflexivity.
    + reflexivity.
Defined.
End Witnesses.

Section RetryRun.
Import Retry.
Local Open Scope list_scope.

(** The default run against an operation that always throws: four
    invocations, delays of 1000, 2000 and 4000 ms between them, and the
    rejection with the error of the fourth. *)
Example retry_default_run :
  retry throwCounter noOptions 0
  = mkRun Z Z unit (Rejected (Some 3)) 4
      [Invoked Z unit (inl 0); Slept Z unit 1000;
       Invoked Z unit (inl 1); Slept Z unit 2000;
       Invoked Z unit (inl 2); Slept Z unit 4000;
       Invoked Z unit (inl 3)].
Proof. vm_compute. reflexivity. Qed.
End RetryRun.


(* ================================================================== *)
(** * Further properties of the code *)
(* ================================================================== *)

(** ** The grouping loops *)

Section GroupingFacts.
Import JS Duplicates.
Local Open Scope list_scope.
Context {A : Type}.

Local Abbreviation mkeys := (map (@fst string (list A))).

Lemma get_set_eq {V : Type} (m : Map V) (k : string) (v : V) : get (set m k v) k = Some v.
Proof.
  induction m as [|[k' v'] m IH]; simpl; [now rewrite String.eqb_refl|].
  destruct (String.eqb k' k) eqn:Hk; simpl; rewrite Hk; [reflexivity|exact IH].
Qed.

Lemma get_set_ne {V : Type} (m : Map V) (k k' : string) (v : V) :
  k <> k' -> get (set m k v) k' = get m k'.
Proof.
  intros Hne. induction m as [|[k0 v0] m IH]; simpl.
  - destruct (String.eqb_spec k k'); [contradiction|reflexivity].
  - destruct (String.eqb_spec k0 k) as [->|Hk0]; simpl.
    + destruct (String.eqb_spec k k'); [contradiction|reflexivity].
    + destruct (String.eqb k0 k'); [reflexivity|exact IH].
Qed.

Lemma get_None_keys {V : Type} (m : Map V) (k : string) :
  get m k = None <-> ~ In k (map fst m).
Proof.
  induction m as [|[k' v'] m IH]; simpl; [tauto|].
  destruct (String.eqb_spec k' k) as [->|Hne].
  - split; [discriminate|]. intros Hn. exfalso. auto.
  - rewrite IH. tauto.
Qed.

Lemma get_keys {V : Type} (m : Map V) (k : string) (v : V) :
  get m k = Some v -> In k (map fst m).
Proof.
  intros Hg. destruct (in_dec string_dec k (map fst m)) as [Hin|Hout]; [exact Hin|].
  apply get_None_keys in Hout. congruence.
Qed.

Lemma In_get {V : Type} (m : Map V) (k : string) (v : V) :
  NoDup (map fst m) -> In (k, v) m -> get m k = Some v.
Proof.
  induction m as [|[k' v'] m IH]; simpl; intros Hnd Hin; [contradiction|].
  inversion Hnd as [|? ? Hk' Hnd']; subst.
  destruct Hin as [[= -> ->]|Hin]; [now rewrite String.eqb_refl|].
  destruct (String.eqb_spec k' k) as [->|_]; [|auto].
  exfalso. apply Hk'. now apply (in_map fst) in Hin.
Qed.

Lemma keys_set {V : Type} (m : Map V) (k : string) (v : V) :
  map fst (set m k v)
  = match get m k with Some _ => map fst m | None => map fst m ++ [k] end.
Proof.
  induction m as [|[k' v'] m IH]; simpl; [reflexivity|].
  destruct (String.eqb k' k) eqn:Hk; simpl; [reflexivity|].
  rewrite IH. now destruct (get m k).
Qed.

Lemma set_NoDup {V : Type} (m : Map V) (k : string) (v : V) :
  NoDup (map fst m) -> NoDup (map fst (set m k v)).
Proof.
  intros Hnd. rewrite keys_set. destruct (get m k) eqn:Hg; [exact Hnd|].
  apply NoDup_snoc; [exact Hnd|]. now apply get_None_keys.
Qed.

Lemma pushTo_NoDup (m : Map (list A)) (k : string) (x : A) :
  NoDup (mkeys m) -> NoDup (mkeys (pushTo m k x)).
Proof. intros Hnd. unfold pushTo. destruct (get m k); now apply set_NoDup. Qed.

Lemma get_pushTo (m : Map (list A)) (k k' : string) (x : A) :
  get (pushTo m k x) k'
  = if String.eqb k k'
    then Some (match get m k with Some g => g ++ [x] | None => [x] end)
    else get m k'.
Proof.
  unfold pushTo. destruct (String.eqb_spec k k') as [<-|Hne].
  - destruct (get m k); apply get_set_eq.
  - destruct (get m k); now apply get_set_ne.
Qed.

Variable skip : A -> bool.
Variable key : A -> string.

(** The array found under [k] after the loop, given the one found before. *)
Let extend (before : option (list A)) (filed : list A) : option (list A) :=
  match before, filed with
  | None, [] => None
  | None, _ => Some filed
  | Some g, _ => Some (g ++ filed)
  end.

Lemma grouping_get (l : list A) (m : Map (list A)) (k : string) :
  get (fold_left (fun groups x => if skip x then groups else pushTo groups (key x) x) l m) k
  = extend (get m k) (filedUnder skip key l k).
Proof.
  revert m. induction l as [|x l IH]; intros m; cbn [fold_left].
  - unfold filedUnder. simpl. destruct (get m k) as [g|]; simpl; [|reflexivity].
    now rewrite app_nil_r.
  - rewrite IH. unfold filedUnder. cbn [filter]. destruct (skip x); cbn [negb andb].
    + reflexivity.
    + rewrite get_pushTo. destruct (String.eqb_spec (key x) k) as [->|Hne]; [|reflexivity].
      destruct (get m k) as [g|]; unfold extend; [now rewrite <- app_assoc|reflexivity].
Qed.

Lemma grouping_NoDup (l : list A) (m : Map (list A)) :
  NoDup (mkeys m) ->
  NoDup (mkeys (fold_left (fun groups x => if skip x then groups
                                           else pushTo groups (key x) x) l m)).
Proof.
  revert m. apply (fold_left_inv (fun m => NoDup (mkeys m))).
  intros groups x Hnd. destruct (skip x); [exact Hnd|].
  now apply pushTo_NoDup.
Qed.

(** The loop started on the empty map: under every key, in the order of
    the input, exactly the elements filed under it; no key twice. *)
Lemma grouping_spec (l : list A) :
  let groups := fold_left (fun groups x => if skip x then groups
                                           else pushTo groups (key x) x) l [] in
  NoDup (mkeys groups)
  /\ (forall k g, In (k, g) groups <-> g <> [] /\ g = filedUnder skip key l k).
Proof.
  intros groups. assert (Hnd : NoDup (mkeys groups)) by (apply grouping_NoDup; constructor).
  split; [exact Hnd|]. intros k g.
  pose proof (grouping_get l [] k) as Hget. fold groups in Hget. cbn [get] in Hget.
  split.
  - intros Hin. apply (In_get _ _ _ Hnd) in Hin. rewrite Hin in Hget.
    destruct (filedUnder skip key l k); [discriminate|].
    injection Hget as ->. split; [discriminate|reflexivity].
  - intros [Hne ->]. destruct (filedUnder skip key l k) eqn:Hf; [contradiction|].
    simpl in Hget. clear Hne.
    revert Hget. generalize (a :: l0). intros g Hget. clear -Hget.
    induction groups as [|[k' g'] groups IH]; simpl in *; [discriminate|].
    destruct (String.eqb_spec k' k) as [->|_]; [injection Hget as ->; now left|].
    right. auto.
Qed.
End GroupingFacts.

Section GroupingSpec.
Import JS UrlNormalizer Duplicates.
Local Open Scope list_scope.
Context `{Platform}.

Lemma fold_left_ext {A B : Type} (f g : B -> A -> B) (l : list A) (b : B) :
  (forall b a, f b a = g b a) -> fold_left f l b = fold_left g l b.
Proof.
  intros Hfg. revert b. induction l as [|a l IH]; intros b; simpl; [reflexivity|].
  now rewrite Hfg, IH.
Qed.

Lemma NoDup_map_filter {A K : Type} (key : A -> K) (keep : A -> bool) :
  forall xs : list A, NoDup (map key xs) -> NoDup (map key (filter keep xs)).
Proof.
  intros xs. induction xs as [|x xs IH]; cbn [map filter]; intros Hnd; [constructor|].
  apply NoDup_cons_iff in Hnd. destruct Hnd as [Hx Hnd].
  destruct (keep x); cbn [map]; [|now apply IH].
  apply NoDup_cons; [|now apply IH].
  rewrite in_map_iff. intros (y & Hy & Hin). apply filter_In in Hin.
  apply Hx. rewrite <- Hy. apply in_map. exact (proj1 Hin).
Qed.

(** The bookmark loops, written with [noUrl] and [urlOf]. *)
Lemma bookmark_loop (key : string -> string) (bookmarks : list BookmarkNode.t) :
  fold_left
    (fun groups bookmark =>
       match BookmarkNode.url bookmark with
       | None => groups
       | Some url =>
           if negb (truthy url) then groups else pushTo groups (key url) bookmark
       end)
    bookmarks []
  = fold_left
      (fun groups b => if noUrl b then groups else pushTo groups (key (urlOf b)) b)
      bookmarks [].
Proof.
  apply fold_left_ext. intros groups b. unfold noUrl, urlOf.
  destruct (BookmarkNode.url b) as [u|]; reflexivity.
Qed.

(** X1. [groupTabsByDomain] and [groupBookmarksByDomain] return a map in
    which no domain occurs twice and which holds, under each domain, exactly
    the tabs that are not internal pages (the bookmarks that have a non-empty
    address) of that domain, in the order of the input; a domain without such
    an element is not a key. *)
Theorem group_by_domain_spec (tabs : list TabInfo.t) (bookmarks : list BookmarkNode.t) :
  (NoDup (map fst (groupTabsByDomain tabs))
   /\ forall d g,
       In (d, g) (groupTabsByDomain tabs)
       <-> g <> []
           /\ g = filedUnder (fun t => isInternalUrl (TabInfo.url t))
                             (fun t => getDomain (TabInfo.url t)) tabs d)
  /\ (NoDup (map fst (groupBookmarksByDomain bookmarks))
      /\ forall d g,
          In (d, g) (groupBookmarksByDomain bookmarks)
          <-> g <> [] /\ g = filedUnder noUrl (fun b => getDomain (urlOf b)) bookmarks d).
Proof.
  split.
  - exact (grouping_spec (fun t => isInternalUrl (TabInfo.url t))
                         (fun t => getDomain (TabInfo.url t)) tabs).
  - unfold groupBookmarksByDomain. rewrite (bookmark_loop getDomain).
    exact (grouping_spec noUrl (fun b => getDomain (urlOf b)) bookmarks).
Qed.

Lemma filedUnder_key {A : Type} (skip : A -> bool) (key : A -> string)
      (l : list A) (k : string) (x : A) :
  In x (filedUnder skip key l k) <-> In x l /\ skip x = false /\ key x = k.
Proof.
  unfold filedUnder. rewrite filter_In, andb_true_iff, negb_true_iff, String.eqb_eq.
  tauto.
Qed.

(** The result of the two exact-duplicate finders, for any grouping key and
    any comparator. *)
Lemma duplicates_of_groups {A G : Type} (skip : A -> bool) (key : A -> string)
      (cmp : A -> A -> Z) (mk : string -> list A -> G)
      (keyOf : G -> string) (members : G -> list A) (l : list A) :
  (forall k g, keyOf (mk k g) = k) ->
  (forall k g, members (mk k g) = g) ->
  let result :=
    map (fun '(k, g) => mk k (sort cmp g))
        (filter (fun '(_, g) => len g >? 1)
                (fold_left (fun groups x => if skip x then groups
                                            else pushTo groups (key x) x) l [])) in
  NoDup (map keyOf result)
  /\ (forall g, In g result ->
                members g = sort cmp (filedUnder skip key l (keyOf g)))
  /\ (forall k, (2 <= List.length (filedUnder skip key l k))%nat
                <-> exists g, In g result /\ keyOf g = k)
  /\ (forall g1 g2 x, In g1 result -> In g2 result ->
                      In x (members g1) -> In x (members g2) -> g1 = g2).
Proof.
  intros HkeyOf Hmembers result.
  destruct (grouping_spec skip key l) as [Hnd Hin]. cbn zeta in Hnd, Hin.
  set (groups := fold_left (fun groups x => if skip x then groups
                                            else pushTo groups (key x) x) l []) in *.
  assert (Hres : forall g, In g result <->
                           exists k, (2 <= List.length (filedUnder skip key l k))%nat
                                     /\ g = mk k (sort cmp (filedUnder skip key l k))).
  { intros g. unfold result. rewrite in_map_iff. split.
    - intros ([k m] & <- & Hf). apply filter_In in Hf. destruct Hf as [Hf Hbig].
      apply Hin in Hf. destruct Hf as [_ ->]. exists k. split; [|reflexivity].
      unfold len in Hbig. lia.
    - intros (k & Hbig & ->). exists (k, filedUnder skip key l k). split; [reflexivity|].
      apply filter_In. split.
      + apply Hin. split; [|reflexivity]. intros Hnil. rewrite Hnil in Hbig.
        simpl in Hbig. lia.
      + unfold len. apply Z.gtb_lt. lia. }
  assert (Hkeys : NoDup (map keyOf result)).
  { unfold result. rewrite map_map.
    rewrite (map_ext _ fst) by (intros [k g]; apply HkeyOf).
    now apply NoDup_map_filter. }
  split; [exact Hkeys|]. split; [|split].
  - intros g Hg. apply Hres in Hg. destruct Hg as (k & _ & ->).
    now rewrite HkeyOf, Hmembers.
  - intros k. split.
    + intros Hbig. exists (mk k (sort cmp (filedUnder skip key l k))).
      split; [|apply HkeyOf]. apply Hres. now exists k.
    + intros (g & Hg & <-). apply Hres in Hg. destruct Hg as (k & Hbig & ->).
      now rewrite HkeyOf.
  - intros g1 g2 x Hg1 Hg2 Hx1 Hx2.
    apply (NoDup_map_eq keyOf result); auto.
    apply Hres in Hg1, Hg2.
    destruct Hg1 as (k1 & _ & ->), Hg2 as (k2 & _ & ->).
    rewrite Hmembers in Hx1, Hx2. rewrite !HkeyOf.
    apply (Permutation_in _ (sort_perm cmp _)) in Hx1, Hx2.
    apply filedUnder_key in Hx1, Hx2. destruct Hx1 as (_ & _ & <-). tauto.
Qed.

(** X2. [findDuplicateTabs] reports every set of duplicates exactly once:
    no normalized address labels two groups; the members of a group are all
    the tabs of the input that are not internal pages and normalize to the
    group's address, sorted by id; an address has a group exactly when two or
    more such tabs normalize to it; and no tab is a member of two groups. *)
Theorem findDuplicateTabs_spec (tabs : list TabInfo.t) :
  NoDup (map DuplicateGroup.normalizedUrl (findDuplicateTabs tabs))
  /\ (forall g, In g (findDuplicateTabs tabs) ->
                DuplicateGroup.tabs g
                = sort (fun a b => TabInfo.id a - TabInfo.id b)
                       (tabsAt tabs (DuplicateGroup.normalizedUrl g)))
  /\ (forall k, (2 <= List.length (tabsAt tabs k))%nat
                <-> exists g, In g (findDuplicateTabs tabs)
                              /\ DuplicateGroup.normalizedUrl g = k)
  /\ (forall g1 g2 t, In g1 (findDuplicateTabs tabs) -> In g2 (findDuplicateTabs tabs) ->
                      In t (DuplicateGroup.tabs g1) -> In t (DuplicateGroup.tabs g2) ->
                      g1 = g2).
Proof.
  apply (duplicates_of_groups
           (fun t => isInternalUrl (TabInfo.url t))
           (fun t => normalizeUrl (TabInfo.url t) noOptions)
           (fun a b => TabInfo.id a - TabInfo.id b)
           DuplicateGroup.mk DuplicateGroup.normalizedUrl DuplicateGroup.tabs tabs);
    reflexivity.
Qed.

(** X3. [findDuplicateBookmarks] reports every set of duplicates exactly
    once: no normalized address labels two groups; the members of a group are
    all the bookmarks of the input that have a non-empty address normalizing
    to the group's address, sorted by [dateAdded ?? 0]; an address has a group
    exactly when two or more such bookmarks normalize to it; and no bookmark
    is a member of two groups. *)
Theorem findDuplicateBookmarks_spec (bookmarks : list BookmarkNode.t) :
  NoDup (map BookmarkDuplicateGroup.normalizedUrl (findDuplicateBookmarks bookmarks))
  /\ (forall g, In g (findDuplicateBookmarks bookmarks) ->
                BookmarkDuplicateGroup.bookmarks g
                = sort (fun a b => orZero (BookmarkNode.dateAdded a)
                                   - orZero (BookmarkNode.dateAdded b))
                       (bookmarksAt bookmarks (BookmarkDuplicateGroup.normalizedUrl g)))
  /\ (forall k, (2 <= List.length (bookmarksAt bookmarks k))%nat
                <-> exists g, In g (findDuplicateBookmarks bookmarks)
                              /\ BookmarkDuplicateGroup.normalizedUrl g = k)
  /\ (forall g1 g2 b, In g1 (findDuplicateBookmarks bookmarks) ->
                      In g2 (findDuplicateBookmarks bookmarks) ->
                      In b (BookmarkDuplicateGroup.bookmarks g1) ->
                      In b (BookmarkDuplicateGroup.bookmarks g2) -> g1 = g2).
Proof.
  unfold findDuplicateBookmarks.
  rewrite (bookmark_loop (fun url => normalizeUrl url noOptions)).
  apply (duplicates_of_groups
           noUrl (fun b => normalizeUrl (urlOf b) noOptions)
           (fun a b => orZero (BookmarkNode.dateAdded a)
                       - orZero (BookmarkNode.dateAdded b))
           BookmarkDuplicateGroup.mk BookmarkDuplicateGroup.normalizedUrl
           BookmarkDuplicateGroup.bookmarks bookmarks);
    reflexivity.
Qed.
End GroupingSpec.

(** ** Removal after grouping *)

Section RemovalAfterGrouping.
Import JS UrlNormalizer Duplicates.
Local Open Scope list_scope.
Context `{Platform}.

Lemma NoDup_map_perm {A B : Type} (f : A -> B) (l l' : list A) :
  Permutation l l' -> NoDup (map f l') -> NoDup (map f l).
Proof.
  intros Hp Hnd. eapply Permutation_NoDup; [|exact Hnd].
  apply Permutation_map. now symmetry.
Qed.

Lemma tabs_group_shape (tabs : list TabInfo.t) (g : DuplicateGroup.t) :
  NoDup (map TabInfo.id tabs) ->
  In g (findDuplicateTabs tabs) ->
  NoDup (map TabInfo.id (DuplicateGroup.tabs g))
  /\ ascendingBy TabInfo.id (DuplicateGroup.tabs g)
  /\ (forall t, In t (DuplicateGroup.tabs g) ->
                In t tabs /\ isInternalUrl (TabInfo.url t) = false
                /\ normalizeUrl (TabInfo.url t) noOptions = DuplicateGroup.normalizedUrl g).
Proof.
  intros Hnd Hg.
  destruct (duplicates_of_groups
              (fun t => isInternalUrl (TabInfo.url t))
              (fun t => normalizeUrl (TabInfo.url t) noOptions)
              (fun a b => TabInfo.id a - TabInfo.id b)
              DuplicateGroup.mk DuplicateGroup.normalizedUrl DuplicateGroup.tabs tabs
              (fun _ _ => eq_refl) (fun _ _ => eq_refl)) as (_ & Hmem & _).
  rewrite (Hmem g Hg). split; [|split].
  - eapply NoDup_map_perm; [apply sort_perm|]. now apply NoDup_map_filter.
  - apply sort_by_key_ascending.
  - intros t Ht. apply (Permutation_in _ (sort_perm _ _)) in Ht.
    now apply filedUnder_key in Ht.
Qed.

(** X4. Closing the tabs that [getDuplicateTabsToRemove] selects from the
    groups of [findDuplicateTabs] never closes every copy of a page: the tabs
    having pairwise distinct ids, each selected id is the id of an unpinned
    tab of the input, and a tab of the input with the same normalized address
    and a smaller id is not selected. *)
Theorem removal_keeps_a_copy (tabs : list TabInfo.t) :
  NoDup (map TabInfo.id tabs) ->
  forall r,
    In r (getDuplicateTabsToRemove (findDuplicateTabs tabs)) ->
    exists t k,
      In t tabs /\ In k tabs
      /\ TabInfo.id t = r /\ TabInfo.pinned t = false
      /\ normalizeUrl (TabInfo.url k) noOptions = normalizeUrl (TabInfo.url t) noOptions
      /\ TabInfo.id k < TabInfo.id t
      /\ ~ In (TabInfo.id k) (getDuplicateTabsToRemove (findDuplicateTabs tabs)).
Proof.
  intros Hnd r Hr. rewrite getDuplicateTabsToRemove_eq in *.
  unfold removalCandidates in Hr. apply in_flat_map in Hr.
  destruct Hr as (g & Hg & Hr). apply in_map_iff in Hr. destruct Hr as (t & Hid & Ht).
  apply filter_In in Ht. destruct Ht as [Ht Hunpinned]. apply negb_true_iff in Hunpinned.
  destruct (tabs_group_shape tabs g Hnd Hg) as (Hndg & Hasc & Hmem).
  destruct (DuplicateGroup.tabs g) as [|k rest] eqn:Htabs; [contradiction|].
  cbn [tl] in Ht. cbn [map] in Hndg.
  destruct (Hmem t (or_intror Ht)) as (Htin & _ & Htkey).
  destruct (Hmem k (or_introl eq_refl)) as (Hkin & _ & Hkkey).
  exists t, k. repeat (split; [assumption || congruence|]). split.
  - apply StronglySorted_inv in Hasc. destruct Hasc as [_ Hle].
    rewrite Forall_forall in Hle. specialize (Hle t Ht).
    inversion Hndg as [|? ? Hk _]; subst.
    assert (TabInfo.id k <> TabInfo.id t)
      by (intros Heq; apply Hk; rewrite Heq; now apply in_map).
    lia.
  - unfold removalCandidates. intros Hk. apply in_flat_map in Hk.
    destruct Hk as (g' & Hg' & Hk). apply in_map_iff in Hk.
    destruct Hk as (t' & Hid' & Ht'). apply filter_In in Ht'. destruct Ht' as [Ht' _].
    pose proof (in_tl _ _ Ht') as Hin'.
    destruct (tabs_group_shape tabs g' Hnd Hg') as (_ & _ & Hmem').
    assert (t' = k) as ->
      by (apply (NoDup_map_eq TabInfo.id tabs); auto; apply (Hmem' t' Hin')).
    assert (g' = g) as ->.
    { destruct (duplicates_of_groups
                  (fun t => isInternalUrl (TabInfo.url t))
                  (fun t => normalizeUrl (TabInfo.url t) noOptions)
                  (fun a b => TabInfo.id a - TabInfo.id b)
                  DuplicateGroup.mk DuplicateGroup.normalizedUrl DuplicateGroup.tabs tabs
                  (fun _ _ => eq_refl) (fun _ _ => eq_refl)) as (_ & _ & _ & Hone).
      apply (Hone g' g k Hg' Hg Hin'). rewrite Htabs. now left. }
    rewrite Htabs in Ht'. cbn [tl] in Ht'.
    inversion Hndg as [|? ? Hkrest _]; subst. apply Hkrest. now apply in_map.
Qed.
End RemovalAfterGrouping.

Section BookmarkRemoval.
Import JS UrlNormalizer Duplicates.
Local Open Scope list_scope.
Context `{Platform}.

Lemma bookmark_index_loop (pre suf : list BookmarkNode.t) (acc : list string) :
  fold_left
    (fun toRemove i =>
       match nth_error (pre ++ suf) i with
       | Some bookmark => toRemove ++ [BookmarkNode.id bookmark]
       | None => toRemove
       end)
    (seq (List.length pre) (List.length suf)) acc
  = acc ++ map BookmarkNode.id suf.
Proof.
  revert pre acc. induction suf as [|x suf IH]; intros pre acc; simpl.
  - now rewrite app_nil_r.
  - rewrite nth_error_app2 by lia. rewrite Nat.sub_diag. simpl.
    replace (pre ++ x :: suf) with ((pre ++ [x]) ++ suf) by now rewrite <- app_assoc.
    replace (S (List.length pre)) with (List.length (pre ++ [x]))
      by (rewrite length_app; simpl; lia).
    rewrite IH. now rewrite <- app_assoc.
Qed.

Lemma bookmark_groups_loop (groups : list BookmarkDuplicateGroup.t) (acc : list string) :
  fold_left
    (fun toRemove group =>
       fold_left
         (fun toRemove i =>
            match nth_error (BookmarkDuplicateGroup.bookmarks group) i with
            | Some bookmark => toRemove ++ [BookmarkNode.id bookmark]
            | None => toRemove
            end)
         (seq 1 (List.length (BookmarkDuplicateGroup.bookmarks group) - 1)) toRemove)
    groups acc
  = acc ++ flat_map (fun g => map BookmarkNode.id (tl (BookmarkDuplicateGroup.bookmarks g)))
                    groups.
Proof.
  revert acc. induction groups as [|g groups IH]; intros acc; cbn [fold_left flat_map].
  - now rewrite app_nil_r.
  - rewrite IH, app_assoc. f_equal.
    destruct (BookmarkDuplicateGroup.bookmarks g) as [|x suf]; simpl.
    + now rewrite app_nil_r.
    + rewrite Nat.sub_0_r. exact (bookmark_index_loop [x] suf acc).
Qed.

(** X5. [getDuplicateBookmarksToRemove] returns the ids of the members
    after the first of every group, in order.  Applied to the groups of
    [findDuplicateBookmarks] it selects only bookmarks of the input that have
    a duplicate at least as old which is the first of their group: the
    address of both normalizes to the same string and the first one's
    [dateAdded ?? 0] is not greater. *)
Theorem getDuplicateBookmarksToRemove_spec
        (groups : list BookmarkDuplicateGroup.t) (bookmarks : list BookmarkNode.t) :
  getDuplicateBookmarksToRemove groups
  = flat_map (fun g => map BookmarkNode.id (tl (BookmarkDuplicateGroup.bookmarks g))) groups
  /\ forall r,
      In r (getDuplicateBookmarksToRemove (findDuplicateBookmarks bookmarks)) ->
      exists g k b,
        In g (findDuplicateBookmarks bookmarks)
        /\ hd_error (BookmarkDuplicateGroup.bookmarks g) = Some k
        /\ In b (tl (BookmarkDuplicateGroup.bookmarks g))
        /\ BookmarkNode.id b = r
        /\ In b bookmarks /\ In k bookmarks
        /\ normalizeUrl (urlOf k) noOptions = normalizeUrl (urlOf b) noOptions
        /\ orZero (BookmarkNode.dateAdded k) <= orZero (BookmarkNode.dateAdded b).
Proof.
  split; [exact (bookmark_groups_loop groups [])|].
  intros r Hr. unfold getDuplicateBookmarksToRemove in Hr.
  rewrite bookmark_groups_loop in Hr. cbn [app] in Hr.
  apply in_flat_map in Hr. destruct Hr as (g & Hg & Hr).
  apply in_map_iff in Hr. destruct Hr as (b & Hid & Hb).
  pose proof Hg as Hshape. unfold findDuplicateBookmarks in Hshape.
  rewrite (bookmark_loop (fun url => normalizeUrl url noOptions)) in Hshape.
  destruct (duplicates_of_groups
              noUrl (fun b => normalizeUrl (urlOf b) noOptions)
              (fun a b => orZero (BookmarkNode.dateAdded a)
                          - orZero (BookmarkNode.dateAdded b))
              BookmarkDuplicateGroup.mk BookmarkDuplicateGroup.normalizedUrl
              BookmarkDuplicateGroup.bookmarks bookmarks
              (fun _ _ => eq_refl) (fun _ _ => eq_refl)) as (_ & Hmem & _).
  specialize (Hmem g Hshape).
  assert (Hasc : ascendingBy (fun b => orZero (BookmarkNode.dateAdded b))
                             (BookmarkDuplicateGroup.bookmarks g))
    by (rewrite Hmem; apply (sort_by_key_ascending
                               (fun b => orZero (BookmarkNode.dateAdded b)))).
  assert (Hfrom : forall x, In x (BookmarkDuplicateGroup.bookmarks g) ->
                            In x bookmarks
                            /\ normalizeUrl (urlOf x) noOptions
                               = BookmarkDuplicateGroup.normalizedUrl g).
  { intros x Hx. rewrite Hmem in Hx. apply (Permutation_in _ (sort_perm _ _)) in Hx.
    apply filedUnder_key in Hx. tauto. }
  destruct (BookmarkDuplicateGroup.bookmarks g) as [|k rest] eqn:Hbs; [contradiction|].
  cbn [tl] in Hb. exists g, k, b.
  destruct (Hfrom b (or_intror Hb)) as [Hbin Hbkey].
  destruct (Hfrom k (or_introl eq_refl)) as [Hkin Hkkey].
  split; [exact Hg|]. rewrite Hbs. cbn [hd_error tl].
  repeat (split; [reflexivity || assumption || congruence|]).
  apply StronglySorted_inv in Hasc. destruct Hasc as [_ Hle].
  rewrite Forall_forall in Hle. exact (Hle b Hb).
Qed.
End BookmarkRemoval.

(** ** Near-duplicate groups *)

Section PartOf.
Local Open Scope list_scope.
Context {A : Type}.

Lemma partOf_refl (l : list A) : partOf l l.
Proof. exists []. now rewrite app_nil_r. Qed.

Lemma partOf_perm (l1 l2 l : list A) : Permutation l1 l2 -> partOf l l1 -> partOf l l2.
Proof. intros Hp [rest Hr]. exists rest. now rewrite Hr. Qed.

Lemma partOf_perm_l (l l' m : list A) : Permutation l l' -> partOf l' m -> partOf l m.
Proof. intros Hp [rest Hr]. exists rest. now rewrite Hp. Qed.

Lemma partOf_trans (l1 l2 l3 : list A) : partOf l1 l2 -> partOf l2 l3 -> partOf l1 l3.
Proof.
  intros [r1 H1] [r2 H2]. exists (r1 ++ r2). rewrite app_assoc, H1. exact H2.
Qed.

Lemma partOf_app (l1 l2 m1 m2 : list A) :
  partOf l1 m1 -> partOf l2 m2 -> partOf (l1 ++ l2) (m1 ++ m2).
Proof.
  intros [r1 H1] [r2 H2]. exists (r1 ++ r2). rewrite <- H1, <- H2.
  rewrite <- !app_assoc. apply Permutation_app_head.
  rewrite !app_assoc. apply Permutation_app_tail. apply Permutation_app_comm.
Qed.

Lemma partOf_nil (l : list A) : partOf [] l.
Proof. now exists l. Qed.

Lemma partOf_filter (p : A -> bool) (l : list A) : partOf (filter p l) l.
Proof.
  induction l as [|x l [rest IH]]; [apply partOf_nil|]. simpl. destruct (p x).
  - exists rest. simpl. now constructor.
  - exists (x :: rest).
    eapply perm_trans; [symmetry; apply Permutation_middle|now constructor].
Qed.

Lemma partOf_concat_filter (p : list A -> bool) (ls : list (list A)) :
  partOf (List.concat (filter p ls)) (List.concat ls).
Proof.
  induction ls as [|c ls IH]; [apply partOf_nil|]. simpl. destruct (p c); simpl.
  - apply partOf_app; [apply partOf_refl|exact IH].
  - apply (partOf_app [] _ c _); [apply partOf_nil|exact IH].
Qed.

Lemma partOf_flat_map {B : Type} (f g : B -> list A) (l : list B) :
  (forall x, partOf (f x) (g x)) -> partOf (flat_map f l) (flat_map g l).
Proof.
  intros Hfg. induction l as [|x l IH]; [apply partOf_refl|].
  simpl. now apply partOf_app.
Qed.

Lemma partOf_In (l l' : list A) (x : A) : partOf l l' -> In x l -> In x l'.
Proof.
  intros [rest Hp] Hx. apply (Permutation_in _ Hp). apply in_or_app. now left.
Qed.
End PartOf.

Section NearDuplicateMembers.
Import JS UrlNormalizer Duplicates.
Local Open Scope list_scope.
Context `{Platform}.

Lemma set_concat {A : Type} (m : Map (list A)) (k : string) (x : A) :
  Permutation
    (List.concat (map snd (pushTo m k x)))
    (List.concat (map snd m) ++ [x]).
Proof.
  unfold pushTo. induction m as [|[k' g'] m IH]; [reflexivity|].
  cbn [get]. destruct (String.eqb k' k) eqn:Hk.
  - cbn [set]. rewrite Hk. cbn [map snd List.concat].
    rewrite <- !app_assoc. apply Permutation_app_head. apply Permutation_app_comm.
  - destruct (get m k) as [g|]; cbn [set]; rewrite Hk; cbn [map snd List.concat];
      rewrite <- app_assoc; apply Permutation_app_head; exact IH.
Qed.

Lemma grouping_concat {A : Type} (skip : A -> bool) (key : A -> string)
      (l : list A) (m : Map (list A)) :
  Permutation
    (List.concat
       (map snd (fold_left (fun groups x => if skip x then groups
                                            else pushTo groups (key x) x) l m)))
    (List.concat (map snd m) ++ filter (fun x => negb (skip x)) l).
Proof.
  revert m. induction l as [|x l IH]; intros m; cbn [fold_left filter].
  - now rewrite app_nil_r.
  - rewrite IH. destruct (skip x); cbn [negb]; [reflexivity|].
    rewrite set_concat, <- app_assoc. reflexivity.
Qed.

Lemma joinCluster_concat (threshold : Q) (tab : TabInfo.t)
      (clusters clusters' : list (list TabInfo.t)) :
  joinCluster threshold tab clusters = Some clusters' ->
  Permutation (List.concat clusters') (List.concat clusters ++ [tab]).
Proof.
  revert clusters'. induction clusters as [|c cs IH]; intros clusters' Hj;
    cbn [joinCluster] in Hj; [discriminate|].
  destruct (match c with
            | representative :: _ =>
                areSimilarUrls (TabInfo.url tab) (TabInfo.url representative) threshold
            | [] => false
            end).
  - injection Hj as <-. cbn [List.concat]. rewrite <- !app_assoc.
    apply Permutation_app_head. apply Permutation_app_comm.
  - destruct (joinCluster threshold tab cs) as [cs'|]; [|discriminate].
    injection Hj as <-. cbn [List.concat]. rewrite <- app_assoc.
    apply Permutation_app_head. now apply IH.
Qed.

(** The clusters of a domain partition hold every tab of the partition
    once. *)
Lemma clustersOf_concat (threshold : Q) (domainTabs : list TabInfo.t) :
  Permutation (List.concat (clustersOf threshold domainTabs)) domainTabs.
Proof.
  unfold clustersOf.
  enough (Hgen : forall clusters,
             Permutation (List.concat (fold_left (clusterTab threshold) domainTabs clusters))
                         (List.concat clusters ++ domainTabs))
    by exact (Hgen []).
  induction domainTabs as [|t l IH]; intros clusters; cbn [fold_left].
  - now rewrite app_nil_r.
  - rewrite IH. unfold clusterTab.
    destruct (joinCluster threshold t clusters) as [clusters'|] eqn:Hj.
    + rewrite (joinCluster_concat _ _ _ _ Hj), <- app_assoc. reflexivity.
    + rewrite concat_app. cbn [List.concat]. rewrite app_nil_r, <- app_assoc. reflexivity.
Qed.

Lemma flat_map_flat_map {A B C : Type} (f : A -> list B) (g : B -> list C) (l : list A) :
  flat_map g (flat_map f l) = flat_map (fun x => flat_map g (f x)) l.
Proof.
  induction l as [|x l IH]; simpl; [reflexivity|]. now rewrite flat_map_app, IH.
Qed.

Lemma allMembers_of_clusters (clusters : list (list TabInfo.t)) :
  allMembers
    (map (fun cluster =>
            DuplicateGroup.mk (normalizeUrl (firstUrl cluster) noOptions) cluster)
         clusters)
  = List.concat clusters.
Proof.
  unfold allMembers. induction clusters as [|c cs IH]; simpl; [reflexivity|].
  now rewrite IH.
Qed.

(** X6. Every group that [findNearDuplicateTabs] reports is labelled with
    the normalized address of its first member and is made of tabs of the
    input that are not internal pages and have one and the same domain
    ([getDomain]); and the groups together hold no tab more often than the
    input does: a tab is reported in at most one group. *)
Theorem findNearDuplicateTabs_members (tabs : list TabInfo.t) (similarityThreshold : Q) :
  Forall (fun g =>
            DuplicateGroup.normalizedUrl g
            = normalizeUrl (firstUrl (DuplicateGroup.tabs g)) noOptions
            /\ exists d,
                Forall (fun t => In t tabs
                                 /\ isInternalUrl (TabInfo.url t) = false
                                 /\ getDomain (TabInfo.url t) = d)
                       (DuplicateGroup.tabs g))
         (findNearDuplicateTabs tabs similarityThreshold)
  /\ partOf (allMembers (findNearDuplicateTabs tabs similarityThreshold)) tabs.
Proof.
  destruct (grouping_spec (fun t => isInternalUrl (TabInfo.url t))
                          (fun t => getDomain (TabInfo.url t)) tabs) as [_ Hgroups].
  cbn zeta in Hgroups. fold (groupTabsByDomain tabs) in Hgroups.
  split.
  - apply Forall_forall. intros g Hg. unfold findNearDuplicateTabs in Hg.
    apply in_flat_map in Hg. destruct Hg as ([d domainTabs] & Hd & Hg).
    destruct (len domainTabs <? 2); [contradiction|].
    apply in_map_iff in Hg. destruct Hg as (cluster & <- & Hc).
    apply filter_In in Hc. destruct Hc as [Hc _]. cbn [DuplicateGroup.normalizedUrl
      DuplicateGroup.tabs]. split; [reflexivity|]. exists d.
    apply Forall_forall. intros t Ht.
    assert (Hin : In t domainTabs).
    { apply (Permutation_in _ (clustersOf_concat similarityThreshold domainTabs)).
      apply in_concat. now exists cluster. }
    apply Hgroups in Hd. destruct Hd as [_ ->].
    now apply filedUnder_key in Hin.
  - unfold findNearDuplicateTabs, allMembers. rewrite flat_map_flat_map.
    apply partOf_trans with (flat_map snd (groupTabsByDomain tabs)).
    + apply partOf_flat_map. intros [d domainTabs]. cbn [snd].
      destruct (len domainTabs <? 2); [apply partOf_nil|].
      fold (allMembers
              (map (fun cluster =>
                      DuplicateGroup.mk (normalizeUrl (firstUrl cluster) noOptions) cluster)
                   (filter (fun cluster => len cluster >? 1)
                           (clustersOf similarityThreshold domainTabs)))).
      rewrite allMembers_of_clusters.
      apply partOf_perm with (List.concat (clustersOf similarityThreshold domainTabs));
        [apply clustersOf_concat|apply partOf_concat_filter].
    + rewrite flat_map_concat_map. unfold groupTabsByDomain.
      eapply partOf_perm_l; [exact (grouping_concat _ _ tabs [])|].
      apply partOf_filter.
Qed.
End NearDuplicateMembers.

(** ** The similarity predicate as a relation *)

Section SimilarityRelation.
Import JS UrlNormalizer Duplicates.
Local Open Scope list_scope.
Context `{Platform}.

Lemma sameSegment_sym (a b : option string) : sameSegment a b = sameSegment b a.
Proof. destruct a, b; simpl; auto using String.eqb_sym. Qed.

Lemma countMatches_sym (path1 path2 : list string) (maxLen : Z) :
  countMatches path1 path2 maxLen = countMatches path2 path1 maxLen.
Proof.
  unfold countMatches. apply fold_left_ext. intros m i. now rewrite sameSegment_sym.
Qed.

Lemma alignedMatches_self (path : list string) : alignedMatches path path = len path.
Proof.
  unfold alignedMatches, len. f_equal.
  induction path as [|x path IH]; simpl; [reflexivity|].
  rewrite String.eqb_refl. simpl. now rewrite IH.
Qed.

(** X7. [areSimilarUrls] does not depend on the order of its two
    addresses; an address that does not parse is similar to no address, not
    even to itself; and an address that parses is similar to itself at every
    threshold up to 1. *)
Theorem areSimilarUrls_relation (url1 url2 : string) (threshold : Q) :
  areSimilarUrls url1 url2 threshold = areSimilarUrls url2 url1 threshold
  /\ (URL_parse url1 = None -> areSimilarUrls url1 url2 threshold = false)
  /\ (forall parsed, URL_parse url1 = Some parsed -> (threshold <= 1)%Q ->
                     areSimilarUrls url1 url1 threshold = true).
Proof.
  split; [|split].
  - unfold areSimilarUrls.
    destruct (URL_parse url1) as [p1|], (URL_parse url2) as [p2|]; try reflexivity.
    rewrite (String.eqb_sym (hostname p2)).
    replace (len (segments (pathname p2)) - len (segments (pathname p1)))
      with (- (len (segments (pathname p1)) - len (segments (pathname p2)))) by lia.
    rewrite Z.abs_opp, (Z.max_comm (len (segments (pathname p2)))).
    now rewrite (countMatches_sym (segments (pathname p2))).
  - intros Hp. unfold areSimilarUrls. now rewrite Hp.
  - intros parsed Hp Hth. unfold areSimilarUrls. rewrite Hp, String.eqb_refl.
    cbn [negb]. rewrite Z.sub_diag. cbn [Z.abs Z.gtb Z.compare].
    rewrite Z.max_id.
    destruct (Z.eqb_spec (len (segments (pathname parsed))) 0) as [_|Hpos];
      [reflexivity|].
    pose proof (countMatches_aligned (segments (pathname parsed))
                                     (segments (pathname parsed))) as Hm.
    rewrite Z.max_id in Hm. rewrite Hm, alignedMatches_self.
    apply Qle_bool_iff. apply Qle_shift_div_l.
    + unfold len in *. unfold Qlt. simpl. lia.
    + rewrite <- (Qmult_1_l (inject_Z (len (segments (pathname parsed))))) at 2.
      apply Qmult_le_compat_r; [exact Hth|].
      unfold len. unfold Qle. simpl. lia.
Qed.
End SimilarityRelation.

(** ** More on the normalizer *)

Section TrackingParameters.
Import JS UrlNormalizer.
Local Open Scope list_scope.
Context `{P : Platform}.

Lemma get_Some_keys {V : Type} (m : Map V) (k : string) :
  In k (map fst m) -> exists v, get m k = Some v.
Proof.
  intros Hin. destruct (get m k) as [v|] eqn:Hg; [now exists v|].
  apply get_None_keys in Hg. contradiction.
Qed.

Lemma keys_rev {V : Type} (m : Map V) (k : string) :
  In k (map fst (rev m)) <-> In k (map fst m).
Proof. rewrite map_rev. symmetry. apply in_rev. Qed.

Lemma sortedEntries_perm (opts : NormalizeOptions) (entries : Params) :
  Permutation (sortedEntries opts entries) entries.
Proof.
  unfold sortedEntries. destruct (on (sortParams opts)); [apply sort_perm|reflexivity].
Qed.

End TrackingParameters.

Section DomainOfNormalized.
Import JS UrlNormalizer.
Context `{P : Platform}.
Hypothesis standard : StandardParser P.

(** X9. For a valid http(s) URL, [getDomain] applied to the domain it
    returned gives the same domain again, and the string [normalizeUrl]
    returns with the default options starts with that domain. *)
Theorem domain_of_normalized (url : string) :
  isValidHttpUrl url = true ->
  getDomain (getDomain url) = getDomain url
  /\ exists rest, normalizeUrl url noOptions = (getDomain url ++ rest)%string.
Proof.
  unfold isValidHttpUrl. intros Hvalid.
  destruct (URL_parse url) as [parsed|] eqn:Hp; [|discriminate].
  destruct (http_shape P standard url parsed Hp Hvalid) as [Hhost Hpath].
  split.
  - unfold getDomain at 2 3. rewrite Hp. unfold getDomain.
    destruct (URL_parse (toLowerCase (stripWwwPrefix (hostname parsed))))
      as [again|] eqn:Hagain; [|reflexivity].
    apply (scheme_required P standard) in Hagain.
    pose proof (host_then_rest_unparseable (hostname parsed) "" Hhost eq_refl) as Hno.
    rewrite append_nil_r in Hno. congruence.
  - rewrite (normalizeUrl_http url parsed Hp Hvalid).
    destruct (processPath_default parsed Hpath) as (rest & -> & _).
    unfold getDomain. rewrite Hp.
    destruct (truthy (processSearch DEFAULT_OPTIONS parsed)).
    + exists (rest ++ processSearch DEFAULT_OPTIONS parsed)%string.
      apply append_assoc.
    + now exists rest.
Qed.
End DomainOfNormalized.

Section SplitJoin.
Import JS.
Local Open Scope list_scope.

Lemma string_of_list_ascii_app (l1 l2 : list ascii) :
  string_of_list_ascii (l1 ++ l2)
  = (string_of_list_ascii l1 ++ string_of_list_ascii l2)%string.
Proof. induction l1 as [|c l1 IH]; simpl; [reflexivity|now rewrite IH]. Qed.

Lemma split_aux_acc (sep : ascii) (s : string) (acc : list ascii) :
  split_aux sep s acc
  = match split_aux sep s [] with
    | h :: t => (string_of_list_ascii (rev acc) ++ h)%string :: t
    | [] => []
    end.
Proof.
  revert acc. induction s as [|c s IH]; intros acc; cbn [split_aux].
  - cbn [rev string_of_list_ascii]. now rewrite append_nil_r.
  - destruct (Ascii.eqb c sep).
    + cbn [rev string_of_list_ascii]. now rewrite append_nil_r.
    + rewrite (IH (c :: acc)), (IH [c]).
      destruct (split_aux sep s []) as [|h t]; [reflexivity|].
      cbn [rev app]. rewrite string_of_list_ascii_app. cbn [string_of_list_ascii].
      now rewrite append_assoc.
Qed.

(** [split] by recursion on the string. *)
Lemma split_cons (sep c : ascii) (s : string) :
  split sep (String c s)
  = if Ascii.eqb c sep then EmptyString :: split sep s
    else match split sep s with
         | h :: t => String c h :: t
         | [] => []
         end.
Proof.
  unfold split. cbn [split_aux]. destruct (Ascii.eqb c sep); [reflexivity|].
  rewrite split_aux_acc. destruct (split_aux sep s []); reflexivity.
Qed.

Lemma split_not_nil (sep : ascii) (s : string) : split sep s <> [].
Proof.
  induction s as [|c s IH]; [discriminate|]. rewrite split_cons.
  destruct (Ascii.eqb c sep); [discriminate|].
  destruct (split sep s); [contradiction|discriminate].
Qed.

Lemma join_cons (sep x : string) (l : list string) :
  l <> [] -> join sep (x :: l) = (x ++ sep ++ join sep l)%string.
Proof. destruct l; [contradiction|reflexivity]. Qed.

(** Joining the pieces of a split gives the string back. *)
Lemma join_split (sep : ascii) (s : string) :
  join (String sep EmptyString) (split sep s) = s.
Proof.
  induction s as [|c s IH]; [reflexivity|]. rewrite split_cons.
  destruct (Ascii.eqb_spec c sep) as [->|_].
  - rewrite join_cons by apply split_not_nil. now rewrite IH.
  - pose proof (split_not_nil sep s) as Hne.
    destruct (split sep s) as [|h t]; [contradiction|].
    destruct t as [|h' t].
    + cbn [join String.concat] in *. now rewrite IH.
    + rewrite join_cons in * by discriminate. cbn [String.append] in *. now rewrite IH.
Qed.

Lemma split_pieces (sep : ascii) (s : string) : Forall (noSep sep) (split sep s).
Proof.
  unfold noSep. induction s as [|c s IH]; [repeat constructor|].
  rewrite split_cons. destruct (Ascii.eqb c sep) eqn:Hc.
  - constructor; [reflexivity|exact IH].
  - destruct (split sep s) as [|h t]; [constructor|].
    inversion IH as [|? ? Hh Ht]; subst. constructor; [|exact Ht].
    rewrite split_cons, Hc, Hh. reflexivity.
Qed.

Lemma split_piece_then (sep : ascii) (x rest : string) :
  noSep sep x ->
  split sep (x ++ String sep rest) = x :: split sep rest.
Proof.
  unfold noSep. revert rest. induction x as [|c x IH]; intros rest Hx.
  - cbn [String.append]. rewrite split_cons. now rewrite Ascii.eqb_refl.
  - cbn [String.append]. rewrite split_cons in *.
    destruct (Ascii.eqb c sep); [discriminate|].
    destruct (split sep x) as [|h t] eqn:Hsx; [discriminate|].
    injection Hx as -> ->. rewrite IH by reflexivity. reflexivity.
Qed.

(** Splitting a join of pieces without separator gives the pieces back. *)
Lemma split_join (sep : ascii) (parts : list string) :
  parts <> [] -> Forall (noSep sep) parts ->
  split sep (join (String sep EmptyString) parts) = parts.
Proof.
  induction parts as [|x parts IH]; intros Hne Hall; [contradiction|].
  inversion Hall as [|? ? Hx Hrest]; subst.
  destruct parts as [|y parts]; [exact Hx|].
  rewrite join_cons by discriminate. cbn [String.append].
  rewrite split_piece_then by exact Hx. f_equal. apply IH; [discriminate|exact Hrest].
Qed.

Lemma join_skipn_suffix (sep : string) (n : nat) (parts : list string) :
  exists pre, join sep parts = (pre ++ join sep (skipn n parts))%string.
Proof.
  revert parts. induction n as [|n IH]; intros parts; [now exists EmptyString|].
  destruct parts as [|x parts]; [now exists EmptyString|]. cbn [skipn].
  destruct parts as [|y parts].
  - exists x. rewrite skipn_nil. cbn [join String.concat]. now rewrite append_nil_r.
  - destruct (IH (y :: parts)) as [pre Hpre].
    exists (x ++ sep ++ pre)%string. rewrite join_cons by discriminate.
    rewrite Hpre. now rewrite !append_assoc.
Qed.
End SplitJoin.

Section BaseDomain.
Import JS UrlNormalizer.
Local Open Scope list_scope.
Context `{Platform}.

Lemma Forall_skipn {A : Type} (Q : A -> Prop) (n : nat) (l : list A) :
  Forall Q l -> Forall Q (skipn n l).
Proof.
  intros Hall. rewrite Forall_forall in *. intros x Hx. apply Hall.
  rewrite <- (firstn_skipn n l). apply in_or_app. now right.
Qed.

Lemma lastN_labels (k : nat) (domain : string) :
  (0 < k <= List.length (split "." domain))%nat ->
  (exists pre, domain = (pre ++ join "." (lastN k (split "." domain)))%string)
  /\ split "." (join "." (lastN k (split "." domain))) = lastN k (split "." domain)
  /\ List.length (lastN k (split "." domain)) = k.
Proof.
  intros Hk. unfold lastN.
  assert (Hlen : List.length (skipn (List.length (split "." domain) - k)
                                    (split "." domain)) = k)
    by (rewrite length_skipn; lia).
  split; [|split; [|exact Hlen]].
  - destruct (join_skipn_suffix "." (List.length (split "." domain) - k)
                                (split "." domain)) as [pre Hpre].
    exists pre. rewrite <- Hpre. symmetry. apply (join_split ".").
  - apply (split_join ".").
    + intros Hnil. rewrite Hnil in Hlen. simpl in Hlen. lia.
    + apply Forall_skipn, split_pieces.
Qed.

(** X10. The string [getBaseDomain] returns is an end piece of the domain
    [getDomain] returns, made of its last dot-separated labels: all of them
    when the domain has one or two labels, otherwise the last two or the last
    three. *)
Theorem getBaseDomain_spec (url : string) :
  (exists pre, getDomain url = (pre ++ getBaseDomain url)%string)
  /\ (exists n, split "." (getBaseDomain url) = lastN n (split "." (getDomain url)))
  /\ (Nat.min 2 (List.length (split "." (getDomain url)))
      <= List.length (split "." (getBaseDomain url)) <= 3)%nat.
Proof.
  unfold getBaseDomain. cbn zeta.
  set (domain := getDomain url). set (parts := split "." domain).
  destruct (Z.leb_spec (Z.of_nat (List.length parts)) 2) as [Hle|Hgt].
  - split; [now exists EmptyString|]. fold parts. split; [|lia].
    exists (List.length parts). unfold lastN. now rewrite Nat.sub_diag.
  - destruct (_ && _)%bool.
    + destruct (lastN_labels 3 domain) as ((pre & Hpre) & Hsplit & Hlen);
        [fold parts; lia|]. fold parts in Hpre, Hsplit, Hlen.
      split; [now exists pre|]. rewrite Hsplit, Hlen. split; [now exists 3%nat|lia].
    + destruct (lastN_labels 2 domain) as ((pre & Hpre) & Hsplit & Hlen);
        [fold parts; lia|]. fold parts in Hpre, Hsplit, Hlen.
      split; [now exists pre|]. rewrite Hsplit, Hlen. split; [now exists 2%nat|lia].
Qed.
End BaseDomain.

(** ** More on the batcher *)

Section GreedyBatches.
Import TokenEstimator.
Local Open Scope list_scope.
Context {T : Type} `{Item T}.
Variable budget : Z.

Lemma closedWhenFull_snoc (bs : list (list T)) (last : list T) (item : T) :
  closedWhenFull budget (bs ++ [last]) ->
  budget < estimateBatchTokens last 10 + (estimateTabTokens (url item) (title item) + 10) ->
  closedWhenFull budget ((bs ++ [last]) ++ [[item]]).
Proof.
  induction bs as [|b bs IH]; intros Hc Hfull.
  - cbn. split; [exact Hfull|exact I].
  - cbn [app] in *. destruct (bs ++ [last]) as [|next rest] eqn:Hbs.
    + destruct bs; discriminate.
    + cbn [app closedWhenFull] in *. destruct Hc as [Hhead Hrest].
      split; [exact Hhead|]. now apply IH.
Qed.

Lemma closedWhenFull_grow (bs : list (list T)) (first item : T) (more : list T) :
  closedWhenFull budget (bs ++ [first :: more]) ->
  closedWhenFull budget (bs ++ [(first :: more) ++ [item]]).
Proof.
  induction bs as [|b bs IH]; intros Hc; [exact I|].
  cbn [app] in *. destruct bs as [|b' bs].
  - cbn in *. exact Hc.
  - cbn [app closedWhenFull] in *. destruct Hc as [Hhead Hrest].
    split; [exact Hhead|]. now apply IH.
Qed.

Lemma step_closedWhenFull (a : Acc) (item : T) :
  currentTokens a = estimateBatchTokens (currentBatch a) 10 ->
  (currentBatch a = [] -> batches a = []) ->
  closedWhenFull budget (batches a ++ [currentBatch a]) ->
  let a' := step budget a item in
  currentTokens a' = estimateBatchTokens (currentBatch a') 10
  /\ currentBatch a' <> []
  /\ closedWhenFull budget (batches a' ++ [currentBatch a']).
Proof.
  intros Htok Hstart Hc. cbn zeta. unfold step.
  set (itemTokens := estimateTabTokens (url item) (title item) + 10).
  destruct ((currentTokens a + itemTokens >? budget)
            && (Z.of_nat (List.length (currentBatch a)) >? 0))%bool eqn:Hflush;
    cbn [batches currentBatch currentTokens].
  - apply andb_true_iff in Hflush. destruct Hflush as [Hgt _].
    apply Z.gtb_lt in Hgt. split; [reflexivity|]. split; [discriminate|].
    apply closedWhenFull_snoc; [exact Hc|]. fold itemTokens. lia.
  - split; [rewrite batchTokens_snoc; fold itemTokens; lia|].
    split; [now destruct (currentBatch a)|].
    destruct (currentBatch a) as [|first more] eqn:Hcb.
    + rewrite (Hstart eq_refl). exact I.
    + now apply closedWhenFull_grow.
Qed.

Lemma fold_step_closedWhenFull (items : list T) (a : Acc) :
  currentTokens a = estimateBatchTokens (currentBatch a) 10 ->
  (currentBatch a = [] -> batches a = []) ->
  closedWhenFull budget (batches a ++ [currentBatch a]) ->
  let a' := fold_left (step budget) items a in
  (currentBatch a' = [] -> batches a' = [])
  /\ closedWhenFull budget (batches a' ++ [currentBatch a']).
Proof.
  revert a. induction items as [|x items IH]; intros a Htok Hstart Hc; cbn [fold_left].
  - split; assumption.
  - destruct (step_closedWhenFull a x Htok Hstart Hc) as (Htok' & Hne & Hc').
    apply IH; [exact Htok'| |exact Hc']. intros Hnil. contradiction.
Qed.
End GreedyBatches.

Section BatcherSpec.
Import TokenEstimator.
Local Open Scope list_scope.
Context {T : Type} `{Item T}.

(** X11. [splitIntoBatches] is greedy: no batch it returns is empty, and
    every batch after the first starts with the item that no longer fitted
    into the batch before it (that batch's cost plus the item's cost exceeds
    [maxContextTokens - reservedTokens]).  The empty list gives no batch. *)
Theorem splitIntoBatches_greedy (items : list T) (maxContextTokens reservedTokens : Z) :
  Forall (fun batch => batch <> []) (splitIntoBatches items maxContextTokens reservedTokens)
  /\ closedWhenFull (maxContextTokens - reservedTokens)
                    (splitIntoBatches items maxContextTokens reservedTokens)
  /\ splitIntoBatches [] maxContextTokens reservedTokens = (@nil (list T)).
Proof.
  split; [|split; [|reflexivity]].
  - unfold splitIntoBatches.
    pose proof (fold_step_inv (maxContextTokens - reservedTokens) items)
      as (_ & _ & _ & Hne).
    destruct (fold_left _ items _) as [bs cb ct]. cbn [batches currentBatch] in *.
    destruct cb as [|x cb]; [exact Hne|].
    replace (Z.of_nat (List.length (x :: cb)) >? 0) with true
      by (symmetry; apply Z.gtb_lt; cbn [List.length]; lia).
    apply Forall_app. split; [exact Hne|]. constructor; [discriminate|constructor].
  - unfold splitIntoBatches.
    destruct (fold_step_closedWhenFull (maxContextTokens - reservedTokens) items
                (mkAcc [] [] 0) eq_refl (fun _ => eq_refl) I) as [Hstart Hc].
    destruct (fold_left _ items _) as [bs cb ct]. cbn [batches currentBatch] in *.
    destruct cb as [|x cb].
    + rewrite (Hstart eq_refl). exact I.
    + replace (Z.of_nat (List.length (x :: cb)) >? 0) with true
        by (symmetry; apply Z.gtb_lt; cbn [List.length]; lia).
      exact Hc.
Qed.

(** The batches a state of the loop stands for. *)
Let finish (a : Acc) : list (list T) :=
  if Z.of_nat (List.length (currentBatch a)) >? 0
  then batches a ++ [currentBatch a] else batches a.

Lemma itemTokens_ge_20 (item : T) : 20 <= estimateTabTokens (url item) (title item) + 10.
Proof.
  unfold estimateTabTokens.
  pose proof (estimateTokens_nonneg (url item)).
  pose proof (estimateTokens_nonneg (title item)). lia.
Qed.

Lemma step_opens (budget : Z) (bs : list (list T)) (x : T) :
  step budget (mkAcc bs [] 0) x
  = mkAcc bs [x] (estimateTabTokens (url x) (title x) + 10).
Proof. unfold step. cbn [currentBatch List.length Z.of_nat]. now rewrite andb_false_r. Qed.

Lemma step_closes (budget : Z) (bs : list (list T)) (y x : T) :
  budget < 40 ->
  step budget (mkAcc bs [y] (estimateTabTokens (url y) (title y) + 10)) x
  = mkAcc (bs ++ [[y]]) [x] (estimateTabTokens (url x) (title x) + 10).
Proof.
  intros Hbudget. unfold step. cbn [currentBatch currentTokens List.length].
  pose proof (itemTokens_ge_20 x). pose proof (itemTokens_ge_20 y).
  replace (_ + _ >? budget) with true by (symmetry; apply Z.gtb_lt; lia).
  reflexivity.
Qed.

Lemma singletons_after (budget : Z) (items : list T) (bs : list (list T)) (y : T) :
  budget < 40 ->
  finish (fold_left (step budget) items
                    (mkAcc bs [y] (estimateTabTokens (url y) (title y) + 10)))
  = (bs ++ [[y]]) ++ map (fun x => [x]) items.
Proof.
  intros Hbudget. revert bs y. induction items as [|x items IH]; intros bs y;
    cbn [fold_left map].
  - now rewrite app_nil_r.
  - rewrite step_closes by exact Hbudget. rewrite IH. now rewrite <- !app_assoc.
Qed.

Lemma singletons_from (budget : Z) (items : list T) :
  budget < 40 ->
  finish (fold_left (step budget) items (mkAcc [] [] 0)) = map (fun x => [x]) items.
Proof.
  intros Hbudget. destruct items as [|x items]; [reflexivity|].
  cbn [fold_left map]. rewrite step_opens. now rewrite singletons_after.
Qed.

(** X12. When the budget [maxContextTokens - reservedTokens] is below 40
    tokens (in particular when it is zero or negative) no two items fit
    together, since the loop charges at least 20 tokens for an item:
    [splitIntoBatches] returns every item alone in its own batch, in order. *)
Theorem splitIntoBatches_small_budget
        (items : list T) (maxContextTokens reservedTokens : Z) :
  maxContextTokens - reservedTokens < 40 ->
  splitIntoBatches items maxContextTokens reservedTokens = map (fun item => [item]) items.
Proof.
  intros Hbudget.
  exact (singletons_from (maxContextTokens - reservedTokens) items Hbudget).
Qed.
End BatcherSpec.

Section TokenEstimates.
Import JS TokenEstimator.
Local Open Scope list_scope.

Lemma countWords_bound (s : string) :
  2 * countWords s false <= JS.length s + 1 /\ 2 * countWords s true <= JS.length s.
Proof.
  unfold JS.length. induction s as [|c s [IHf IHt]]; cbn [countWords String.length].
  - lia.
  - destruct (isSpace c); lia.
Qed.

Lemma countWords_nonneg (s : string) (inWord : bool) : 0 <= countWords s inWord.
Proof.
  revert inWord. induction s as [|c s IH]; intros inWord; cbn [countWords]; [lia|].
  destruct (isSpace c); [apply IH|]. specialize (IH true). destruct inWord; lia.
Qed.

Lemma ceilDiv_bounds (a b : Z) : 0 < b -> a <= b * ceilDiv a b < a + b.
Proof.
  intros Hb. unfold ceilDiv.
  pose proof (Z.mul_div_le (- a) b Hb).
  pose proof (Z.mul_succ_div_gt (- a) b Hb). lia.
Qed.

(** X13. [estimateTokens] is 0 on the empty text only: on a text of
    [n >= 1] code units it is at least [ceil(n / 4)], hence at least 1, and at
    most [n + 1]. *)
Theorem estimateTokens_bounds (text : string) :
  estimateTokens "" = 0
  /\ (text <> "" ->
      1 <= ceilDiv (JS.length text) 4 <= estimateTokens text
      /\ estimateTokens text <= JS.length text + 1).
Proof.
  split; [reflexivity|]. intros Hne. unfold estimateTokens.
  destruct text as [|c text]; [contradiction|]. cbn [truthy negb].
  set (s := String c text). 
  pose proof (countWords_bound s) as [Hw _].
  pose proof (countWords_nonneg s false) as Hw0.
  pose proof (ceilDiv_bounds (13 * countWords s false) 10 eq_refl) as Hbw.
  pose proof (ceilDiv_bounds (JS.length s) 4 eq_refl) as Hbc.
  assert (Hlen : 1 <= JS.length s) by (unfold JS.length, s; cbn [String.length]; lia).
  lia.
Qed.

(** X14. [estimateBatchTokens] adds up over a concatenation of item lists,
    and it charges every item at least [10 + overheadPerItem] tokens: with the
    default overhead of 10 a list of [n] items costs at least [20 * n]. *)
Theorem estimateBatchTokens_additive {T : Type} `{Item T}
        (items more : list T) (overheadPerItem : Z) :
  estimateBatchTokens (items ++ more) overheadPerItem
  = estimateBatchTokens items overheadPerItem + estimateBatchTokens more overheadPerItem
  /\ (10 + overheadPerItem) * Z.of_nat (List.length items)
     <= estimateBatchTokens items overheadPerItem.
Proof.
  split.
  - unfold estimateBatchTokens at 1. rewrite fold_left_app.
    now rewrite batchTokens_from.
  - induction items as [|x items IH]; [cbn; lia|].
    unfold estimateBatchTokens in *. cbn [fold_left]. rewrite batchTokens_from.
    unfold estimateBatchTokens. unfold estimateTabTokens at 1.
    pose proof (estimateTokens_nonneg (url x)).
    pose proof (estimateTokens_nonneg (title x)).
    cbn [List.length]. lia.
Qed.
End TokenEstimates.

(** ** The shape of a run of [retry] *)

Section RetryRuns.
Import Retry.
Local Open Scope list_scope.
Context {W E T : Type}.
Variable fn : W -> (E + T) * W.
Variable opts : RetryOptions W E.

Lemma sleeps_app (l1 l2 : list (Event E T)) : sleeps (l1 ++ l2) = sleeps l1 ++ sleeps l2.
Proof. apply flat_map_app. Qed.

Lemma notices_app (l1 l2 : list (Event E T)) : notices (l1 ++ l2) = notices l1 ++ notices l2.
Proof. apply flat_map_app. Qed.

Lemma invoked_app (l1 l2 : list (Event E T)) :
  List.length (filter (isInvoked E T) (l1 ++ l2))
  = (List.length (filter (isInvoked E T) l1)
     + List.length (filter (isInvoked E T) l2))%nat.
Proof. now rewrite filter_app, length_app. Qed.

(** The events a run of the loop adds to the log: [k] invocations, between
    1 and the iterations left, separated by the sleeps of the schedule. *)
Lemma loop_schedule (n : nat) :
  forall (a : nat) lastError w log,
    (0 < n)%nat ->
    Z.of_nat a + Z.of_nat n = optMaxRetries W E opts + 1 ->
    exists (k : nat) (tail : list (Event E T)),
      (1 <= k <= n)%nat
      /\ events (loop W E T fn opts n (Z.of_nat a) lastError w log) = log ++ tail
      /\ List.length (filter (isInvoked E T) tail) = k
      /\ sleeps tail = map (fun i => backoff opts (Z.of_nat i)) (seq a (k - 1))
      /\ notices tail
         = match onRetry W E opts with
           | Some _ => map (fun i => Z.of_nat i + 1) (seq a (k - 1))
           | None => []
           end.
Proof.
  induction n as [|n IH]; intros a lastError w log Hpos Hleft; [lia|].
  cbn [loop]. destruct (fn w) as [[e|v] w'] eqn:Hfn; cbn [fst].
  2:{ exists 1%nat, [Invoked E T (inr v)]. cbn [events].
      repeat split; try lia; try reflexivity. now destruct (onRetry W E opts). }
  destruct (match shouldRetry W E opts with
            | Some p => negb (p e) | None => false end).
  { exists 1%nat, [Invoked E T (inl e)]. cbn [events].
    repeat split; try lia; try reflexivity. now destruct (onRetry W E opts). }
  destruct (Z.geb_spec (Z.of_nat a) (optMaxRetries W E opts)) as [Hlast|Hmore].
  { exists 1%nat, [Invoked E T (inl e)]. cbn [events].
    repeat split; try lia; try reflexivity. now destruct (onRetry W E opts). }
  assert (Hn : (0 < n)%nat) by lia.
  assert (Hleft' : Z.of_nat (S a) + Z.of_nat n = optMaxRetries W E opts + 1) by lia.
  replace (Z.of_nat a + 1) with (Z.of_nat (S a)) by lia.
  fold (backoff opts (Z.of_nat a)).
  destruct (onRetry W E opts) as [notify|] eqn:Hnotify; cbn zeta.
  - destruct (IH (S a) (Some e) (notify e (Z.of_nat (S a)) w')
                ((((log ++ [Invoked E T (inl e)]) ++ [Notified E T e (Z.of_nat (S a))])
                  ++ [Slept E T (backoff opts (Z.of_nat a))])) Hn Hleft')
      as (k & tail & Hk & Hev & Hinv & Hsl & Hno).
    exists (S k), ([Invoked E T (inl e); Notified E T e (Z.of_nat (S a));
                    Slept E T (backoff opts (Z.of_nat a))] ++ tail).
    split; [lia|]. split; [rewrite Hev, <- !app_assoc; reflexivity|].
    replace (S k - 1)%nat with (S (k - 1)) by lia.
    split; [cbn; now rewrite Hinv|].
    split.
    + rewrite sleeps_app, Hsl. cbn. reflexivity.
    + rewrite notices_app, Hno. cbn. f_equal. lia.
  - destruct (IH (S a) (Some e) w'
                ((log ++ [Invoked E T (inl e)])
                  ++ [Slept E T (backoff opts (Z.of_nat a))]) Hn Hleft')
      as (k & tail & Hk & Hev & Hinv & Hsl & Hno).
    exists (S k), ([Invoked E T (inl e); Slept E T (backoff opts (Z.of_nat a))] ++ tail).
    split; [lia|]. split; [rewrite Hev, <- !app_assoc; reflexivity|].
    replace (S k - 1)%nat with (S (k - 1)) by lia.
    split; [cbn; now rewrite Hinv|].
    split.
    + rewrite sleeps_app, Hsl. cbn. reflexivity.
    + rewrite notices_app, Hno. reflexivity.
Qed.

Lemma noSuccess_snoc_failure (log : list (Event E T)) (ev : Event E T) :
  noSuccess log -> (forall v, ev <> Invoked E T (inr v)) -> noSuccess (log ++ [ev]).
Proof.
  intros Hlog Hev v Hin. apply in_app_or in Hin. destruct Hin as [Hin|[Hin|[]]].
  - exact (Hlog v Hin).
  - exact (Hev v Hin).
Qed.

(** How the loop settles: with the value of the last invocation, the first
    to return one; or with the error of the last invocation; or, when the
    body never ran, with the [lastError] it was entered with. *)
Lemma loop_settles (n : nat) :
  forall attempt lastError w log,
    noSuccess log ->
    attempt + Z.of_nat n = optMaxRetries W E opts + 1 ->
    let r := loop W E T fn opts n attempt lastError w log in
    match outcome r with
    | Resolved v => exists log', events r = log' ++ [Invoked E T (inr v)] /\ noSuccess log'
    | Rejected le =>
        noSuccess (events r)
        /\ ((n = 0%nat /\ le = lastError /\ events r = log)
            \/ exists log' e, le = Some e /\ events r = log' ++ [Invoked E T (inl e)])
    end.
Proof.
  induction n as [|n IH]; intros attempt lastError w log Hlog Hleft; cbn [loop].
  - cbn [outcome events]. split; [exact Hlog|]. now left.
  - destruct (fn w) as [[e|v] w'] eqn:Hfn; cbn [fst].
    2:{ cbn [outcome events]. now exists log. }
    assert (Hlog' : noSuccess (log ++ [Invoked E T (inl e)])).
    { apply noSuccess_snoc_failure; [exact Hlog|]. intros v. discriminate. }
    destruct (match shouldRetry W E opts with
              | Some p => negb (p e) | None => false end).
    { cbn [outcome events]. split; [exact Hlog'|]. right. now exists log, e. }
    destruct (Z.geb_spec attempt (optMaxRetries W E opts)) as [Hlast|Hmore].
    { cbn [outcome events]. split; [exact Hlog'|]. right. now exists log, e. }
    destruct (onRetry W E opts) as [notify|]; cbn zeta;
      match goal with
      | |- context [loop _ _ _ _ _ n ?a ?le ?w1 ?lg] =>
          assert (Hlg : noSuccess lg)
            by (repeat (apply noSuccess_snoc_failure; [|intros v; discriminate]);
                exact Hlog);
          specialize (IH a le w1 lg Hlg ltac:(lia)); cbn zeta in IH;
          destruct (outcome (loop W E T fn opts n a le w1 lg)) as [v|le'];
          [exact IH|]
      end.
    all: destruct IH as [Hno [(Hn0 & _)|Hend]]; [lia|].
    all: split; [exact Hno|]; right; exact Hend.
Qed.
End RetryRuns.

Section RetryShape.
Import Retry.
Local Open Scope list_scope.
Context {W E T : Type}.


(** X16. How [retry] settles.  It resolves with the value of the last
    invocation, which is the first one that returned a value; it rejects
    with the error thrown by the last invocation, and then no invocation
    returned a value; it rejects with [undefined] only when [maxRetries] is
    negative, and then nothing at all was done. *)
Theorem retry_outcome (fn : W -> (E + T) * W) (opts : RetryOptions W E) (w : W) :
  match outcome (retry fn opts w) with
  | Resolved v =>
      exists log,
        events (retry fn opts w) = log ++ [Invoked E T (inr v)] /\ noSuccess log
  | Rejected (Some e) =>
      (exists log, events (retry fn opts w) = log ++ [Invoked E T (inl e)])
      /\ noSuccess (events (retry fn opts w))
  | Rejected None =>
      optMaxRetries W E opts < 0 /\ retry fn opts w = mkRun W E T (Rejected None) w []
  end.
Proof.
  assert (Hnil : noSuccess (@nil (Event E T))) by (intros v []).
  unfold retry.
  destruct (Z.to_nat (optMaxRetries W E opts + 1)) as [|n] eqn:Hn.
  - cbn. split; [lia|reflexivity].
  - pose proof (loop_settles fn opts (S n) 0 None w [] Hnil ltac:(lia)) as H.
    cbn zeta in H.
    destruct (outcome (loop W E T fn opts (S n) 0 None w [])) as [v|le]; [exact H|].
    destruct H as [Hno [(Hn0 & _)|(log' & e & -> & Hev)]]; [discriminate|].
    split; [now exists log'|exact Hno].
Qed.
End RetryShape.

(** ** The bookmark tree *)

Section BookmarkTree.
Import JS UrlNormalizer Duplicates Bookmarks.
Local Open Scope list_scope.

(** Induction on a bookmark tree: the children of a node satisfy the
    property before the node does. *)
Fixpoint bookmark_tree_ind (P : BookmarkNode.t -> Prop)
         (step : forall node, Forall P (childrenOf node) -> P node)
         (node : BookmarkNode.t) {struct node} : P node :=
  match node as n return (Forall P (childrenOf n) -> P n) -> P n with
  | BookmarkNode.mk i p x t u d children =>
      fun step' =>
        step'
          (match children as c
                 return Forall P (childrenOf (BookmarkNode.mk i p x t u d c)) with
           | Some l =>
               (fix all (l : list BookmarkNode.t) : Forall P l :=
                  match l with
                  | [] => Forall_nil P
                  | child :: rest =>
                      Forall_cons child (bookmark_tree_ind P step child) (all rest)
                  end) l
           | None => Forall_nil P
           end)
  end (step node).

Lemma traverse_eq (result : list BookmarkNode.t) (node : BookmarkNode.t) :
  traverse result node = fold_left traverse (childrenOf node) (result ++ [node]).
Proof. destruct node as [i p x t u d [children|]]; reflexivity. Qed.

Lemma traverse_all_from (nodes : list BookmarkNode.t) :
  Forall (fun node => forall result, traverse result node = result ++ traverse [] node) nodes ->
  forall result, fold_left traverse nodes result = result ++ fold_left traverse nodes [].
Proof.
  induction 1 as [|node nodes Hnode _ IH]; intros result; cbn [fold_left].
  - now rewrite app_nil_r.
  - rewrite IH, (IH (traverse [] node)), Hnode. now rewrite app_assoc.
Qed.

Lemma traverse_from (node : BookmarkNode.t) :
  forall result, traverse result node = result ++ traverse [] node.
Proof.
  induction node as [node IH] using bookmark_tree_ind. intros result.
  rewrite !traverse_eq.
  rewrite (traverse_all_from _ IH), (traverse_all_from _ IH ([] ++ [node])).
  now rewrite app_assoc.
Qed.

Lemma flatten_from (nodes result : list BookmarkNode.t) :
  fold_left traverse nodes result = result ++ flattenBookmarks nodes.
Proof.
  apply traverse_all_from. apply Forall_forall. intros node _. apply traverse_from.
Qed.

Lemma flatten_cons (node : BookmarkNode.t) (rest : list BookmarkNode.t) :
  flattenBookmarks (node :: rest)
  = node :: flattenBookmarks (childrenOf node) ++ flattenBookmarks rest.
Proof.
  unfold flattenBookmarks at 1. cbn [fold_left]. rewrite flatten_from, traverse_eq.
  rewrite flatten_from. reflexivity.
Qed.

Lemma flatten_app (nodes more : list BookmarkNode.t) :
  flattenBookmarks (nodes ++ more) = flattenBookmarks nodes ++ flattenBookmarks more.
Proof.
  unfold flattenBookmarks at 1. rewrite fold_left_app. apply flatten_from.
Qed.

(** X17. [flattenBookmarks] lists the nodes of a forest in preorder: a node
    comes first, then the flattening of its children, then that of the
    remaining trees; a node without the [children] field and one with an
    empty array contribute themselves alone; and flattening distributes over
    concatenation of forests. *)
Theorem flattenBookmarks_preorder (node : BookmarkNode.t) (rest more : list BookmarkNode.t) :
  flattenBookmarks [] = []
  /\ flattenBookmarks (node :: rest)
     = node :: flattenBookmarks (childrenOf node) ++ flattenBookmarks rest
  /\ flattenBookmarks (rest ++ more) = flattenBookmarks rest ++ flattenBookmarks more.
Proof.
  split; [reflexivity|]. split; [apply flatten_cons|apply flatten_app].
Qed.

Lemma hasUrl_isFolder (node : BookmarkNode.t) : isFolder node = negb (hasUrl node).
Proof. unfold isFolder, hasUrl. now destruct (BookmarkNode.url node). Qed.

Lemma filter_partition_perm {A : Type} (keep : A -> bool) (xs : list A) :
  Permutation (filter keep xs ++ filter (fun x => negb (keep x)) xs) xs.
Proof.
  induction xs as [|x xs IH]; cbn [filter]; [constructor|].
  destruct (keep x); cbn [negb app].
  - now constructor.
  - eapply perm_trans; [symmetry; apply Permutation_middle|now constructor].
Qed.

(** X18. [getAllBookmarkUrls] and [getAllFolders] split the flattened tree
    in two: together they hold every node exactly as often as the flattening
    does, a node being a folder exactly when it has no [url] field and a
    bookmark when it has one, be it the empty string. *)
Theorem bookmarks_and_folders_partition (nodes : list BookmarkNode.t) :
  Permutation (getAllBookmarkUrls nodes ++ getAllFolders nodes) (flattenBookmarks nodes)
  /\ (forall node, In node (getAllFolders nodes)
                   <-> In node (flattenBookmarks nodes) /\ BookmarkNode.url node = None)
  /\ (forall node, In node (getAllBookmarkUrls nodes)
                   <-> In node (flattenBookmarks nodes)
                       /\ exists url, BookmarkNode.url node = Some url)
  /\ (List.length (getAllBookmarkUrls nodes) + List.length (getAllFolders nodes)
      = List.length (flattenBookmarks nodes))%nat.
Proof.
  assert (Hperm : Permutation (getAllBookmarkUrls nodes ++ getAllFolders nodes)
                              (flattenBookmarks nodes)).
  { unfold getAllBookmarkUrls, getAllFolders.
    rewrite (filter_ext isFolder (fun x => negb (hasUrl x)) hasUrl_isFolder).
    apply filter_partition_perm. }
  split; [exact Hperm|]. split; [|split].
  - intros node. unfold getAllFolders. rewrite filter_In. unfold isFolder.
    destruct (BookmarkNode.url node); split; intros [Hin Hu];
      try discriminate; now split.
  - intros node. unfold getAllBookmarkUrls. rewrite filter_In. unfold hasUrl.
    destruct (BookmarkNode.url node) as [u|]; split; intros [Hin Hu].
    + split; [exact Hin|now exists u].
    + now split.
    + discriminate.
    + destruct Hu as [u Hu]. discriminate.
  - rewrite <- length_app. now apply Permutation_length.
Qed.

Lemma fold_left_filter_skip {A S : Type} (step : S -> A -> S) (keep : A -> bool)
      (xs : list A) :
  (forall s x, keep x = false -> step s x = s) ->
  forall s, fold_left step (filter keep xs) s = fold_left step xs s.
Proof.
  intros Hskip. induction xs as [|x xs IH]; intros s; cbn [filter fold_left]; [reflexivity|].
  destruct (keep x) eqn:Hx; cbn [fold_left].
  - apply IH.
  - rewrite (Hskip s x Hx). apply IH.
Qed.

Lemma fold_left_skip_all {A S : Type} (step : S -> A -> S) (xs : list A) (s : S) :
  (forall x, In x xs -> step s x = s) -> fold_left step xs s = s.
Proof.
  induction xs as [|x xs IH]; intros Hskip; cbn [fold_left]; [reflexivity|].
  rewrite (Hskip x (or_introl eq_refl)). apply IH. intros y Hy. apply Hskip. now right.
Qed.

Context `{P : Platform}.

(** X19. The duplicate finder and the grouping by domain pass over folders:
    applied to a flattened tree they give what they give on its bookmarks
    alone ([getAllBookmarkUrls]), and on its folders alone they give
    nothing. *)
Theorem folders_are_passed_over (nodes : list BookmarkNode.t) :
  findDuplicateBookmarks (flattenBookmarks nodes)
  = findDuplicateBookmarks (getAllBookmarkUrls nodes)
  /\ groupBookmarksByDomain (flattenBookmarks nodes)
     = groupBookmarksByDomain (getAllBookmarkUrls nodes)
  /\ findDuplicateBookmarks (getAllFolders nodes) = []
  /\ groupBookmarksByDomain (getAllFolders nodes) = [].
Proof.
  unfold findDuplicateBookmarks, groupBookmarksByDomain, getAllBookmarkUrls, getAllFolders.
  split; [|split; [|split]].
  - rewrite fold_left_filter_skip; [reflexivity|].
    intros s x Hx. unfold hasUrl in Hx. now destruct (BookmarkNode.url x).
  - rewrite fold_left_filter_skip; [reflexivity|].
    intros s x Hx. unfold hasUrl in Hx. now destruct (BookmarkNode.url x).
  - rewrite fold_left_skip_all; [reflexivity|].
    intros x Hx. apply filter_In in Hx. destruct Hx as [_ Hx]. unfold isFolder in Hx.
    now destruct (BookmarkNode.url x).
  - rewrite fold_left_skip_all; [reflexivity|].
    intros x Hx. apply filter_In in Hx. destruct Hx as [_ Hx]. unfold isFolder in Hx.
    now destruct (BookmarkNode.url x).
Qed.
End BookmarkTree.

(** ** Truncation for prompts *)

Section Truncation.
Import JS Prompts.

Lemma length_append (s1 s2 : string) :
  String.length (s1 ++ s2) = (String.length s1 + String.length s2)%nat.
Proof. induction s1 as [|c s1 IH]; cbn; [reflexivity|now rewrite IH]. Qed.

Lemma length_prefix (n : nat) (s : string) :
  String.length (String.substring 0 n s) = Nat.min n (String.length s).
Proof.
  revert n. induction s as [|c s IH]; intros [|n]; cbn; try reflexivity.
  now rewrite IH.
Qed.

Lemma sliceTo_length (s : string) (stop : Z) :
  JS.length (sliceTo s stop)
  = if stop <? 0 then Z.max (JS.length s + stop) 0 else Z.min stop (JS.length s).
Proof.
  unfold sliceTo, JS.length. rewrite length_prefix.
  destruct (Z.ltb_spec stop 0); lia.
Qed.

Context `{P : Platform}.

End Truncation.

(** ** String and set similarity *)

Section EditDistance.
Local Open Scope list_scope.
Local Open Scope nat_scope.

Lemma lev_nil_r (x : list ascii) : lev x [] = List.length x.
Proof. now destruct x. Qed.

Lemma lev_cons (c d : ascii) (x y : list ascii) :
  lev (c :: x) (d :: y)
  = Nat.min (Nat.min (lev x (d :: y) + 1) (lev (c :: x) y + 1))
            (lev x y + (if Ascii.eqb c d then 0 else 1)).
Proof. reflexivity. Qed.

Lemma Edit_from_nil (y : list ascii) : Edit (List.length y) [] y.
Proof. induction y as [|d y IH]; cbn; [constructor|now apply Edit_insert]. Qed.

Lemma Edit_to_nil (x : list ascii) : Edit (List.length x) x [].
Proof. induction x as [|c x IH]; cbn; [constructor|now apply Edit_delete]. Qed.

Lemma lev_Edit (x : list ascii) : forall y, Edit (lev x y) x y.
Proof.
  induction x as [|c x IHx]; intros y; [apply Edit_from_nil|].
  induction y as [|d y IHy]; [rewrite lev_nil_r; apply Edit_to_nil|].
  rewrite lev_cons.
  destruct (Nat.min_spec (Nat.min (lev x (d :: y) + 1) (lev (c :: x) y + 1))
                         (lev x y + (if Ascii.eqb c d then 0 else 1)))
    as [[_ ->]|[_ ->]].
  - destruct (Nat.min_spec (lev x (d :: y) + 1) (lev (c :: x) y + 1)) as [[_ ->]|[_ ->]];
      rewrite Nat.add_1_r.
    + apply Edit_delete, IHx.
    + apply Edit_insert, IHy.
  - destruct (Ascii.eqb_spec c d) as [->|_].
    + rewrite Nat.add_0_r. apply Edit_keep, IHx.
    + rewrite Nat.add_1_r. apply Edit_substitute, IHx.
Qed.

Lemma lev_le_Edit (n : nat) (x y : list ascii) : Edit n x y -> lev x y <= n.
Proof.
  induction 1 as [|c n x y _ IH|c d n x y _ IH|c n x y _ IH|d n x y _ IH].
  - reflexivity.
  - rewrite lev_cons, Ascii.eqb_refl. lia.
  - rewrite lev_cons. destruct (Ascii.eqb c d); lia.
  - destruct y as [|d y]; [rewrite lev_nil_r in *; cbn; lia|]. rewrite lev_cons. lia.
  - destruct x as [|c x]; [cbn in *; lia|]. rewrite lev_cons. lia.
Qed.

Lemma Edit_app (n m : nat) (x y x' y' : list ascii) :
  Edit n x y -> Edit m x' y' -> Edit (n + m) (x ++ x') (y ++ y').
Proof.
  intros Hxy Hxy'. induction Hxy; cbn [app Nat.add]; try (constructor; assumption).
  exact Hxy'.
Qed.

Lemma Edit_rev (n : nat) (x y : list ascii) : Edit n x y -> Edit n (rev x) (rev y).
Proof.
  induction 1 as [|c n x y _ IH|c d n x y _ IH|c n x y _ IH|d n x y _ IH]; cbn [rev].
  - constructor.
  - rewrite <- (Nat.add_0_r n). apply Edit_app; [exact IH|]. apply Edit_keep, Edit_done.
  - rewrite <- Nat.add_1_r. apply Edit_app; [exact IH|]. apply Edit_substitute, Edit_done.
  - rewrite <- Nat.add_1_r, <- (app_nil_r (rev y)).
    apply Edit_app; [exact IH|]. apply Edit_delete, Edit_done.
  - rewrite <- Nat.add_1_r, <- (app_nil_r (rev x)).
    apply Edit_app; [exact IH|]. apply Edit_insert, Edit_done.
Qed.

Lemma Edit_sym (n : nat) (x y : list ascii) : Edit n x y -> Edit n y x.
Proof. induction 1; now constructor. Qed.

Lemma lev_rev (x y : list ascii) : lev (rev x) (rev y) = lev x y.
Proof.
  assert (Hle : forall u v, lev (rev u) (rev v) <= lev u v)
    by (intros u v; apply lev_le_Edit, Edit_rev, lev_Edit).
  apply Nat.le_antisymm; [apply Hle|].
  pose proof (Hle (rev x) (rev y)) as H. now rewrite !rev_involutive in H.
Qed.

Lemma lev_sym (x y : list ascii) : lev x y = lev y x.
Proof. apply Nat.le_antisymm; apply lev_le_Edit, Edit_sym, lev_Edit. Qed.

Lemma Edit_refl (x : list ascii) : Edit 0 x x.
Proof. induction x; now constructor. Qed.

Lemma Edit_zero (n : nat) (x y : list ascii) : Edit n x y -> n = 0 -> x = y.
Proof. induction 1; intros Hn; try discriminate; [reflexivity|f_equal; auto]. Qed.

Lemma Edit_lengths (n : nat) (x y : list ascii) :
  Edit n x y -> List.length x <= List.length y + n /\ List.length y <= List.length x + n.
Proof. induction 1; cbn [List.length]; lia. Qed.

Lemma Edit_trans (n : nat) (x y : list ascii) :
  Edit n x y -> forall m z, Edit m y z -> exists k, k <= n + m /\ Edit k x z.
Proof.
  induction 1 as [|c n x y _ IH|c d n x y _ IH|c n x y _ IH|d n x y _ IH]; intros m z Hyz.
  - exists m. split; [lia|exact Hyz].
  - remember (c :: y) as cy eqn:Hcy.
    induction Hyz as [|c' m y' z Hyz _|c' d' m y' z Hyz _|c' m y' z Hyz _|d' m y' z Hyz IHz];
      try discriminate.
    + injection Hcy as -> ->. destruct (IH _ _ Hyz) as (k & Hk & He).
      exists k. split; [lia|now apply Edit_keep].
    + injection Hcy as -> ->. destruct (IH _ _ Hyz) as (k & Hk & He).
      exists (S k). split; [lia|now apply Edit_substitute].
    + injection Hcy as -> ->. destruct (IH _ _ Hyz) as (k & Hk & He).
      exists (S k). split; [lia|now apply Edit_delete].
    + destruct (IHz Hcy) as (k & Hk & He).
      exists (S k). split; [lia|now apply Edit_insert].
  - remember (d :: y) as dy eqn:Hdy.
    induction Hyz as [|c' m y' z Hyz _|c' d' m y' z Hyz _|c' m y' z Hyz _|d' m y' z Hyz IHz];
      try discriminate.
    + injection Hdy as -> ->. destruct (IH _ _ Hyz) as (k & Hk & He).
      exists (S k). split; [lia|now apply Edit_substitute].
    + injection Hdy as -> ->. destruct (IH _ _ Hyz) as (k & Hk & He).
      exists (S k). split; [lia|now apply Edit_substitute].
    + injection Hdy as -> ->. destruct (IH _ _ Hyz) as (k & Hk & He).
      exists (S k). split; [lia|now apply Edit_delete].
    + destruct (IHz Hdy) as (k & Hk & He).
      exists (S k). split; [lia|now apply Edit_insert].
  - destruct (IH _ _ Hyz) as (k & Hk & He).
    exists (S k). split; [lia|now apply Edit_delete].
  - remember (d :: y) as dy eqn:Hdy.
    induction Hyz as [|c' m y' z Hyz _|c' d' m y' z Hyz _|c' m y' z Hyz _|d' m y' z Hyz IHz];
      try discriminate.
    + injection Hdy as -> ->. destruct (IH _ _ Hyz) as (k & Hk & He).
      exists (S k). split; [lia|now apply Edit_insert].
    + injection Hdy as -> ->. destruct (IH _ _ Hyz) as (k & Hk & He).
      exists (S k). split; [lia|now apply Edit_insert].
    + injection Hdy as -> ->. destruct (IH _ _ Hyz) as (k & Hk & He).
      exists k. split; [lia|exact He].
    + destruct (IHz Hdy) as (k & Hk & He).
      exists (S k). split; [lia|now apply Edit_insert].
Qed.

Lemma lev_triangle (x y z : list ascii) : lev x z <= lev x y + lev y z.
Proof.
  destruct (Edit_trans _ _ _ (lev_Edit x y) _ _ (lev_Edit y z)) as (k & Hk & He).
  apply lev_le_Edit in He. lia.
Qed.

Lemma lev_zero (x y : list ascii) : lev x y = 0 <-> x = y.
Proof.
  split.
  - intros H0. exact (Edit_zero _ _ _ (lev_Edit x y) H0).
  - intros ->. pose proof (lev_le_Edit _ _ _ (Edit_refl y)). lia.
Qed.

Lemma lev_bounds (x y : list ascii) :
  List.length x <= List.length y + lev x y
  /\ List.length y <= List.length x + lev x y
  /\ lev x y <= Nat.max (List.length x) (List.length y).
Proof.
  pose proof (Edit_lengths _ _ _ (lev_Edit x y)) as [H1 H2].
  split; [exact H1|]. split; [exact H2|].
  revert y H1 H2. induction x as [|c x IH]; intros y _ _; [cbn; lia|].
  destruct y as [|d y]; [rewrite lev_nil_r; lia|].
  rewrite lev_cons. pose proof (Edit_lengths _ _ _ (lev_Edit x y)) as [H1 H2].
  specialize (IH y H1 H2). cbn [List.length]. destruct (Ascii.eqb c d); lia.
Qed.
End EditDistance.

Section Matrix.
Import JS Similarity.
Local Open Scope list_scope.
Local Open Scope nat_scope.

Lemma arrGet_arrSet_same {A : Type} (i : nat) :
  forall (arr : list (option A)) (x : A), arrGet (arrSet arr i x) i = Some x.
Proof.
  induction i as [|i IH]; intros [|y arr] x; cbn [arrSet]; try reflexivity.
  - exact (IH [] x).
  - exact (IH arr x).
Qed.

Lemma arrGet_arrSet_other {A : Type} (i : nat) :
  forall (arr : list (option A)) (x : A) (j : nat),
    j <> i -> arrGet (arrSet arr i x) j = arrGet arr j.
Proof.
  induction i as [|i IH]; intros [|y arr] x [|j] Hne; cbn [arrSet]; try reflexivity;
    try contradiction.
  - unfold arrGet. cbn [nth_error]. now destruct j.
  - unfold arrGet in *. cbn [nth_error].
    rewrite (IH [] x j) by congruence. now destruct j.
  - unfold arrGet in *. cbn [nth_error]. apply IH. congruence.
Qed.

(** Writing one cell of a row that exists changes that cell only. *)
Lemma cell_update (matrix : list (option (list (option Z)))) (row : list (option Z))
      (i j : nat) (v : Z) :
  arrGet matrix i = Some row ->
  forall i' j',
    cell (arrSet matrix i (arrSet row j v)) i' j'
    = if (Nat.eqb i' i && Nat.eqb j' j)%bool then Some v else cell matrix i' j'.
Proof.
  intros Hrow i' j'. unfold cell.
  destruct (Nat.eqb_spec i' i) as [->|Hi]; cbn [andb].
  - rewrite arrGet_arrSet_same, Hrow.
    destruct (Nat.eqb_spec j' j) as [->|Hj].
    + apply arrGet_arrSet_same.
    + now apply arrGet_arrSet_other.
  - now rewrite arrGet_arrSet_other.
Qed.

Lemma cell_row (matrix : list (option (list (option Z)))) (i j : nat) (v : Z) :
  cell matrix i j = Some v ->
  exists row, arrGet matrix i = Some row /\ forall j', arrGet row j' = cell matrix i j'.
Proof.
  unfold cell. destruct (arrGet matrix i) as [row|]; [|discriminate].
  intros _. now exists row.
Qed.

Lemma fold_seq_inv {S : Type} (I : nat -> S -> Prop) (f : S -> nat -> S) (n : nat) :
  forall (start : nat) (s : S),
    I start s ->
    (forall k s, start <= k < start + n -> I k s -> I (Datatypes.S k) (f s k)) ->
    I (start + n) (fold_left f (seq start n) s).
Proof.
  induction n as [|n IH]; intros start s Hs Hstep; cbn [seq fold_left].
  - now rewrite Nat.add_0_r.
  - rewrite <- Nat.add_succ_comm. apply IH.
    + apply Hstep; [lia|exact Hs].
    + intros k s' Hk. apply Hstep. lia.
Qed.

Variables a b : string.
Let xs := list_ascii_of_string a.
Let ys := list_ascii_of_string b.

(** The distance between the first [i] characters of [b] and the first [j]
    of [a]. *)
Let D (i j : nat) : Z := Z.of_nat (lev (rev (firstn i ys)) (rev (firstn j xs))).

Lemma length_chars (s : string) : List.length (list_ascii_of_string s) = String.length s.
Proof. induction s as [|c s IH]; cbn; [reflexivity|now rewrite IH]. Qed.

Lemma charAt_nth (s : string) (i : nat) :
  charAt s i = match nth_error (list_ascii_of_string s) i with
               | Some c => String c EmptyString
               | None => EmptyString
               end.
Proof.
  unfold charAt. revert i. induction s as [|c s IH]; intros [|i]; cbn; try reflexivity.
  - now destruct s.
  - apply IH.
Qed.

Lemma firstn_snoc {A : Type} (l : list A) (i : nat) (x : A) :
  nth_error l i = Some x -> firstn (S i) l = firstn i l ++ [x].
Proof.
  revert i. induction l as [|y l IH]; intros [|i] Hx; cbn in *; try discriminate.
  - now injection Hx as ->.
  - now rewrite (IH i Hx).
Qed.

Lemma D_row0 (j : nat) : j <= String.length a -> D 0 j = Z.of_nat j.
Proof.
  intros Hj. unfold D. cbn [firstn rev lev]. rewrite length_rev, length_firstn.
  unfold xs. rewrite length_chars. lia.
Qed.

Lemma D_col0 (i : nat) : i <= String.length b -> D i 0 = Z.of_nat i.
Proof.
  intros Hi. unfold D. cbn [firstn rev]. rewrite lev_nil_r, length_rev, length_firstn.
  unfold ys. rewrite length_chars. lia.
Qed.

Lemma D_step (i j : nat) :
  i < String.length b -> j < String.length a ->
  D (S i) (S j)
  = Z.min (Z.min (D i (S j) + 1) (D (S i) j + 1))
          (D i j + (if String.eqb (charAt b i) (charAt a j) then 0 else 1))%Z.
Proof.
  intros Hi Hj. unfold D.
  destruct (nth_error ys i) as [c|] eqn:Hc.
  2:{ apply nth_error_None in Hc. unfold ys in Hc. rewrite length_chars in Hc. lia. }
  destruct (nth_error xs j) as [d|] eqn:Hd.
  2:{ apply nth_error_None in Hd. unfold xs in Hd. rewrite length_chars in Hd. lia. }
  rewrite !charAt_nth. fold xs ys. rewrite Hc, Hd.
  rewrite (firstn_snoc ys i c Hc), (firstn_snoc xs j d Hd), !rev_app_distr.
  cbn [rev app]. rewrite lev_cons.
  rewrite <- !rev_unit, <- (firstn_snoc ys i c Hc), <- (firstn_snoc xs j d Hd).
  replace (String.eqb (String c "") (String d "")) with (Ascii.eqb c d).
  2:{ cbn. now destruct (Ascii.eqb c d). }
  rewrite !Nat2Z.inj_min, !Nat2Z.inj_add. now destruct (Ascii.eqb c d).
Qed.

(** The matrix after the two initialisation loops and [k - 1] full rows. *)
Let rowsDone (k : nat) (matrix : list (option (list (option Z)))) : Prop :=
  (forall i j, i < k -> j <= String.length a -> cell matrix i j = Some (D i j))
  /\ (forall i, i <= String.length b -> cell matrix i 0 = Some (D i 0)).

Lemma first_column :
  forall i, i <= String.length b ->
    cell (fold_left (fun matrix i => arrSet matrix i [Some (Z.of_nat i)])
                    (seq 0 (S (String.length b))) []) i 0
    = Some (Z.of_nat i).
Proof.
  intros i Hi.
  apply (fold_seq_inv
           (fun k matrix => forall i, i < k -> cell matrix i 0 = Some (Z.of_nat i))
           (fun matrix i => arrSet matrix i [Some (Z.of_nat i)])
           (S (String.length b)) 0 []); [intros ? ?; lia| |lia].
  intros k matrix _ IH i' Hi'. unfold cell.
  destruct (Nat.eq_dec i' k) as [->|Hne].
  - now rewrite arrGet_arrSet_same.
  - rewrite arrGet_arrSet_other by exact Hne. apply IH. lia.
Qed.

Lemma first_row (matrix : list (option (list (option Z)))) :
  (forall i, i <= String.length b -> cell matrix i 0 = Some (Z.of_nat i)) ->
  rowsDone 1
    (fold_left
       (fun matrix j =>
          match arrGet matrix 0 with
          | Some row => arrSet matrix 0 (arrSet row j (Z.of_nat j))
          | None => matrix
          end)
       (seq 0 (S (String.length a))) matrix).
Proof.
  intros Hcol.
  pose proof
    (fold_seq_inv
       (fun k matrix =>
          (forall i, i <= String.length b -> cell matrix i 0 = Some (Z.of_nat i))
          /\ (forall j, j < k -> cell matrix 0 j = Some (Z.of_nat j)))
       (fun matrix j =>
          match arrGet matrix 0 with
          | Some row => arrSet matrix 0 (arrSet row j (Z.of_nat j))
          | None => matrix
          end)
       (S (String.length a)) 0 matrix) as Hinv.
  cbn beta in Hinv. destruct Hinv as [Hcol' Hrow'].
  - split; [exact Hcol|intros ? ?; lia].
  - intros k m _ [Hc Hr].
    destruct (cell_row m 0 0 _ (Hc 0 ltac:(lia))) as (row & Hrow & _).
    rewrite Hrow. split.
    + intros i Hi. rewrite (cell_update m row 0 k _ Hrow).
      destruct (Nat.eqb_spec i 0) as [->|Hi0]; cbn [andb]; [|now apply Hc].
      destruct (Nat.eqb_spec 0 k) as [<-|Hk]; [reflexivity|now apply Hc].
    + intros j Hj. rewrite (cell_update m row 0 k _ Hrow). cbn [Nat.eqb andb].
      destruct (Nat.eqb_spec j k) as [->|Hjk]; [reflexivity|]. apply Hr. lia.
  - split.
    + intros i j Hi Hj. assert (i = 0) as -> by lia.
      rewrite D_row0 by exact Hj. apply Hrow'. lia.
    + intros i Hi. rewrite D_col0 by exact Hi. now apply Hcol'.
Qed.

Lemma fill_row (i : nat) (matrix : list (option (list (option Z)))) :
  1 <= i <= String.length b ->
  rowsDone i matrix ->
  rowsDone (S i) (fold_left (fillCell a b i) (seq 1 (String.length a)) matrix).
Proof.
  intros Hi Hdone.
  pose proof
    (fold_seq_inv
       (fun k matrix =>
          rowsDone i matrix /\ (forall j, j < k -> cell matrix i j = Some (D i j)))
       (fillCell a b i) (String.length a) 1 matrix) as Hinv.
  cbn beta in Hinv. destruct Hinv as [[Hrows Hcol] Hrow].
  - split; [exact Hdone|]. intros j Hj. assert (j = 0) as -> by lia.
    apply Hdone. lia.
  - intros k m Hk [[Hrows Hcol] Hrow].
    destruct (cell_row m i 0 _ (Hcol i ltac:(lia))) as (row & Hr & Hcells).
    destruct (cell_row m (i - 1) 0 _ (Hcol (i - 1) ltac:(lia))) as (prev & Hp & Hpcells).
    unfold fillCell. rewrite Hr, Hp, !Hcells, !Hpcells.
    rewrite (Hrows (i - 1) k), (Hrows (i - 1) (k - 1)), (Hrow (k - 1)) by lia.
    cbn [orZero].
    assert (Hcell :
      Z.min (Z.min (D (i - 1) k + 1) (D i (k - 1) + 1))
            (D (i - 1) (k - 1)
             + (if String.eqb (charAt b (i - 1)) (charAt a (k - 1)) then 0 else 1))%Z
      = D i k).
    { pose proof (D_step (i - 1) (k - 1) ltac:(lia) ltac:(lia)) as Hs.
      replace (S (i - 1)) with i in Hs by lia.
      replace (S (k - 1)) with k in Hs by lia. now rewrite Hs. }
    rewrite Hcell.
    assert (Hupd := cell_update m row i k (D i k) Hr).
    split; [split|].
    + intros i' j' Hi' Hj'. rewrite Hupd.
      destruct (Nat.eqb_spec i' i) as [->|_]; [lia|]. cbn [andb]. now apply Hrows.
    + intros i' Hi'. rewrite Hupd.
      destruct (Nat.eqb_spec 0 k) as [<-|_]; [lia|]. rewrite andb_false_r. now apply Hcol.
    + intros j Hj. rewrite Hupd. rewrite Nat.eqb_refl. cbn [andb].
      destruct (Nat.eqb_spec j k) as [->|Hjk]; [reflexivity|]. apply Hrow. lia.
  - split; [|exact Hcol].
    intros i' j Hi' Hj. destruct (Nat.eq_dec i' i) as [->|Hne].
    + apply Hrow. lia.
    + apply Hrows; lia.
Qed.

Lemma levenshteinDistance_lev :
  levenshteinDistance a b = Z.of_nat (lev xs ys).
Proof.
  unfold levenshteinDistance, JS.length.
  destruct (Z.eqb_spec (Z.of_nat (String.length a)) 0) as [Ha|Ha].
  { assert (Hxs : xs = []).
    { unfold xs. destruct a; [reflexivity|discriminate]. }
    rewrite Hxs. cbn [lev]. unfold ys. now rewrite length_chars. }
  destruct (Z.eqb_spec (Z.of_nat (String.length b)) 0) as [Hb|Hb].
  { assert (Hys : ys = []).
    { unfold ys. destruct b; [reflexivity|discriminate]. }
    rewrite Hys, lev_nil_r. unfold xs. now rewrite length_chars. }
  cbn zeta.
  pose proof
    (fold_seq_inv (fun k matrix => rowsDone k matrix)
       (fun matrix i => fold_left (fillCell a b i) (seq 1 (String.length a)) matrix)
       (String.length b) 1
       (fold_left
          (fun matrix j =>
             match arrGet matrix 0 with
             | Some row => arrSet matrix 0 (arrSet row j (Z.of_nat j))
             | None => matrix
             end)
          (seq 0 (S (String.length a)))
          (fold_left (fun matrix i => arrSet matrix i [Some (Z.of_nat i)])
                     (seq 0 (S (String.length b))) []))) as Hinv.
  cbn beta in Hinv. destruct Hinv as [Hrows _].
  - apply first_row. apply first_column.
  - intros k m Hk Hdone. apply fill_row; [lia|exact Hdone].
  - rewrite (Hrows (String.length b) (String.length a)) by lia.
    unfold D. rewrite <- (length_chars b), <- (length_chars a).
    fold xs ys. rewrite !firstn_all, lev_rev. f_equal. apply lev_sym.
Qed.
End Matrix.

Section Ratios.
Local Open Scope Q_scope.

(** A ratio of two integers [0 <= i <= u], [0 < u]. *)
Lemma ratio_facts (i u : Z) :
  (0 <= i <= u)%Z -> (0 < u)%Z ->
  0 <= inject_Z i / inject_Z u <= 1
  /\ (inject_Z i / inject_Z u == 1 <-> i = u)
  /\ (inject_Z i / inject_Z u == 0 <-> i = 0%Z).
Proof.
  intros Hi Hu.
  assert (Hq : inject_Z i / inject_Z u == i # Z.to_pos u).
  { rewrite (Qmake_Qdiv i (Z.to_pos u)). now rewrite Z2Pos.id. }
  rewrite !Hq. unfold Qle, Qeq. cbn [Qnum Qden]. rewrite !Z2Pos.id by exact Hu.
  repeat split; try lia.
Qed.

Lemma complement_facts (r : Q) :
  0 <= r <= 1 -> 0 <= 1 - r <= 1 /\ (1 - r == 1 <-> r == 0).
Proof.
  destruct r as [n d]. unfold Qle, Qeq, Qminus, Qplus, Qopp. cbn [Qnum Qden].
  intros [Hlo Hhi]. repeat split; try lia.
Qed.
End Ratios.

Section DistanceSpec.
Import JS Similarity.

Lemma chars_inj (a b : string) : list_ascii_of_string a = list_ascii_of_string b -> a = b.
Proof.
  intros H. rewrite <- (string_of_list_ascii_of_string a), H.
  apply string_of_list_ascii_of_string.
Qed.

(** X21. [levenshteinDistance a b] is the least number of single-character
    substitutions, deletions and insertions that turn [a] into [b]: there is
    an edit script of that many steps, and none of fewer. *)
Theorem levenshteinDistance_least_edits (a b : string) :
  exists n : nat,
    levenshteinDistance a b = Z.of_nat n
    /\ Edit n (list_ascii_of_string a) (list_ascii_of_string b)
    /\ forall m, Edit m (list_ascii_of_string a) (list_ascii_of_string b) -> (n <= m)%nat.
Proof.
  exists (lev (list_ascii_of_string a) (list_ascii_of_string b)).
  split; [apply levenshteinDistance_lev|]. split; [apply lev_Edit|].
  intros m. apply lev_le_Edit.
Qed.

(** X22. [levenshteinDistance] is a metric on strings: it is 0 exactly on
    equal strings, symmetric, and satisfies the triangle inequality; and it
    lies between the difference of the two lengths and the larger of them. *)
Theorem levenshteinDistance_metric (a b c : string) :
  (levenshteinDistance a b = 0 <-> a = b)
  /\ levenshteinDistance a b = levenshteinDistance b a
  /\ levenshteinDistance a c <= levenshteinDistance a b + levenshteinDistance b c
  /\ Z.abs (JS.length a - JS.length b) <= levenshteinDistance a b
     <= Z.max (JS.length a) (JS.length b).
Proof.
  rewrite !levenshteinDistance_lev. split; [|split; [|split]].
  - split.
    + intros H0. apply chars_inj, lev_zero. lia.
    + intros ->. rewrite (proj2 (lev_zero _ _) eq_refl). reflexivity.
  - now rewrite lev_sym.
  - pose proof (lev_triangle (list_ascii_of_string a) (list_ascii_of_string b)
                             (list_ascii_of_string c)). lia.
  - pose proof (lev_bounds (list_ascii_of_string a) (list_ascii_of_string b)) as (H1 & H2 & H3).
    unfold JS.length. rewrite <- !length_chars. lia.
Qed.

(** X23. [levenshteinSimilarity] lies between 0 and 1, is 1 exactly on
    equal strings, and is symmetric. *)
Theorem levenshteinSimilarity_range (a b : string) :
  (0 <= levenshteinSimilarity a b <= 1)%Q
  /\ (levenshteinSimilarity a b == 1 <-> a = b)%Q
  /\ (levenshteinSimilarity a b == levenshteinSimilarity b a)%Q.
Proof.
  assert (Hsym : (levenshteinSimilarity a b == levenshteinSimilarity b a)%Q).
  { unfold levenshteinSimilarity. rewrite (Z.max_comm (JS.length b)).
    rewrite !levenshteinDistance_lev, (lev_sym (list_ascii_of_string b)). reflexivity. }
  refine ((fun H => conj (proj1 H) (conj (proj2 H) Hsym)) _).
  unfold levenshteinSimilarity.
  pose proof (lev_bounds (list_ascii_of_string a) (list_ascii_of_string b)) as (_ & _ & Hmax).
  pose proof (lev_zero (list_ascii_of_string a) (list_ascii_of_string b)) as Hzero.
  rewrite !length_chars in Hmax. rewrite levenshteinDistance_lev.
  set (d := lev (list_ascii_of_string a) (list_ascii_of_string b)) in *.
  unfold JS.length.
  destruct (Z.eqb_spec (Z.max (Z.of_nat (String.length a)) (Z.of_nat (String.length b))) 0)
    as [Hm|Hm].
  - split; [split; discriminate|]. split; [intros _|reflexivity].
    destruct a, b; try reflexivity; cbn in Hm; lia.
  - destruct (ratio_facts (Z.of_nat d)
                (Z.max (Z.of_nat (String.length a)) (Z.of_nat (String.length b))))
      as ([Hlo Hhi] & _ & H0); [lia|lia|].
    set (r := (inject_Z (Z.of_nat d)
               / inject_Z (Z.max (Z.of_nat (String.length a))
                                 (Z.of_nat (String.length b))))%Q) in *.
    destruct (complement_facts r (conj Hlo Hhi)) as [Hrange Hone].
    split; [exact Hrange|]. rewrite Hone, H0. split.
    + intros Hd. apply chars_inj, Hzero. lia.
    + intros Hab. assert (Hd : d = 0%nat) by (apply Hzero; now rewrite Hab).
      now rewrite Hd.
Qed.
End DistanceSpec.

Section Sets.
Import JS Similarity.
Local Open Scope list_scope.

Lemma setAdd_In (s : list string) (x z : string) :
  In z (setAdd s x) <-> In z s \/ z = x.
Proof.
  induction s as [|y s IH]; cbn [setAdd].
  - cbn. intuition congruence.
  - destruct (String.eqb_spec y x) as [->|Hne]; cbn [In].
    + intuition congruence.
    + rewrite IH. tauto.
Qed.

Lemma setAdd_NoDup (s : list string) (x : string) : NoDup s -> NoDup (setAdd s x).
Proof.
  induction s as [|y s IH]; cbn [setAdd]; intros Hnd.
  - constructor; [intros []|constructor].
  - destruct (String.eqb_spec y x) as [->|Hne]; [exact Hnd|].
    apply NoDup_cons_iff in Hnd. destruct Hnd as [Hy Hnd].
    apply NoDup_cons; [|now apply IH].
    rewrite setAdd_In. intros [Hin|Heq]; [now apply Hy|now apply Hne].
Qed.

Lemma newSet_from (arr s : list string) :
  NoDup s ->
  NoDup (fold_left setAdd arr s)
  /\ forall z, In z (fold_left setAdd arr s) <-> In z s \/ In z arr.
Proof.
  revert s. induction arr as [|x arr IH]; intros s Hs; cbn [fold_left].
  - split; [exact Hs|]. intros z. cbn. tauto.
  - destruct (IH (setAdd s x) (setAdd_NoDup s x Hs)) as [Hnd Hin].
    split; [exact Hnd|]. intros z. rewrite Hin, setAdd_In. cbn [In].
    intuition congruence.
Qed.

Lemma newSet_spec (arr : list string) :
  NoDup (newSet arr) /\ forall z, In z (newSet arr) <-> In z arr.
Proof.
  destruct (newSet_from arr [] (NoDup_nil _)) as [Hnd Hin].
  split; [exact Hnd|]. intros z. rewrite (Hin z). cbn. tauto.
Qed.

Lemma has_In (s : list string) (x : string) : has s x = true <-> In x s.
Proof.
  unfold has. rewrite existsb_exists. split.
  - intros (y & Hy & Heq). apply String.eqb_eq in Heq. now subst.
  - intros Hx. exists x. split; [exact Hx|apply String.eqb_refl].
Qed.

Lemma count_members (b a : list string) (n : Z) :
  fold_left (fun intersection item => if has b item then intersection + 1 else intersection)
            a n
  = n + Z.of_nat (List.length (filter (has b) a)).
Proof.
  revert n. induction a as [|x a IH]; intros n; cbn [fold_left filter]; [cbn; lia|].
  rewrite IH. destruct (has b x); cbn [List.length]; lia.
Qed.

Lemma common_sym (a b : list string) :
  NoDup a -> NoDup b ->
  List.length (filter (has b) a) = List.length (filter (has a) b).
Proof.
  intros Ha Hb. apply Permutation_length.
  apply NoDup_Permutation; try now apply NoDup_filter.
  intros x. rewrite !filter_In, !has_In. tauto.
Qed.

Lemma common_le (keep : string -> bool) (a : list string) :
  (List.length (filter keep a) <= List.length a)%nat.
Proof.
  induction a as [|x a IH]; cbn [filter List.length]; [lia|].
  destruct (keep x); cbn [List.length]; lia.
Qed.

Lemma common_all (keep : string -> bool) (a : list string) :
  List.length (filter keep a) = List.length a <-> forall x, In x a -> keep x = true.
Proof.
  induction a as [|x a IH]; cbn [filter List.length In].
  - split; [intros _ x []|reflexivity].
  - pose proof (common_le keep a) as Hle.
    destruct (keep x) eqn:Hx; cbn [List.length].
    + split.
      * intros Hlen y [<-|Hy]; [exact Hx|]. apply IH; [lia|exact Hy].
      * intros Hall. f_equal. apply IH. intros y Hy. apply Hall. now right.
    + split; [lia|]. intros Hall. rewrite (Hall x (or_introl eq_refl)) in Hx. discriminate.
Qed.

Lemma common_none (keep : string -> bool) (a : list string) :
  List.length (filter keep a) = 0%nat <-> forall x, In x a -> keep x = false.
Proof.
  induction a as [|x a IH]; cbn [filter List.length In].
  - split; [intros _ x []|reflexivity].
  - destruct (keep x) eqn:Hx; cbn [List.length].
    + split; [discriminate|]. intros Hall. rewrite (Hall x (or_introl eq_refl)) in Hx.
      discriminate.
    + rewrite IH. split.
      * intros Hall y [<-|Hy]; [exact Hx|now apply Hall].
      * intros Hall y Hy. apply Hall. now right.
Qed.

(** The number of elements of the union of two sets. *)
Lemma union_size (l1 l2 : list string) :
  (List.length (newSet (l1 ++ l2)) + List.length (filter (has (newSet l2)) (newSet l1))
   = List.length (newSet l1) + List.length (newSet l2))%nat.
Proof.
  destruct (newSet_spec l1) as [Hnd1 Hin1], (newSet_spec l2) as [Hnd2 Hin2],
    (newSet_spec (l1 ++ l2)) as [Hnd Hin].
  assert (Hperm : Permutation (newSet (l1 ++ l2))
                    (newSet l1 ++ filter (fun x => negb (has (newSet l1) x)) (newSet l2))).
  { apply NoDup_Permutation; [exact Hnd| |].
    - apply NoDup_app; [exact Hnd1|now apply NoDup_filter|].
      intros x Hx Hx'. apply filter_In in Hx'. destruct Hx' as [_ Hx'].
      apply has_In in Hx. rewrite Hx in Hx'. discriminate.
    - intros x. rewrite Hin, !in_app_iff, filter_In, Hin1, Hin2.
      destruct (has (newSet l1) x) eqn:Hx.
      + apply has_In, Hin1 in Hx. cbn. tauto.
      + assert (~ In x l1).
        { intros Hx'. apply Hin1, has_In in Hx'. congruence. }
        cbn. tauto. }
  rewrite (Permutation_length Hperm), length_app.
  rewrite (common_sym _ _ Hnd1 Hnd2).
  pose proof (Permutation_length
                (filter_partition_perm (has (newSet l1)) (newSet l2))) as Hsplit.
  rewrite length_app in Hsplit. lia.
Qed.
End Sets.

Section Jaccard.
Import JS Similarity.
Local Open Scope list_scope.

Lemma jaccard_nonempty (a b : list string) :
  a <> [] -> b <> [] ->
  jaccardSimilarity a b
  = (inject_Z (Z.of_nat (List.length (filter (has b) a)))
     / inject_Z (size a + size b - Z.of_nat (List.length (filter (has b) a))))%Q.
Proof.
  intros Ha Hb. unfold jaccardSimilarity, size.
  destruct a as [|x a]; [contradiction|]. destruct b as [|y b]; [contradiction|].
  destruct (Z.eqb_spec (Z.of_nat (List.length (x :: a))) 0) as [H0|_];
    [cbn [List.length] in H0; lia|].
  destruct (Z.eqb_spec (Z.of_nat (List.length (y :: b))) 0) as [H0|_];
    [cbn [List.length] in H0; lia|].
  cbn [andb orb]. rewrite count_members. reflexivity.
Qed.

Lemma jaccard_core (a b : list string) :
  NoDup a -> NoDup b ->
  (0 <= jaccardSimilarity a b <= 1)%Q
  /\ (jaccardSimilarity a b == jaccardSimilarity b a)%Q
  /\ (jaccardSimilarity a b == 1 <-> forall x, In x a <-> In x b)%Q
  /\ (jaccardSimilarity a b == 0 <-> (a <> [] \/ b <> []) /\ forall x, In x a -> ~ In x b)%Q.
Proof.
  intros Ha Hb.
  destruct a as [|x a].
  { destruct b as [|y b]; cbn.
    - repeat split; try discriminate; try reflexivity; try tauto.
    - repeat split; try discriminate; try reflexivity; try tauto.
      + intros H. destruct (proj2 (H y) (or_introl eq_refl)).
      + right. discriminate. }
  destruct b as [|y b].
  { cbn. repeat split; try discriminate; try reflexivity; try tauto.
    - intros H. destruct (proj1 (H x) (or_introl eq_refl)).
    - left. discriminate. }
  assert (Hane : x :: a <> []) by discriminate.
  assert (Hbne : y :: b <> []) by discriminate.
  rewrite (jaccard_nonempty _ _ Hane Hbne), (jaccard_nonempty _ _ Hbne Hane).
  rewrite (common_sym (y :: b) (x :: a) Hb Ha).
  pose proof (common_le (has (y :: b)) (x :: a)) as Hle1.
  pose proof (common_le (has (x :: a)) (y :: b)) as Hle2.
  rewrite <- (common_sym (x :: a) (y :: b) Ha Hb) in Hle2.
  pose proof (common_all (has (y :: b)) (x :: a)) as Hall1.
  pose proof (common_all (has (x :: a)) (y :: b)) as Hall2.
  rewrite <- (common_sym (x :: a) (y :: b) Ha Hb) in Hall2.
  pose proof (common_none (has (y :: b)) (x :: a)) as Hnone.
  set (i := List.length (filter (has (y :: b)) (x :: a))) in *.
  unfold size. rewrite (Z.add_comm (Z.of_nat (List.length (y :: b)))).
  set (la := List.length (x :: a)) in *. set (lb := List.length (y :: b)) in *.
  assert (Hla : (0 < la)%nat) by (unfold la; cbn; lia).
  assert (Hlb : (0 < lb)%nat) by (unfold lb; cbn; lia).
  destruct (ratio_facts (Z.of_nat i) (Z.of_nat la + Z.of_nat lb - Z.of_nat i))
    as (Hrange & Hone & Hzero); [lia|lia|].
  split; [exact Hrange|]. split; [reflexivity|]. split.
  - rewrite Hone. split.
    + intros Hi x'. assert (Hia : i = la) by lia. assert (Hib : i = lb) by lia.
      split; intros Hx.
      * apply has_In. now apply (proj1 Hall1 Hia).
      * apply has_In. now apply (proj1 Hall2 Hib).
    + intros Hsame.
      assert (Hia : i = la).
      { apply Hall1. intros x' Hx'. apply has_In. now apply Hsame. }
      assert (Hib : i = lb).
      { apply Hall2. intros x' Hx'. apply has_In. now apply Hsame. }
      lia.
  - rewrite Hzero. split.
    + intros Hi. split; [now left|]. intros x' Hx' Hx''.
      assert (H0 : i = 0%nat) by lia.
      pose proof (proj1 Hnone H0 x' Hx') as Hhas. apply has_In in Hx''. congruence.
    + intros [_ Hdisj]. f_equal.
      assert (H0 : i = 0%nat); [|now rewrite H0].
      apply Hnone. intros x' Hx'. destruct (has (y :: b) x') eqn:Hhas; [|reflexivity].
      apply has_In in Hhas. now destruct (Hdisj x' Hx').
Qed.

Lemma newSet_nil (l : list string) : newSet l = [] <-> l = [].
Proof.
  destruct (newSet_spec l) as [_ Hin]. split.
  - intros Hnil. destruct l as [|x l]; [reflexivity|].
    pose proof (proj2 (Hin x) (or_introl eq_refl)) as Hx. rewrite Hnil in Hx. destruct Hx.
  - intros ->. reflexivity.
Qed.

(** [jaccardSimilarity] on the sets made from two arrays, in terms of the
    elements of the arrays. *)
Lemma jaccard_of_arrays (l1 l2 : list string) :
  (0 <= jaccardSimilarity (newSet l1) (newSet l2) <= 1)%Q
  /\ (jaccardSimilarity (newSet l1) (newSet l2)
      == jaccardSimilarity (newSet l2) (newSet l1))%Q
  /\ (jaccardSimilarity (newSet l1) (newSet l2) == 1 <-> forall x, In x l1 <-> In x l2)%Q
  /\ (jaccardSimilarity (newSet l1) (newSet l2) == 0
      <-> l1 ++ l2 <> [] /\ forall x, In x l1 -> ~ In x l2)%Q.
Proof.
  destruct (newSet_spec l1) as [Hnd1 Hin1], (newSet_spec l2) as [Hnd2 Hin2].
  destruct (jaccard_core _ _ Hnd1 Hnd2) as (Hrange & Hsym & Hone & Hzero).
  split; [exact Hrange|split; [exact Hsym|split]].
  - rewrite Hone. split; intros H z; specialize (H z); rewrite ?Hin1, ?Hin2 in *; exact H.
  - rewrite Hzero, !newSet_nil. split; intros [Hne Hdisj]; split.
    + destruct l1; [|discriminate]. destruct Hne as [Hne|Hne]; [contradiction|exact Hne].
    + intros z. specialize (Hdisj z). now rewrite Hin1, Hin2 in Hdisj.
    + destruct l1 as [|x l1]; [right; exact Hne|left; discriminate].
    + intros z. rewrite Hin1, Hin2. apply Hdisj.
Qed.

(** X24. [jaccardSimilarity] on two sets, given by the arrays [l1] and [l2]
    they are made from: it is the number of common elements over the number
    of elements of the union, and 1 when both sets are empty; it lies between
    0 and 1; it is symmetric; it is 1 exactly when the two sets have the same
    elements, and 0 exactly when they have none in common and are not both
    empty. *)
Theorem jaccardSimilarity_spec (l1 l2 : list string) :
  (jaccardSimilarity (newSet l1) (newSet l2)
   == match l1 ++ l2 with
      | [] => 1
      | _ :: _ =>
          inject_Z (size (filter (has (newSet l2)) (newSet l1)))
          / inject_Z (size (newSet (l1 ++ l2)))
      end)%Q
  /\ (0 <= jaccardSimilarity (newSet l1) (newSet l2) <= 1)%Q
  /\ (jaccardSimilarity (newSet l1) (newSet l2)
      == jaccardSimilarity (newSet l2) (newSet l1))%Q
  /\ (jaccardSimilarity (newSet l1) (newSet l2) == 1 <-> forall x, In x l1 <-> In x l2)%Q
  /\ (jaccardSimilarity (newSet l1) (newSet l2) == 0
      <-> l1 ++ l2 <> [] /\ forall x, In x l1 -> ~ In x l2)%Q.
Proof.
  split; [|apply jaccard_of_arrays].
  destruct l1 as [|x l1].
  - destruct l2 as [|y l2]; [reflexivity|]. cbn [app].
    assert (Hne : newSet (y :: l2) <> []) by (rewrite newSet_nil; discriminate).
    unfold jaccardSimilarity. change (newSet []) with (@nil string).
    cbn [size List.length Z.of_nat Z.eqb andb orb filter].
    destruct (Z.eqb_spec (size (newSet (y :: l2))) 0) as [H0|_].
    { destruct Hne. apply length_zero_iff_nil. unfold size in H0. lia. }
    unfold Qdiv. now rewrite Qmult_0_l.
  - cbn [app]. destruct l2 as [|y l2].
    + assert (Hne : size (newSet (x :: l1)) <> 0).
      { unfold size. intros H0.
        assert (Hnil : newSet (x :: l1) = []) by (apply length_zero_iff_nil; lia).
        apply (proj1 (newSet_nil _)) in Hnil. discriminate. }
      unfold jaccardSimilarity. change (newSet []) with (@nil string).
      destruct (Z.eqb_spec (size (newSet (x :: l1))) 0) as [H0|_]; [contradiction|].
      cbn [size List.length Z.of_nat Z.eqb andb orb].
      replace (filter (has []) (newSet (x :: l1))) with (@nil string).
      2:{ symmetry. apply length_zero_iff_nil, common_none. reflexivity. }
      unfold Qdiv. now rewrite Qmult_0_l.
    + rewrite jaccard_nonempty by (rewrite newSet_nil; discriminate).
      pose proof (union_size (x :: l1) (y :: l2)) as Hu. unfold size.
      replace (Z.of_nat (List.length (newSet (x :: l1)))
               + Z.of_nat (List.length (newSet (y :: l2)))
               - Z.of_nat (List.length (filter (has (newSet (y :: l2)))
                                               (newSet (x :: l1)))))
        with (Z.of_nat (List.length (newSet ((x :: l1) ++ y :: l2)))) by lia.
      reflexivity.
Qed.

Section Overlap.
Context `{P : Platform}.

(** X25. The two uses of [jaccardSimilarity].  [jaccardStringSimilarity]
    compares the sets of tokens of two texts and [domainOverlap] the sets of
    domains of two lists of addresses, the domain being that of [getDomain]:
    either lies between 0 and 1, is symmetric, and is 1 exactly when the two
    sides have the same tokens (domains), whatever their order and number of
    occurrences. *)
Theorem overlap_of_tokens_and_domains (a b : string) (urls1 urls2 : list string) :
  ((0 <= jaccardStringSimilarity a b <= 1)%Q
   /\ (jaccardStringSimilarity a b == jaccardStringSimilarity b a)%Q
   /\ (jaccardStringSimilarity a b == 1
       <-> forall t, In t (tokenize a) <-> In t (tokenize b))%Q)
  /\ ((0 <= domainOverlap urls1 urls2 <= 1)%Q
      /\ (domainOverlap urls1 urls2 == domainOverlap urls2 urls1)%Q
      /\ (domainOverlap urls1 urls2 == 1
          <-> forall d, In d (map UrlNormalizer.getDomain urls1)
                        <-> In d (map UrlNormalizer.getDomain urls2))%Q).
Proof.
  split.
  - unfold jaccardStringSimilarity.
    destruct (jaccard_of_arrays (tokenize a) (tokenize b)) as (Hrange & Hsym & Hone & _).
    split; [exact Hrange|]. split; [exact Hsym|exact Hone].
  - unfold domainOverlap.
    destruct (jaccard_of_arrays (map domainOf urls1) (map domainOf urls2))
      as (Hrange & Hsym & Hone & _).
    split; [exact Hrange|]. split; [exact Hsym|exact Hone].
Qed.
End Overlap.
End Jaccard.

Section Tokens.
Import JS Similarity.
Local Open Scope list_scope.

Lemma word_not_space (c : ascii) : isWordChar c = true -> isSpace c = false.
Proof. destruct c as [[] [] [] [] [] [] [] []]; cbv; intros H; congruence. Qed.

Lemma isWordChar_lower (c : ascii) : isWordChar (lower_ascii c) = isWordChar c.
Proof. destruct c as [[] [] [] [] [] [] [] []]; reflexivity. Qed.

Lemma isTokenChar_lower (c : ascii) : isTokenChar (lower_ascii c) = isWordChar c.
Proof. destruct c as [[] [] [] [] [] [] [] []]; reflexivity. Qed.

Lemma lower_ascii_idem (c : ascii) : lower_ascii (lower_ascii c) = lower_ascii c.
Proof. destruct c as [[] [] [] [] [] [] [] []]; reflexivity. Qed.

Lemma tokenChar_fixed (c : ascii) :
  isTokenChar c = true -> lower_ascii c = c /\ isWordChar c = true.
Proof. destruct c as [[] [] [] [] [] [] [] []]; cbv; intros H; split; congruence. Qed.

Lemma nonempty_truthy (s : string) : (JS.length s >? 0) = truthy s.
Proof. destruct s; reflexivity. Qed.

Lemma truthy_snoc (piece : string) (c : ascii) : truthy (piece ++ String c "") = true.
Proof. now destruct piece. Qed.

(** The pipeline of [tokenize], started in the middle of a word. *)
Lemma split_wordsFrom (s : string) :
  forall (piece : string) (inRun : bool),
    (inRun = true -> piece = EmptyString) ->
    filter (fun token => JS.length token >? 0)
           (splitWhiteSpace_aux (blankPunctuation (toLowerCase s)) piece inRun)
    = wordsFrom s piece.
Proof.
  induction s as [|c s IH]; intros piece inRun Hrun;
    cbn [toLowerCase blankPunctuation splitWhiteSpace_aux wordsFrom filter].
  - now rewrite nonempty_truthy.
  - destruct (isWordChar (lower_ascii c)) eqn:Hw; cbn [orb].
    + rewrite (word_not_space _ Hw). apply IH. discriminate.
    + assert (Hsp : isSpace (if isSpace (lower_ascii c) then lower_ascii c else " "%char)
                    = true).
      { destruct (isSpace (lower_ascii c)) eqn:Hs; [exact Hs|reflexivity]. }
      rewrite Hsp. destruct inRun.
      * rewrite (Hrun eq_refl). cbn [truthy app]. now apply IH.
      * cbn [filter]. rewrite nonempty_truthy, (IH EmptyString true) by reflexivity.
        now destruct (truthy piece).
Qed.

Lemma tokenize_wordsFrom (s : string) : tokenize s = wordsFrom s EmptyString.
Proof. unfold tokenize, splitWhiteSpace. apply split_wordsFrom. discriminate. Qed.

Lemma chars_app (s1 s2 : string) :
  list_ascii_of_string (s1 ++ s2) = list_ascii_of_string s1 ++ list_ascii_of_string s2.
Proof. induction s1 as [|c s1 IH]; cbn; [reflexivity|now rewrite IH]. Qed.

Lemma wordsFrom_shape (s : string) :
  forall piece,
    forallb isTokenChar (list_ascii_of_string piece) = true ->
    Forall (fun t => t <> EmptyString
                     /\ forallb isTokenChar (list_ascii_of_string t) = true)
           (wordsFrom s piece).
Proof.
  assert (Hone : forall piece,
             forallb isTokenChar (list_ascii_of_string piece) = true ->
             Forall (fun t => t <> EmptyString
                              /\ forallb isTokenChar (list_ascii_of_string t) = true)
                    (if truthy piece then [piece] else [])).
  { intros piece Hp. destruct piece as [|c piece]; cbn [truthy]; constructor; [|constructor].
    split; [discriminate|exact Hp]. }
  induction s as [|c s IH]; intros piece Hp; cbn [wordsFrom]; [now apply Hone|].
  destruct (isWordChar (lower_ascii c)) eqn:Hw.
  - apply IH. rewrite chars_app, forallb_app, Hp. cbn.
    rewrite isTokenChar_lower, <- isWordChar_lower, Hw. reflexivity.
  - apply Forall_app. split; [now apply Hone|]. now apply IH.
Qed.

Lemma wordsFrom_word (t : string) :
  forallb isTokenChar (list_ascii_of_string t) = true ->
  forall piece, wordsFrom t piece = if truthy (piece ++ t) then [(piece ++ t)%string] else [].
Proof.
  induction t as [|c t IH]; intros Ht piece; cbn [wordsFrom].
  - replace (piece ++ "")%string with piece; [reflexivity|].
    clear. induction piece as [|c p IHp]; cbn; [reflexivity|now rewrite <- IHp].
  - cbn in Ht. apply andb_prop in Ht. destruct Ht as [Hc Ht].
    destruct (tokenChar_fixed c Hc) as [Hfix Hw]. rewrite Hfix, Hw.
    rewrite (IH Ht), append_assoc. reflexivity.
Qed.

Lemma wordsFrom_lower (s : string) :
  forall piece, wordsFrom (toLowerCase s) piece = wordsFrom s piece.
Proof.
  induction s as [|c s IH]; intros piece; cbn [toLowerCase wordsFrom]; [reflexivity|].
  rewrite lower_ascii_idem, !IH. reflexivity.
Qed.

Lemma wordsFrom_separator (s1 s2 : string) (c : ascii) :
  isWordChar c = false ->
  forall piece,
    wordsFrom (s1 ++ String c s2) piece = wordsFrom s1 piece ++ wordsFrom s2 EmptyString.
Proof.
  intros Hc. induction s1 as [|d s1 IH]; intros piece; cbn [String.append wordsFrom].
  - now rewrite isWordChar_lower, Hc.
  - destruct (isWordChar (lower_ascii d)); [apply IH|].
    rewrite IH, app_assoc. reflexivity.
Qed.

End Tokens.

Section BestMatch.
Import JS Similarity.
Local Open Scope list_scope.

Variable score : string -> Q.
Variable minSimilarity : Q.

(** What the scan of [findBestMatch] knows after the candidates [seen]. *)
Let scanned (seen : list string) (state : option string * Q) : Prop :=
  match fst state with
  | None =>
      snd state = minSimilarity /\ forall c, In c seen -> (score c <= minSimilarity)%Q
  | Some m =>
      snd state = score m
      /\ (minSimilarity < score m)%Q
      /\ exists before after,
          seen = before ++ m :: after
          /\ (forall c, In c before -> (score c < score m)%Q)
          /\ (forall c, In c after -> (score c <= score m)%Q)
  end.

Lemma scan_step (seen : list string) (state : option string * Q) (candidate : string) :
  scanned seen state ->
  scanned (seen ++ [candidate])
    ((fun '(bestMatch, bestSimilarity) candidate =>
        let similarity := score candidate in
        if negb (Qle_bool similarity bestSimilarity)
        then (Some candidate, similarity)
        else (bestMatch, bestSimilarity)) state candidate).
Proof.
  destruct state as [[m|] bs]; unfold scanned; cbn [fst snd]; cbn zeta.
  - intros (-> & Hmin & before & after & -> & Hbefore & Hafter).
    destruct (Qle_bool (score candidate) (score m)) eqn:Hle; cbn [negb fst snd].
    + apply Qle_bool_iff in Hle. split; [reflexivity|]. split; [exact Hmin|].
      exists before, (after ++ [candidate]). split; [now rewrite <- app_assoc|].
      split; [exact Hbefore|]. intros c Hc. apply in_app_or in Hc.
      destruct Hc as [Hc|[<-|[]]]; [now apply Hafter|exact Hle].
    + assert (Hlt : (score m < score candidate)%Q).
      { apply Qnot_le_lt. intros H. apply Qle_bool_iff in H. congruence. }
      split; [reflexivity|]. split; [now apply (Qlt_trans _ (score m))|].
      exists (before ++ m :: after), []. split; [reflexivity|]. split; [|intros c []].
      intros c Hc. apply in_app_or in Hc. destruct Hc as [Hc|[<-|Hc]].
      * apply (Qlt_trans _ (score m)); [now apply Hbefore|exact Hlt].
      * exact Hlt.
      * apply (Qle_lt_trans _ (score m)); [now apply Hafter|exact Hlt].
  - intros [-> Hseen].
    destruct (Qle_bool (score candidate) minSimilarity) eqn:Hle; cbn [negb fst snd].
    + apply Qle_bool_iff in Hle. split; [reflexivity|]. intros c Hc.
      apply in_app_or in Hc. destruct Hc as [Hc|[<-|[]]]; [now apply Hseen|exact Hle].
    + assert (Hlt : (minSimilarity < score candidate)%Q).
      { apply Qnot_le_lt. intros H. apply Qle_bool_iff in H. congruence. }
      split; [reflexivity|]. split; [exact Hlt|].
      exists seen, []. split; [reflexivity|]. split; [|intros c []].
      intros c Hc. apply (Qle_lt_trans _ minSimilarity); [now apply Hseen|exact Hlt].
Qed.

Lemma scan_all (candidates : list string) :
  forall seen state,
    scanned seen state ->
    scanned (seen ++ candidates)
      (fold_left
         (fun '(bestMatch, bestSimilarity) candidate =>
            let similarity := score candidate in
            if negb (Qle_bool similarity bestSimilarity)
            then (Some candidate, similarity)
            else (bestMatch, bestSimilarity))
         candidates state).
Proof.
  induction candidates as [|c candidates IH]; intros seen state Hs; cbn [fold_left].
  - now rewrite app_nil_r.
  - replace (seen ++ c :: candidates) with ((seen ++ [c]) ++ candidates)
      by (now rewrite <- app_assoc).
    apply IH. now apply scan_step.
Qed.
End BestMatch.

Section BestMatchSpec.
Import JS Similarity.
Local Open Scope list_scope.

(** X27. [findBestMatch] returns the first candidate of the greatest
    similarity to the query, with that similarity, provided it is greater
    than [minSimilarity]: every candidate before it is strictly less similar
    and none after it is more similar.  It returns [null] exactly when no
    candidate is more similar than [minSimilarity]. *)
Theorem findBestMatch_spec (query : string) (candidates : list string) (minSimilarity : Q) :
  match findBestMatch query candidates minSimilarity with
  | Some best =>
      similarity best = jaccardStringSimilarity query (match_ best)
      /\ (minSimilarity < similarity best)%Q
      /\ exists before after,
          candidates = before ++ match_ best :: after
          /\ (forall c, In c before ->
                         (jaccardStringSimilarity query c < similarity best)%Q)
          /\ (forall c, In c after ->
                         (jaccardStringSimilarity query c <= similarity best)%Q)
  | None =>
      forall c, In c candidates -> (jaccardStringSimilarity query c <= minSimilarity)%Q
  end.
Proof.
  unfold findBestMatch.
  pose proof (scan_all (jaccardStringSimilarity query) minSimilarity candidates []
                       (None, minSimilarity)) as Hscan.
  cbn [app] in Hscan.
  destruct (fold_left _ candidates (None, minSimilarity)) as [[m|] bs];
    cbn [fst snd] in Hscan.
  - destruct Hscan as (-> & Hmin & before & after & Hc & Hbefore & Hafter).
    + split; [reflexivity|intros c []].
    + cbn [similarity match_]. split; [reflexivity|]. split; [exact Hmin|].
      now exists before, after.
  - destruct Hscan as [_ Hall]; [split; [reflexivity|intros c []]|exact Hall].
Qed.
End BestMatchSpec.

Section Frequency.
Import JS Similarity.
Local Open Scope list_scope.

Lemma keys_setAdd {V : Type} (m : Map V) (k : string) (v : V) :
  map fst (set m k v) = setAdd (map fst m) k.
Proof.
  induction m as [|[k' v'] m IH]; cbn [set map fst setAdd]; [reflexivity|].
  destruct (String.eqb k' k); cbn [map fst]; [reflexivity|now rewrite IH].
Qed.

Lemma frequency_from (tokens : list string) :
  forall freq : Map Z,
    map fst (fold_left (fun freq token => set freq token (orZero (get freq token) + 1))
                       tokens freq)
    = fold_left setAdd tokens (map fst freq)
    /\ forall t,
        get (fold_left (fun freq token => set freq token (orZero (get freq token) + 1))
                       tokens freq) t
        = match get freq t, count_occ string_dec tokens t with
          | None, O => None
          | found, n => Some (orZero found + Z.of_nat n)
          end.
Proof.
  induction tokens as [|x tokens IH]; intros freq; cbn [fold_left count_occ].
  - split; [reflexivity|]. intros t. destruct (get freq t); cbn [orZero]; [f_equal; lia|reflexivity].
  - destruct (IH (set freq x (orZero (get freq x) + 1))) as [Hkeys Hget].
    split; [now rewrite Hkeys, keys_setAdd|].
    intros t. rewrite Hget. destruct (string_dec x t) as [->|Hne].
    + rewrite get_set_eq.
      destruct (get freq t), (count_occ string_dec tokens t); cbn [orZero]; f_equal; lia.
    + rewrite get_set_ne by exact Hne.
      destruct (get freq t), (count_occ string_dec tokens t); cbn [orZero]; reflexivity.
Qed.

(** X28. [getFrequency] maps every token of the array to the number of its
    occurrences and no other string to anything; its keys are the distinct
    tokens in the order of their first occurrence. *)
Theorem getFrequency_spec (tokens : list string) :
  map fst (getFrequency tokens) = newSet tokens
  /\ forall t,
      get (getFrequency tokens) t
      = match count_occ string_dec tokens t with
        | O => None
        | S n => Some (Z.of_nat (S n))
        end.
Proof.
  destruct (frequency_from tokens []) as [Hkeys Hget].
  split; [exact Hkeys|]. intros t. unfold getFrequency. rewrite Hget. cbn [get].
  destruct (count_occ string_dec tokens t); reflexivity.
Qed.
End Frequency.

(** ** The further properties at concrete inputs *)

Section FurtherWitnesses.
Import JS UrlNormalizer Duplicates.
Local Open Scope list_scope.

(** X4 at three tabs, two of them on the same page: the tab 7 is removed
    and the pinned tab 3, on the same page, stays. *)
Lemma removal_keeps_a_copy_witness :
  NoDup (map TabInfo.id sampleTabs)
  /\ In 7 (getDuplicateTabsToRemove (@findDuplicateTabs Plain.platform sampleTabs))
  /\ exists t k,
      In t sampleTabs /\ In k sampleTabs
      /\ TabInfo.id t = 7 /\ TabInfo.pinned t = false
      /\ @normalizeUrl Plain.platform (TabInfo.url k) noOptions
         = @normalizeUrl Plain.platform (TabInfo.url t) noOptions
      /\ TabInfo.id k < TabInfo.id t
      /\ ~ In (TabInfo.id k)
              (getDuplicateTabsToRemove (@findDuplicateTabs Plain.platform sampleTabs)).
Proof.
  assert (Hnd : NoDup (map TabInfo.id sampleTabs)).
  { cbv. repeat constructor; intros Hin;
      repeat (destruct Hin as [Hin|Hin]; [discriminate Hin|]); exact Hin. }
  assert (Hin : In 7 (getDuplicateTabsToRemove
                        (@findDuplicateTabs Plain.platform sampleTabs)))
    by (vm_compute; left; reflexivity).
  split; [exact Hnd|]. split; [exact Hin|].
  exact (@removal_keeps_a_copy Plain.platform sampleTabs Hnd 7 Hin).
Defined.

(** X7 at an address that parses and one that does not. *)
Lemma areSimilarUrls_relation_witness :
  @URL_parse Plain.platform "https://example.com/a/b"
  = Some (mkURL "https:" "example.com" "/a/b" "" [] "")
  /\ @areSimilarUrls Plain.platform "https://example.com/a/b" "https://example.com/a/b"
                     defaultThreshold = true
  /\ @URL_parse Plain.platform "not an address" = None
  /\ @areSimilarUrls Plain.platform "not an address" "https://example.com/a/b"
                     defaultThreshold = false.
Proof.
  assert (Hp : @URL_parse Plain.platform "https://example.com/a/b"
               = Some (mkURL "https:" "example.com" "/a/b" "" [] ""))
    by (vm_compute; reflexivity).
  assert (Hn : @URL_parse Plain.platform "not an address" = None)
    by (vm_compute; reflexivity).
  assert (Hle : (defaultThreshold <= 1)%Q) by (unfold Qle; cbn; lia).
  split; [exact Hp|]. split; [|split; [exact Hn|]].
  - exact (proj2 (proj2 (@areSimilarUrls_relation Plain.platform
                           "https://example.com/a/b" "https://example.com/a/b"
                           defaultThreshold)) _ Hp Hle).
  - exact (proj1 (proj2 (@areSimilarUrls_relation Plain.platform
                           "not an address" "https://example.com/a/b"
                           defaultThreshold)) Hn).
Defined.


(** X9 at the example of the specification. *)
Lemma domain_of_normalized_witness :
  @isValidHttpUrl Plain.platform
    "http://www.Example.com/foo/?b=2&utm_source=x&a=1#frag" = true
  /\ @getDomain Plain.platform
       (@getDomain Plain.platform "http://www.Example.com/foo/?b=2&utm_source=x&a=1#frag")
     = @getDomain Plain.platform "http://www.Example.com/foo/?b=2&utm_source=x&a=1#frag"
  /\ exists rest,
      @normalizeUrl Plain.platform
        "http://www.Example.com/foo/?b=2&utm_source=x&a=1#frag" noOptions
      = (@getDomain Plain.platform
           "http://www.Example.com/foo/?b=2&utm_source=x&a=1#frag" ++ rest)%string.
Proof.
  assert (Hvalid : @isValidHttpUrl Plain.platform
                     "http://www.Example.com/foo/?b=2&utm_source=x&a=1#frag" = true)
    by (vm_compute; reflexivity).
  split; [exact Hvalid|].
  exact (@domain_of_normalized Plain.platform plain_standard _ Hvalid).
Defined.

(** X12 at three tabs and a budget of 30 tokens. *)
Lemma splitIntoBatches_small_budget_witness :
  2530 - 2500 < 40
  /\ @TokenEstimator.splitIntoBatches _ tabItem sampleItems 2530 2500
     = map (fun item => [item]) sampleItems.
Proof.
  assert (Hbudget : 2530 - 2500 < 40) by lia.
  split; [exact Hbudget|].
  exact (@splitIntoBatches_small_budget _ tabItem sampleItems 2530 2500 Hbudget).
Defined.

End FurtherWitnesses.

Section FurtherRuns.
Import JS UrlNormalizer Duplicates Bookmarks Similarity.
Local Open Scope list_scope.

(** The duplicate finder on a flattened tree: the two bookmarks of the same
    page form one group, the older first; the folders and the bookmark with
    an empty address are passed over. *)
Example flattened_tree_duplicates :
  map BookmarkNode.id (flattenBookmarks sampleTree) = ["1"; "2"; "3"; "4"; "5"]
  /\ map (fun g => (BookmarkDuplicateGroup.normalizedUrl g,
                    map BookmarkNode.id (BookmarkDuplicateGroup.bookmarks g)))
         (@findDuplicateBookmarks Plain.platform (flattenBookmarks sampleTree))
     = [("example.com/a", ["4"; "2"])]
  /\ getDuplicateBookmarksToRemove
       (@findDuplicateBookmarks Plain.platform (flattenBookmarks sampleTree))
     = ["2"].
Proof. vm_compute. repeat split. Qed.

(** The similarity functions on small inputs. *)
Example similarity_runs :
  levenshteinDistance "kitten" "sitting" = 3
  /\ tokenize "Hello, World! hello_1" = ["hello"; "world"; "hello_1"]
  /\ (jaccardStringSimilarity "the cat sat" "the cat" == 2 # 3)%Q
  /\ getFrequency ["a"; "b"; "a"] = [("a", 2); ("b", 1)]
  /\ findBestMatch "red apple" ["green pear"; "red pear"; "apple red"; "red apple pie"]
                   defaultMinSimilarity
     = Some (mkMatch "apple red" (2 # 2)).
Proof. vm_compute. repeat split. Qed.
End FurtherRuns.

(** ** Addresses the normalizer leaves alone *)

Section OpaqueAddresses.
Import JS UrlNormalizer.
Context `{P : Platform}.

Lemma unparseable_address (url : string) :
  URL_parse url = None ->
  getDomain url = url /\ getPath url = ""
  /\ isInternalUrl url = false /\ isValidHttpUrl url = false.
Proof.
  intros Hp. unfold getDomain, getPath, isInternalUrl, isValidHttpUrl.
  now rewrite Hp.
Qed.

(** X30. [normalizeUrl] returns an address that is not a valid http(s) URL
    as it is, whatever the options; the internal pages are among these
    addresses; and an address that does not parse is its own domain, has the
    empty path and is neither internal nor valid. *)
Theorem non_http_addresses_untouched (url : string) (options : NormalizeOptions) :
  (isValidHttpUrl url = false -> normalizeUrl url options = url)
  /\ (isInternalUrl url = true ->
      isValidHttpUrl url = false /\ normalizeUrl url options = url)
  /\ (URL_parse url = None ->
      getDomain url = url /\ getPath url = ""
      /\ isInternalUrl url = false /\ isValidHttpUrl url = false).
Proof.
  assert (Hfix : isValidHttpUrl url = false -> normalizeUrl url options = url).
  { unfold isValidHttpUrl, normalizeUrl. destruct (URL_parse url) as [parsed|]; [|reflexivity].
    now intros ->. }
  split; [exact Hfix|]. split; [|apply unparseable_address].
  intros Hinternal.
  assert (Hno : isValidHttpUrl url = false).
  { unfold isInternalUrl, isValidHttpUrl, isHttp in *.
    destruct (URL_parse url) as [parsed|]; [|reflexivity].
    destruct (includes ["http:"; "https:"] (protocol parsed)) eqn:Hhttp; [|reflexivity].
    unfold includes in Hhttp. cbn [existsb] in Hhttp.
    apply orb_true_iff in Hhttp. destruct Hhttp as [Hhttp|Hhttp].
    - apply String.eqb_eq in Hhttp. rewrite Hhttp in Hinternal. discriminate.
    - apply orb_true_iff in Hhttp. destruct Hhttp as [Hhttp|Hhttp]; [|discriminate].
      apply String.eqb_eq in Hhttp. rewrite Hhttp in Hinternal. discriminate. }
  split; [exact Hno|exact (Hfix Hno)].
Qed.

Hypothesis standard : StandardParser P.

Lemma normalized_unparseable (url : string) :
  isValidHttpUrl url = true -> URL_parse (normalizeUrl url noOptions) = None.
Proof.
  unfold isValidHttpUrl. intros Hvalid.
  destruct (URL_parse url) as [parsed|] eqn:Hp; [|discriminate].
  destruct (http_shape P standard url parsed Hp Hvalid) as [Hhost Hpath].
  destruct (URL_parse (normalizeUrl url noOptions)) as [again|] eqn:Hagain; [|reflexivity].
  exfalso. apply (scheme_required P standard) in Hagain.
  rewrite (normalizeUrl_http url parsed Hp Hvalid) in Hagain.
  destruct (processPath_default parsed Hpath) as (rest & Hrest & Hshape).
  rewrite Hrest in Hagain.
  pose proof (setSearch_shape
                (paramsToString (processParams DEFAULT_OPTIONS (searchParams parsed))))
    as Hsearch.
  change (setSearch _) with (processSearch DEFAULT_OPTIONS parsed) in Hsearch.
  pose proof (host_then_rest_unparseable (hostname parsed)
                (rest ++ processSearch DEFAULT_OPTIONS parsed) Hhost
                (schemeColon_path_or_query _ _ Hshape Hsearch)) as Hblocked.
  destruct (truthy (processSearch DEFAULT_OPTIONS parsed)) eqn:Ht.
  - rewrite append_assoc in Hagain. congruence.
  - destruct (processSearch DEFAULT_OPTIONS parsed); [|discriminate].
    rewrite append_nil_r in Hblocked. congruence.
Qed.

(** X29. The string that [normalizeUrl] returns for a valid http(s) URL
    under the default options is no longer an address for the helpers of the
    module: it does not parse, so [getDomain] returns it whole, [getPath]
    returns the empty string, and it is neither a valid http(s) URL nor an
    internal one. *)
Theorem normalized_url_is_opaque (url : string) :
  isValidHttpUrl url = true ->
  URL_parse (normalizeUrl url noOptions) = None
  /\ getDomain (normalizeUrl url noOptions) = normalizeUrl url noOptions
  /\ getPath (normalizeUrl url noOptions) = ""
  /\ isInternalUrl (normalizeUrl url noOptions) = false
  /\ isValidHttpUrl (normalizeUrl url noOptions) = false.
Proof.
  intros Hvalid. pose proof (normalized_unparseable url Hvalid) as Hno.
  split; [exact Hno|]. now apply unparseable_address.
Qed.
End OpaqueAddresses.

Section OpaqueWitnesses.
Import JS UrlNormalizer.

(** X29 at the example of the specification. *)
Lemma normalized_url_is_opaque_witness :
  @isValidHttpUrl Plain.platform
    "http://www.Example.com/foo/?b=2&utm_source=x&a=1#frag" = true
  /\ @getDomain Plain.platform
       (@normalizeUrl Plain.platform
          "http://www.Example.com/foo/?b=2&utm_source=x&a=1#frag" noOptions)
     = @normalizeUrl Plain.platform
         "http://www.Example.com/foo/?b=2&utm_source=x&a=1#frag" noOptions.
Proof.
  assert (Hvalid : @isValidHttpUrl Plain.platform
                     "http://www.Example.com/foo/?b=2&utm_source=x&a=1#frag" = true)
    by (vm_compute; reflexivity).
  split; [exact Hvalid|].
  exact (proj1 (proj2 (@normalized_url_is_opaque Plain.platform plain_standard _ Hvalid))).
Defined.

(** X30 at a settings page of the browser. *)
Lemma non_http_addresses_untouched_witness :
  @isInternalUrl Plain.platform "chrome://settings/" = true
  /\ @isValidHttpUrl Plain.platform "chrome://settings/" = false
  /\ @normalizeUrl Plain.platform "chrome://settings/" noOptions = "chrome://settings/".
Proof.
  assert (Hinternal : @isInternalUrl Plain.platform "chrome://settings/" = true)
    by (vm_compute; reflexivity).
  split; [exact Hinternal|].
  exact (proj1 (proj2 (@non_http_addresses_untouched Plain.platform
                         "chrome://settings/" noOptions)) Hinternal).
Defined.
End OpaqueWitnesses.
